(** * ZoneRepo: cascade simulation, response surface and regulatory thresholds

    A shallow embedding of the modules [densityProvider],
    [cascadeSimulation], [responseSurface] and [regulatoryThresholds] of the
    repository and of [evaluatePolicyPlan], which composes them; the
    properties of their specification, and further properties of the code.

    Numbers.  A JavaScript number is modelled by [num]: an exact rational, or
    one of [+Infinity], [-Infinity], [NaN].  Arithmetic on finite values is
    exact (no rounding, no overflow, a single zero) and its results are kept
    in lowest terms ([Qred]); the special values follow the IEEE rules the
    program can observe: division by zero, [0/0], comparisons with [NaN],
    the truthiness used by [x || d].  Decimal literals of the source ([0.1],
    [0.001], ...) denote the decimal itself.  [Math.pow] is a parameter of
    the development.

    Objects.  An object that is only indexed ([popByRegion], the state maps
    [A] and [F]) is a [gmap string _]; an object that is enumerated (the
    mobility graph, an explicit weight map, the grouping table) is the list
    of its own entries in enumeration order; a missing property is [None].
    Arrays that are mutated in place and shared between cells (the
    [centerIds] of a spatial focus) live in a store of arrays.

    Effects.  The generator [rng] is the stream of the values its successive
    calls return; [Math.random], the fallback, is a stream given to each
    invocation.  A density provider and a generator factory are functions of
    their arguments.  A call whose loop cannot end has no result ([None]). *)

From Stdlib Require Import QArith Qround Qminmax Lqa.
From stdpp Require Import gmap strings list sorting.

(** ** JavaScript numbers *)

Inductive num : Type :=
| Fin (q : Q)
| PInf
| NInf
| NaN.

Definition num_of_nat (n : nat) : num := Fin (inject_Z (Z.of_nat n)).

(** [Qsign q] is the sign of a rational: [Lt], [Eq] or [Gt] against zero. *)
Definition Qsign (q : Q) : comparison := (q ?= 0)%Q.

Definition js_neg (x : num) : num :=
  match x with
  | Fin a => Fin (- a)
  | PInf => NInf
  | NInf => PInf
  | NaN => NaN
  end.

Definition js_add (x y : num) : num :=
  match x, y with
  | NaN, _ | _, NaN => NaN
  | Fin a, Fin b => Fin (Qred (a + b))
  | PInf, NInf | NInf, PInf => NaN
  | PInf, _ | _, PInf => PInf
  | NInf, _ | _, NInf => NInf
  end.

Definition js_sub (x y : num) : num := js_add x (js_neg y).

(** An infinity of the sign given by [s]; [Eq] stands for [0 * Infinity]. *)
Definition signed_inf (s : comparison) : num :=
  match s with
  | Gt => PInf
  | Lt => NInf
  | Eq => NaN
  end.

Definition js_mul (x y : num) : num :=
  match x, y with
  | NaN, _ | _, NaN => NaN
  | Fin a, Fin b => Fin (Qred (a * b))
  | Fin a, PInf | PInf, Fin a => signed_inf (Qsign a)
  | Fin a, NInf | NInf, Fin a => signed_inf (CompOpp (Qsign a))
  | PInf, PInf | NInf, NInf => PInf
  | PInf, NInf | NInf, PInf => NInf
  end.

Definition js_div (x y : num) : num :=
  match x, y with
  | NaN, _ | _, NaN => NaN
  | Fin a, Fin b =>
      if Qeq_bool b 0 then signed_inf (Qsign a) else Fin (Qred (a / b))
  | Fin _, PInf | Fin _, NInf => Fin 0
  | PInf, Fin b => if Qle_bool 0 b then PInf else NInf
  | NInf, Fin b => if Qle_bool 0 b then NInf else PInf
  | PInf, PInf | PInf, NInf | NInf, PInf | NInf, NInf => NaN
  end.

(** [x <= y]; every comparison with [NaN] is false. *)
Definition js_le (x y : num) : bool :=
  match x, y with
  | NaN, _ | _, NaN => false
  | Fin a, Fin b => Qle_bool a b
  | NInf, _ | _, PInf => true
  | _, _ => false
  end.

Definition js_lt (x y : num) : bool :=
  match x, y with
  | NaN, _ | _, NaN => false
  | Fin a, Fin b => negb (Qle_bool b a)
  | PInf, _ | _, NInf => false
  | _, _ => true
  end.

Definition js_ge (x y : num) : bool := js_le y x.
Definition js_gt (x y : num) : bool := js_lt y x.

(** [Math.min] and [Math.max] of two arguments. *)
Definition js_min (x y : num) : num :=
  match x, y with
  | NaN, _ | _, NaN => NaN
  | _, _ => if js_le x y then x else y
  end.

Definition js_max (x y : num) : num :=
  match x, y with
  | NaN, _ | _, NaN => NaN
  | _, _ => if js_le x y then y else x
  end.

Definition js_floor (x : num) : num :=
  match x with
  | Fin a => Fin (inject_Z (Qfloor a))
  | _ => x
  end.

(** Truthiness of a number: [0] and [NaN] are falsy. *)
Definition truthy (x : num) : bool :=
  match x with
  | Fin a => negb (Qeq_bool a 0)
  | NaN => false
  | PInf | NInf => true
  end.

(** [x || d] for a number [x]. *)
Definition js_or (x d : num) : num := if truthy x then x else d.

(** [o[k] || d]: the property may be missing ([undefined] is falsy). *)
Definition js_or_undef (o : option num) (d : num) : num :=
  match o with
  | Some x => js_or x d
  | None => d
  end.

(** A finite number within the given rational bounds. *)
Definition finite (x : num) : Prop := ∃ q, x = Fin q.
Definition nonneg (x : num) : Prop := ∃ q, x = Fin q ∧ (0 <= q)%Q.
Definition in01 (x : num) : Prop := ∃ q, x = Fin q ∧ (0 <= q)%Q ∧ (q <= 1)%Q.

Definition nonzero (x : num) : Prop := ∃ q, x = Fin q ∧ ¬ (q == 0)%Q.

(** The rational a finite number holds ([0] for the others), and the sum
    of a list of rationals. *)
Definition qval (x : num) : Q :=
  match x with Fin q => q | _ => 0%Q end.

Definition Qsum (l : list Q) : Q := fold_right Qplus 0%Q l.

(** An enumerable object: its entries in enumeration order. *)
Fixpoint obj_get {V} (o : list (string * V)) (k : string) : option V :=
  match o with
  | [] => None
  | (k', v) :: o' => if String.eqb k' k then Some v else obj_get o' k
  end.

Definition obj_values {V} (o : list (string * V)) : list V := map snd o.
Definition obj_keys {V} (o : list (string * V)) : list string := map fst o.

(** [ToNumber] of a property read that may be [undefined]. *)
Definition js_num (o : option num) : num := default NaN o.

(** A destructuring default: [const { f = d } = p || {}]. *)
Definition param {P} (p : option P) (f : P → option num) (d : num) : num :=
  default d (p ≫= f).

(** ** densityProvider.js: the provider interface and the synthetic variant *)

Module densityProvider.

Record DensityProvider : Type := {
  getDensity : string → num → num;
  listRegions : list string
}.

(** [new RealGisDensityProvider({ regionMeta, densityByRegionAndTime })]:
    [regionMeta] is the list of its entries, each with its [baseDensity]
    when it has one; [densityByRegionAndTime t] is the time slice stored
    under the key of [t]. *)
Definition RealGisDensityProvider
    (regionMeta : list (string * option num))
    (densityByRegionAndTime : num → option (gmap string num))
    : DensityProvider :=
  {| getDensity := λ regionId t,
       let base := default (Fin 0) (obj_get regionMeta regionId ≫= id) in
       match densityByRegionAndTime t with
       | None => base
       | Some timeSlice => default base (timeSlice !! regionId)
       end;
     listRegions := obj_keys regionMeta |}.

(** [new SyntheticDensityProvider({ regionIds, generatorFn })]. *)
Definition SyntheticDensityProvider
    (regionIds : list string) (generatorFn : string → num → num)
    : DensityProvider :=
  {| getDensity := generatorFn; listRegions := regionIds |}.

End densityProvider.

(** ** cascadeSimulation.js *)

Module cascadeSimulation.
Import densityProvider.

Record Edge : Type := { to : string; weight : num }.

(** [fromRegion -> array of { to, weight }], in enumeration order. *)
Definition MobilityGraph : Type := list (string * list Edge).

Record SpatialFocus : Type := {
  type : option string;
  centerIds : option (list string);
  weights : option (list (string * num))
}.

Record Theta : Type := {
  seedFraction : num;
  spatialFocus : option SpatialFocus;
  signalStrength : num;
  timeHorizon : num;
  dt : num;
  randomSeed : option num
}.

Record AdoptionParams : Type := {
  localWeight : option num;
  importedWeight : option num;
  baseContact : option num;
  densityExponent : option num;
  exposureScale : option num;
  fearSensitivity : option num;
  maxRate : option num
}.

Record FearParams : Type := {
  kExposure : option num;
  kGrowth : option num;
  kHarm : option num;
  decay : option num;
  nonLinearSpike : option bool;
  spikeThreshold : option num;
  spikeGain : option num;
  criticalFear : option num;
  materialAdoption : option num;
  criticalPopShare : option num
}.

Record HarmWeights : Type := {
  hw_adoption : option num;
  hw_fear : option num;
  hw_exposure : option num
}.

(** [simConfig]; [baseTimeHorizon] and [baseDt] are the two properties
    [buildResponseSurface] reads from the same object. *)
Record SimConfig : Type := {
  fearParams : option FearParams;
  adoptionParams : option AdoptionParams;
  popByRegion : gmap string num;
  initialFearByRegion : option (gmap string num);
  rngFactory : option (num → nat → num);
  harmWeights : option HarmWeights;
  baseTimeHorizon : num;
  baseDt : num
}.

Record Snapshot : Type := { t : num; values : gmap string num }.

Record History : Type := { histA : list Snapshot; histF : list Snapshot }.

Record RegionPeak : Type := {
  r_peakAdoption : num;
  r_peakFear : num;
  r_peakAdoptionTime : option num;
  r_peakFearTime : option num
}.

Record Metrics : Type := {
  globalPeakAdoption : num;
  globalPeakFear : num;
  peakAdoptionTime : option num;
  peakFearTime : option num;
  perRegion : gmap string RegionPeak;
  harmfulCascadeOccurred : bool
}.

Record Result : Type := { history : History; metrics : Metrics }.

Definition clamp01 (x : num) : num := js_max (Fin 0) (js_min (Fin 1) x).

(** [regions.reduce((s, r) => s + (popByRegion[r] || 0), 0)]. *)
Definition sumPop (regions : list string) (popByRegion : gmap string num) : num :=
  fold_left (λ s r, js_add s (js_or_undef (popByRegion !! r) (Fin 0)))
    regions (Fin 0).

(** [for (const r of regions) weights[r] = 1 / n]. *)
Definition uniformWeights (regions : list string) : gmap string num :=
  let n := num_of_nat (length regions) in
  fold_left (λ w r, <[r := js_div (Fin 1) n]> w) regions ∅.

(** The sum of the weights of the listed regions. *)
Definition weightSum (regions : list string) (w : gmap string num) : num :=
  fold_left (λ s r, js_add s (js_num (w !! r))) regions (Fin 0).

(** The value [raw[r] || 0] as a rational. *)
Definition rawAt (raw : list (string * num)) (r : string) : Q :=
  qval (js_or_undef (obj_get raw r) (Fin 0)).

(** [Object.values(raw).reduce((s, v) => s + v, 0)]. *)
Definition rawTotal (raw : list (string * num)) : num :=
  fold_left (λ s v, js_add s v) (obj_values raw) (Fin 0).

(** The [explicit] branch. *)
Definition explicitWeights (regions : list string)
    (raw : list (string * num)) : gmap string num :=
  let sum := js_or (rawTotal raw) (Fin 1) in
  fold_left
    (λ w r, <[r := js_div (js_or_undef (obj_get raw r) (Fin 0)) sum]> w)
    regions ∅.

(** [centerPop] of the [kernel] branch; [has] is [centers.has]. *)
Definition centerPopulation (has : string → bool) (regions : list string)
    (popByRegion : gmap string num) : num :=
  fold_left
    (λ cp r, if has r
             then js_add cp (js_or_undef (popByRegion !! r) (Fin 0))
             else cp)
    regions (Fin 0).

(** The [kernel] branch, for a non-empty list of center ids. *)
Definition kernelWeights (regions : list string) (centerIds : list string)
    (popByRegion : gmap string num) : gmap string num :=
  let has r := bool_decide (r ∈ centerIds) in
  let centerPop := centerPopulation has regions popByRegion in
  let totalPop := js_or (sumPop regions popByRegion) (Fin 1) in
  fold_left
    (λ w r,
       if has r
       then <[r := js_or (js_div (js_or_undef (popByRegion !! r) (Fin 0))
                                 centerPop) (Fin 0)]> w
       else <[r := js_mul (Fin 0.001)
                     (js_div (js_or_undef (popByRegion !! r) (Fin 0))
                             totalPop)]> w)
    regions ∅.

Definition computeSpatialFocusWeights
    (regions : list string) (spatialFocus : option SpatialFocus)
    (popByRegion : gmap string num) : gmap string num :=
  match spatialFocus with
  | None => uniformWeights regions
  | Some sf =>
    if bool_decide (type sf = Some "uniform") then uniformWeights regions
    else
      match bool_decide (type sf = Some "explicit"), weights sf,
            bool_decide (type sf = Some "kernel"), centerIds sf with
      | true, Some raw, _, _ => explicitWeights regions raw
      | _, _, true, Some (c :: cs) =>
        kernelWeights regions (c :: cs) popByRegion
      | _, _, _, _ => uniformWeights regions
      end
  end.

(** The body of the seeding loop for region [r]; [u] is the value [rng()]
    returned for it. *)
Definition seedRegion (weights : gmap string num) (targetSeedPop : num)
    (popByRegion : gmap string num) (u : num) (r : string) : num :=
  let w := js_or_undef (weights !! r) (Fin 0) in
  let regionPop := js_or_undef (popByRegion !! r) (Fin 0) in
  let expectedSeeds :=
    js_div (js_mul w targetSeedPop)
           (if js_gt regionPop (Fin 0) then regionPop else Fin 1) in
  let frac := js_min (Fin 1) (js_div expectedSeeds (js_or regionPop (Fin 1))) in
  let jitter := js_mul (js_sub u (Fin 0.5)) (Fin 0.1) in
  clamp01 (js_add frac jitter).

(** The seeding loop; [k] counts the calls of [rng] made so far. *)
Fixpoint seedLoop (weights : gmap string num) (targetSeedPop : num)
    (popByRegion : gmap string num) (rng : nat → num)
    (rs : list string) (k : nat) (A : gmap string num) : gmap string num :=
  match rs with
  | [] => A
  | r :: rs' =>
    seedLoop weights targetSeedPop popByRegion rng rs' (S k)
      (<[r := seedRegion weights targetSeedPop popByRegion (rng k) r]> A)
  end.

Definition initializeAdoption (A : gmap string num) (regions : list string)
    (seedFraction : num) (spatialFocus : option SpatialFocus)
    (popByRegion : gmap string num) (rng : nat → num) : gmap string num :=
  let totalPop := sumPop regions popByRegion in
  let targetSeedPop := js_mul totalPop seedFraction in
  let weights := computeSpatialFocusWeights regions spatialFocus popByRegion in
  seedLoop weights targetSeedPop popByRegion rng regions 0 A.

Definition initializeFear (F : gmap string num) (regions : list string)
    (initialFearByRegion : gmap string num) : gmap string num :=
  fold_left (λ F r, <[r := js_or_undef (initialFearByRegion !! r) (Fin 0)]> F)
    regions F.

(** [incoming.push({ from, weight: edge.weight })] over the whole graph. *)
Definition reverseEdgesForRegion (targetRegionId : string)
    (mobilityGraph : MobilityGraph) : list (string * num) :=
  flat_map
    (λ '(from, edges),
       flat_map (λ edge, if String.eqb (to edge) targetRegionId
                         then [(from, weight edge)] else [])
                edges)
    mobilityGraph.

Section Dynamics.

(** [Math.pow], which has no rational model, is a parameter. *)
Variable Math_pow : num → num → num.

Definition localContactFunction (density : num)
    (adoptionParams : option AdoptionParams) : num :=
  let baseContact := param adoptionParams baseContact (Fin 0.01) in
  let densityExponent := param adoptionParams densityExponent (Fin 0.5) in
  js_mul baseContact (Math_pow (js_add density (Fin 1)) densityExponent).

Definition exposureOf (A : gmap string num) (densityProvider : DensityProvider)
    (mobilityGraph : MobilityGraph) (signalStrength : num)
    (adoptionParams : option AdoptionParams) (i : string) : num :=
  let localWeight := param adoptionParams localWeight (Fin 1) in
  let importedWeight := param adoptionParams importedWeight (Fin 1) in
  let localDensity := getDensity densityProvider i (Fin 0) in
  let localContactRate := localContactFunction localDensity adoptionParams in
  let localExposure :=
    js_mul (js_mul localWeight localContactRate)
           (js_or_undef (A !! i) (Fin 0)) in
  let importedExposure :=
    fold_left
      (λ imp e, js_add imp (js_mul e.2 (js_or_undef (A !! e.1) (Fin 0))))
      (reverseEdgesForRegion i mobilityGraph) (Fin 0) in
  js_mul signalStrength
         (js_add localExposure (js_mul importedWeight importedExposure)).

Definition computeExposure (regions : list string) (A : gmap string num)
    (densityProvider : DensityProvider) (mobilityGraph : MobilityGraph)
    (signalStrength : num) (adoptionParams : option AdoptionParams)
    : gmap string num :=
  fold_left
    (λ exposure i,
       <[i := exposureOf A densityProvider mobilityGraph signalStrength
                adoptionParams i]> exposure)
    regions ∅.

End Dynamics.

Definition adoptionIncrement (a f e : num)
    (adoptionParams : option AdoptionParams) : num :=
  let exposureScale := param adoptionParams exposureScale (Fin 1) in
  let fearSensitivity := param adoptionParams fearSensitivity (Fin 1) in
  let maxRate := param adoptionParams maxRate (Fin 0.2) in
  let effectiveExposure := js_mul e exposureScale in
  let fearFactor :=
    js_div (Fin 1) (js_add (Fin 1) (js_mul fearSensitivity f)) in
  let rawGrowth :=
    js_mul (js_mul effectiveExposure fearFactor) (js_sub (Fin 1) a) in
  js_min maxRate rawGrowth.

Definition computeHarmSignal (regionId : string) (A F exposure : gmap string num)
    (simConfig : SimConfig) : num :=
  let hw f := js_or_undef (harmWeights simConfig ≫= f) (Fin 0) in
  let adoptionLevel := js_or_undef (A !! regionId) (Fin 0) in
  let fearLevel := js_or_undef (F !! regionId) (Fin 0) in
  let exp := js_or_undef (exposure !! regionId) (Fin 0) in
  js_add (js_add (js_mul (hw hw_adoption) adoptionLevel)
                 (js_mul (hw hw_fear) fearLevel))
         (js_mul (hw hw_exposure) exp).

Definition fearIncrement (f e dA harmSignal : num)
    (fearParams : option FearParams) : num :=
  let kExposure := param fearParams kExposure (Fin 0.1) in
  let kGrowth := param fearParams kGrowth (Fin 0.5) in
  let kHarm := param fearParams kHarm (Fin 1) in
  let decay := param fearParams decay (Fin 0.05) in
  let nonLinearSpike := default true (fearParams ≫= nonLinearSpike) in
  let spikeThreshold := param fearParams spikeThreshold (Fin 0.2) in
  let spikeGain := param fearParams spikeGain (Fin 2) in
  let driver :=
    js_add (js_add (js_mul kExposure e)
                   (js_mul kGrowth (js_max (Fin 0) dA)))
           (js_mul kHarm harmSignal) in
  let driver :=
    if nonLinearSpike && js_gt driver spikeThreshold
    then js_mul driver spikeGain else driver in
  js_sub driver (js_mul decay f).

(** [m[r] = v], where [v] may be [undefined]; a property holding
    [undefined] reads like a missing one. *)
Definition assign (m : gmap string num) (r : string) (v : option num)
    : gmap string num :=
  match v with
  | Some x => <[r := x]> m
  | None => delete r m
  end.

(** The values the body of the update loop writes for region [r]:
    [dA], [newA[r]] and [newF[r]]. *)
Definition adoptionDelta (simConfig : SimConfig)
    (A F exposure : gmap string num) (r : string) : num :=
  adoptionIncrement (js_num (A !! r)) (js_num (F !! r))
    (js_or_undef (exposure !! r) (Fin 0)) (adoptionParams simConfig).

Definition updatedA (simConfig : SimConfig)
    (A F exposure : gmap string num) (r : string) : num :=
  clamp01 (js_add (js_num (A !! r)) (adoptionDelta simConfig A F exposure r)).

Definition updatedF (simConfig : SimConfig)
    (A F exposure : gmap string num) (r : string) : num :=
  let f := js_num (F !! r) in
  let e := js_or_undef (exposure !! r) (Fin 0) in
  let dA := adoptionDelta simConfig A F exposure r in
  let harmSignal := computeHarmSignal r A F exposure simConfig in
  js_max (Fin 0) (js_add f (fearIncrement f e dA harmSignal
                              (fearParams simConfig))).

(** The update loop of one step: fills [newA] and [newF] from the old
    state [A], [F]. *)
Fixpoint updateLoop (rs : list string) (A F exposure : gmap string num)
    (simConfig : SimConfig) (newA newF : gmap string num)
    : gmap string num * gmap string num :=
  match rs with
  | [] => (newA, newF)
  | r :: rs' =>
    let a := js_num (A !! r) in
    let f := js_num (F !! r) in
    let e := js_or_undef (exposure !! r) (Fin 0) in
    let dA := adoptionIncrement a f e (adoptionParams simConfig) in
    let newA' := <[r := clamp01 (js_add a dA)]> newA in
    let harmSignal := computeHarmSignal r A F exposure simConfig in
    let dF := fearIncrement f e dA harmSignal (fearParams simConfig) in
    let newF' := <[r := js_max (Fin 0) (js_add f dF)]> newF in
    updateLoop rs' A F exposure simConfig newA' newF'
  end.

(** The commit loop: [A[r] = newA[r]; F[r] = newF[r]]. *)
Fixpoint commit (rs : list string) (newA newF A F : gmap string num)
    : gmap string num * gmap string num :=
  match rs with
  | [] => (A, F)
  | r :: rs' =>
    commit rs' newA newF (assign A r (newA !! r)) (assign F r (newF !! r))
  end.

(** [x === y] on numbers. *)
Definition js_eq (x y : num) : bool :=
  match x, y with
  | Fin a, Fin b => Qeq_bool a b
  | PInf, PInf | NInf, NInf => true
  | _, _ => false
  end.

(** How many values of [step = 0, 1, ...] satisfy [step <= T]; [None] when
    all of them do, and [for (step = 0; step <= T; step++)] can only leave
    through [break]. *)
Definition iterations (T : num) : option nat :=
  match T with
  | Fin q => Some (Z.to_nat (Qfloor q + 1))
  | PInf => None
  | NInf | NaN => Some 0
  end.

(** The pair of snapshots pushed at loop counter [k] in state [AF]. *)
Definition snapAt (dt : num) (k : nat)
    (AF : gmap string num * gmap string num) : Snapshot * Snapshot :=
  ({| t := js_mul (num_of_nat k) dt; values := AF.1 |},
   {| t := js_mul (num_of_nat k) dt; values := AF.2 |}).

Section Simulation.

Variable Math_pow : num → num → num.

(** One pass through the body of the simulation loop after the snapshot:
    exposure, update, commit. *)
Definition stepState (regions : list string)
    (densityProvider : DensityProvider) (mobilityGraph : MobilityGraph)
    (signalStrength : num) (simConfig : SimConfig)
    (AF : gmap string num * gmap string num)
    : gmap string num * gmap string num :=
  let exposure :=
    computeExposure Math_pow regions AF.1 densityProvider mobilityGraph
      signalStrength (adoptionParams simConfig) in
  let new := updateLoop regions AF.1 AF.2 exposure simConfig ∅ ∅ in
  commit regions new.1 new.2 AF.1 AF.2.

(** The simulation loop; [n] is the number of iterations the loop condition
    still allows, [step] the loop counter.  It yields the snapshots pushed
    on [history.A] and [history.F], in order; when [T] is infinite the
    condition never ends the loop and [n] does not apply. *)
Fixpoint simLoop (regions : list string)
    (densityProvider : DensityProvider) (mobilityGraph : MobilityGraph)
    (signalStrength dt T : num) (simConfig : SimConfig)
    (n step : nat) (AF : gmap string num * gmap string num)
    : list (Snapshot * Snapshot) :=
  match n with
  | 0 => []
  | S n' =>
    let snap := snapAt dt step AF in
    if js_eq (num_of_nat step) T then [snap]
    else
      snap :: simLoop regions densityProvider mobilityGraph signalStrength
                dt T simConfig n' (S step)
                (stepState regions densityProvider mobilityGraph
                   signalStrength simConfig AF)
  end.

End Simulation.

(** *** Metrics *)

Definition initPerRegion (regions : list string) : gmap string RegionPeak :=
  fold_left
    (λ pr r, <[r := {| r_peakAdoption := Fin 0; r_peakFear := Fin 0;
                       r_peakAdoptionTime := None;
                       r_peakFearTime := None |}]> pr)
    regions ∅.

Definition bumpAdoption (t a : num) (p : RegionPeak) : RegionPeak :=
  if js_gt a (r_peakAdoption p)
  then {| r_peakAdoption := a; r_peakFear := r_peakFear p;
          r_peakAdoptionTime := Some t;
          r_peakFearTime := r_peakFearTime p |}
  else p.

Definition bumpFear (t f : num) (p : RegionPeak) : RegionPeak :=
  if js_gt f (r_peakFear p)
  then {| r_peakAdoption := r_peakAdoption p; r_peakFear := f;
          r_peakAdoptionTime := r_peakAdoptionTime p;
          r_peakFearTime := Some t |}
  else p.

(** The inner loop of the peak scan, over the regions of one snapshot. *)
Fixpoint regionPeaks (rs : list string) (t : num)
    (Avals Fvals popByRegion : gmap string num)
    (totalAdoptedPop totalFearWeightedPop : num)
    (perRegion : gmap string RegionPeak)
    : num * num * gmap string RegionPeak :=
  match rs with
  | [] => (totalAdoptedPop, totalFearWeightedPop, perRegion)
  | r :: rs' =>
    let a := js_or_undef (Avals !! r) (Fin 0) in
    let f := js_or_undef (Fvals !! r) (Fin 0) in
    let pop := js_or_undef (popByRegion !! r) (Fin 0) in
    regionPeaks rs' t Avals Fvals popByRegion
      (js_add totalAdoptedPop (js_mul a pop))
      (js_add totalFearWeightedPop (js_mul f pop))
      (alter (λ p, bumpFear t f (bumpAdoption t a p)) r perRegion)
  end.

Record PeakState : Type := {
  ps_globalPeakAdoption : num;
  ps_globalPeakFear : num;
  ps_peakAdoptionTime : option num;
  ps_peakFearTime : option num;
  ps_perRegion : gmap string RegionPeak
}.

(** The outer loop of the peak scan, over the snapshots; [history.F[i]] is
    read at the index of [history.A[i]]. *)
Fixpoint peakLoop (snaps : list (Snapshot * Snapshot)) (regions : list string)
    (popByRegion : gmap string num) (popTotal : num) (s : PeakState)
    : PeakState :=
  match snaps with
  | [] => s
  | (sA, sF) :: rest =>
    let '(totalAdoptedPop, totalFearWeightedPop, perRegion') :=
      regionPeaks regions (t sA) (values sA) (values sF) popByRegion
        (Fin 0) (Fin 0) (ps_perRegion s) in
    let avgAdoption := js_div totalAdoptedPop popTotal in
    let avgFear := js_div totalFearWeightedPop popTotal in
    let up_a := js_gt avgAdoption (ps_globalPeakAdoption s) in
    let up_f := js_gt avgFear (ps_globalPeakFear s) in
    peakLoop rest regions popByRegion popTotal
      {| ps_globalPeakAdoption :=
           if up_a then avgAdoption else ps_globalPeakAdoption s;
         ps_globalPeakFear := if up_f then avgFear else ps_globalPeakFear s;
         ps_peakAdoptionTime :=
           if up_a then Some (t sA) else ps_peakAdoptionTime s;
         ps_peakFearTime := if up_f then Some (t sA) else ps_peakFearTime s;
         ps_perRegion := perRegion' |}
  end.

(** [popAtRisk] of one snapshot. *)
Definition popAtRisk (regions : list string)
    (Avals Fvals popByRegion : gmap string num)
    (materialAdoption criticalFear : num) : num :=
  fold_left
    (λ acc r,
       let a := js_or_undef (Avals !! r) (Fin 0) in
       let f := js_or_undef (Fvals !! r) (Fin 0) in
       let pop := js_or_undef (popByRegion !! r) (Fin 0) in
       if js_ge a materialAdoption && js_ge f criticalFear
       then js_add acc pop else acc)
    regions (Fin 0).

Definition shareAtRisk (regions : list string) (popByRegion : gmap string num)
    (popTotal materialAdoption criticalFear : num)
    (snap : Snapshot * Snapshot) : num :=
  js_div (popAtRisk regions (values snap.1) (values snap.2) popByRegion
            materialAdoption criticalFear)
         popTotal.

(** The harmful-cascade scan: [true] and [break] at the first snapshot whose
    share at risk reaches [criticalPopShare]. *)
Fixpoint harmfulScan (snaps : list (Snapshot * Snapshot))
    (regions : list string) (popByRegion : gmap string num)
    (popTotal materialAdoption criticalFear criticalPopShare : num) : bool :=
  match snaps with
  | [] => false
  | snap :: rest =>
    if js_ge (shareAtRisk regions popByRegion popTotal materialAdoption
                criticalFear snap) criticalPopShare
    then true
    else harmfulScan rest regions popByRegion popTotal materialAdoption
           criticalFear criticalPopShare
  end.

(** The snapshots of a history paired by index, as both loops of
    [computeSimulationMetrics] read them. *)
Definition snapshots (h : History) : list (Snapshot * Snapshot) :=
  zip (histA h) (histF h).

Definition computeSimulationMetrics (history : History)
    (regions : list string) (popByRegion : gmap string num)
    (fearParams : option FearParams) : Metrics :=
  let popTotal := js_or (sumPop regions popByRegion) (Fin 1) in
  let s :=
    peakLoop (snapshots history) regions popByRegion popTotal
      {| ps_globalPeakAdoption := Fin 0; ps_globalPeakFear := Fin 0;
         ps_peakAdoptionTime := None; ps_peakFearTime := None;
         ps_perRegion := initPerRegion regions |} in
  let criticalFear := param fearParams criticalFear (Fin 0.7) in
  let materialAdoption := param fearParams materialAdoption (Fin 0.3) in
  let criticalPopShare := param fearParams criticalPopShare (Fin 0.1) in
  {| globalPeakAdoption := ps_globalPeakAdoption s;
     globalPeakFear := ps_globalPeakFear s;
     peakAdoptionTime := ps_peakAdoptionTime s;
     peakFearTime := ps_peakFearTime s;
     perRegion := ps_perRegion s;
     harmfulCascadeOccurred :=
       harmfulScan (snapshots history) regions popByRegion popTotal
         materialAdoption criticalFear criticalPopShare |}.

(** [Math_random] is the ambient generator of the invocation: its [k]-th
    call returns [Math_random k].  A factory [rngFactory seed] is the stream
    of values its closure returns. *)
Definition rngOf (Math_random : nat → num) (theta : Theta)
    (simConfig : SimConfig) : nat → num :=
  match rngFactory simConfig with
  | Some factory => factory (js_or_undef (randomSeed theta) (Fin 0))
  | None => Math_random
  end.

(** The state [(A, F)] after step 1 of [runCascadeSimulation]. *)
Definition initialState (Math_random : nat → num) (theta : Theta)
    (densityProvider : DensityProvider) (simConfig : SimConfig)
    : gmap string num * gmap string num :=
  let initialFear := default ∅ (initialFearByRegion simConfig) in
  let regions := listRegions densityProvider in
  (initializeAdoption ∅ regions (seedFraction theta) (spatialFocus theta)
     (popByRegion simConfig) (rngOf Math_random theta simConfig),
   initializeFear ∅ regions initialFear).

Section Run.

Variable Math_pow : num → num → num.

(** The result is [None] when the loop does not end. *)
Definition runCascadeSimulation (Math_random : nat → num)
    (theta : Theta) (densityProvider : DensityProvider)
    (mobilityGraph : MobilityGraph) (simConfig : SimConfig) : option Result :=
  let regions := listRegions densityProvider in
  let T := js_floor (js_div (timeHorizon theta) (dt theta)) in
  let AF := initialState Math_random theta densityProvider simConfig in
  n ← iterations T;
  let snaps :=
    simLoop Math_pow regions densityProvider mobilityGraph
      (signalStrength theta) (dt theta) T simConfig n 0 AF in
  let history := {| histA := snaps.*1; histF := snaps.*2 |} in
  Some {| history := history;
          metrics :=
            computeSimulationMetrics history regions (popByRegion simConfig)
              (fearParams simConfig) |}.

End Run.

(** [history.A[k].values[r]] and [history.F[k].values[r]] of a result. *)
Definition adoptionAt (res : Result) (k : nat) (r : string) : option num :=
  histA (history res) !! k ≫= λ s, values s !! r.
Definition fearAt (res : Result) (k : nat) (r : string) : option num :=
  histF (history res) !! k ≫= λ s, values s !! r.

End cascadeSimulation.

(** ** Inputs on which a run stays within the finite numbers *)

Module inputs.
Import densityProvider cascadeSimulation.

(** A property that is given holds a finite number. *)
Definition suppliedFinite (o : option num) : Prop := ∀ x, o = Some x → finite x.
Definition suppliedNonneg (o : option num) : Prop := ∀ x, o = Some x → nonneg x.

Definition adoptionFields (ap : AdoptionParams) : list (option num) :=
  [localWeight ap; importedWeight ap; baseContact ap; densityExponent ap;
   exposureScale ap; fearSensitivity ap; maxRate ap].

Definition fearFields (fp : FearParams) : list (option num) :=
  [kExposure fp; kGrowth fp; kHarm fp; decay fp; spikeThreshold fp;
   spikeGain fp].

Definition harmFields (hw : HarmWeights) : list (option num) :=
  [hw_adoption hw; hw_fear hw; hw_exposure hw].

(** The power taken for region [i] by [localContactFunction]. *)
Definition contactPower (Math_pow : num → num → num) (dp : DensityProvider)
    (cfg : SimConfig) (i : string) : num :=
  Math_pow (js_add (getDensity dp i (Fin 0)) (Fin 1))
           (param (adoptionParams cfg) densityExponent (Fin 0.5)).

(** Finite inputs: every number the run reads is finite, populations and
    the fear sensitivity are not negative. *)
Record FiniteRun (Math_pow : num → num → num) (Math_random : nat → num)
    (theta : Theta) (dp : DensityProvider) (graph : MobilityGraph)
    (cfg : SimConfig) : Prop := {
  fr_seedFraction : finite (seedFraction theta);
  fr_signalStrength : finite (signalStrength theta);
  fr_population : ∀ r p, popByRegion cfg !! r = Some p → nonneg p;
  fr_weights :
    ∀ sf raw k v, spatialFocus theta = Some sf → weights sf = Some raw →
                  (k, v) ∈ raw → finite v;
  fr_rng : ∀ k, finite (rngOf Math_random theta cfg k);
  fr_adoption :
    ∀ ap, adoptionParams cfg = Some ap →
          Forall suppliedFinite (adoptionFields ap);
  fr_fearSensitivity :
    nonneg (param (adoptionParams cfg) fearSensitivity (Fin 1));
  fr_fear :
    ∀ fp, fearParams cfg = Some fp → Forall suppliedFinite (fearFields fp);
  fr_harm :
    ∀ hw, harmWeights cfg = Some hw → Forall suppliedFinite (harmFields hw);
  fr_edges :
    ∀ from edges e, (from, edges) ∈ graph → e ∈ edges → finite (weight e);
  fr_contact :
    ∀ i, i ∈ listRegions dp → finite (contactPower Math_pow dp cfg i)
}.

(** The configured initial fear is not negative. *)
Definition InitialFearNonneg (cfg : SimConfig) : Prop :=
  ∀ m r f, initialFearByRegion cfg = Some m → m !! r = Some f → nonneg f.

(** The non-negative inputs of the monotonicity property: signal strength,
    edge weights, densities (with the power [Math.pow] takes of them) and
    the adoption parameters. *)
Record NonnegRun (Math_pow : num → num → num)
    (theta : Theta) (dp : DensityProvider) (graph : MobilityGraph)
    (cfg : SimConfig) : Prop := {
  nn_signalStrength : nonneg (signalStrength theta);
  nn_edges :
    ∀ from edges e, (from, edges) ∈ graph → e ∈ edges → nonneg (weight e);
  nn_density : ∀ i, i ∈ listRegions dp → nonneg (getDensity dp i (Fin 0));
  nn_power :
    ∀ i, i ∈ listRegions dp → nonneg (getDensity dp i (Fin 0)) →
         nonneg (contactPower Math_pow dp cfg i);
  nn_adoption :
    ∀ ap, adoptionParams cfg = Some ap →
          Forall suppliedNonneg
            [exposureScale ap; fearSensitivity ap; maxRate ap;
             localWeight ap; importedWeight ap; baseContact ap]
}.

(** The state invariant: every listed region has an adoption value and a
    fear value, adoption values lie in [[0, 1]] and fear values are not
    negative. *)
Definition StateOk (regions : list string)
    (AF : gmap string num * gmap string num) : Prop :=
  (∀ r, r ∈ regions → is_Some (AF.1 !! r) ∧ is_Some (AF.2 !! r))
  ∧ (∀ r a, AF.1 !! r = Some a → in01 a)
  ∧ (∀ r f, AF.2 !! r = Some f → nonneg f).

End inputs.

(** ** Arrays shared between the cells of a surface

    A [spatialFocus] of the parameter grid is one object, handed to every
    cell built from it; its [centerIds] array is identified by a location
    of the store, and every cell built from the same option reads (and
    sorts) the same array. *)

Definition loc : Type := nat.
Abbreviation store := (gmap loc (list string)).

(** ** responseSurface.js *)

Module responseSurface.
Import densityProvider cascadeSimulation.

(** A [spatialFocus] object as the grid and the cells hold it. *)
Record FocusRef : Type := {
  f_type : option string;
  f_centerIds : option loc;
  f_weights : option (list (string * num))
}.

(** The object as [runCascadeSimulation] reads it in the store [σ]. *)
Definition resolve (σ : store) (f : FocusRef) : SpatialFocus :=
  {| type := f_type f;
     centerIds := f_centerIds f ≫= (σ !!.);
     weights := f_weights f |}.

Record ParamGrid : Type := {
  seedFractions : list num;
  signalStrengths : list num;
  spatialFocusOptions : list (option FocusRef)
}.

Record Config : Type := {
  densityProvider : DensityProvider;
  mobilityGraph : MobilityGraph;
  baseSimConfig : SimConfig;
  runsPerPoint : nat
}.

Record Stats : Type := {
  meanGlobalPeakAdoption : num;
  meanGlobalPeakFear : num;
  probabilityHarmful : num;
  raw : list Metrics
}.

Record Cell : Type := {
  c_seedFraction : num;
  c_signalStrength : num;
  c_spatialFocus : option FocusRef;
  stats : Stats
}.

(** [arr.reduce((s, m) => s + (m[key] || 0), 0) / n]. *)
Definition mean (n : num) (arr : list Metrics) (key : Metrics → num) : num :=
  js_div (fold_left (λ s m, js_add s (js_or (key m) (Fin 0))) arr (Fin 0)) n.

Definition aggregateMetrics (metricsArray : list Metrics) : Stats :=
  let n := js_or (num_of_nat (length metricsArray)) (Fin 1) in
  {| meanGlobalPeakAdoption := mean n metricsArray globalPeakAdoption;
     meanGlobalPeakFear := mean n metricsArray globalPeakFear;
     probabilityHarmful :=
       js_div (num_of_nat
                 (length (filter (λ m, harmfulCascadeOccurred m = true)
                                 metricsArray)))
              n;
     raw := metricsArray |}.

(** The grid points in the order of the three nested loops. *)
Definition gridPoints (paramGrid : ParamGrid)
    : list (num * num * option FocusRef) :=
  sf ← seedFractions paramGrid;
  ss ← signalStrengths paramGrid;
  f ← spatialFocusOptions paramGrid;
  [(sf, ss, f)].

Definition thetaOf (simConfig : Config) (point : num * num * option FocusRef)
    (σ : store) (k : nat) : Theta :=
  {| seedFraction := point.1.1;
     spatialFocus := resolve σ <$> point.2;
     signalStrength := point.1.2;
     timeHorizon := baseTimeHorizon (baseSimConfig simConfig);
     dt := baseDt (baseSimConfig simConfig);
     randomSeed := Some (num_of_nat k) |}.

Section Surface.

Variable Math_pow : num → num → num.

(** How many values one run draws from the ambient [Math.random]. *)
Definition ambientDraws (simConfig : Config) : nat :=
  match rngFactory (baseSimConfig simConfig) with
  | Some _ => 0
  | None => length (listRegions (densityProvider simConfig))
  end.

(** The [k]-th run of the cell of index [c]; earlier runs of the sweep have
    consumed their draws from [Math_random]. *)
Definition runOf (σ : store) (Math_random : nat → num) (simConfig : Config)
    (c : nat) (point : num * num * option FocusRef) (k : nat)
    : option Metrics :=
  let done := (c * runsPerPoint simConfig + k) * ambientDraws simConfig in
  metrics <$>
    runCascadeSimulation Math_pow (λ i, Math_random (done + i))
      (thetaOf simConfig point σ k)
      (densityProvider simConfig) (mobilityGraph simConfig)
      (baseSimConfig simConfig).

Definition cellOf (σ : store) (Math_random : nat → num) (simConfig : Config)
    (c : nat) (point : num * num * option FocusRef) : option Cell :=
  results ← mapM (runOf σ Math_random simConfig c point)
                 (seq 0 (runsPerPoint simConfig));
  Some {| c_seedFraction := point.1.1;
          c_signalStrength := point.1.2;
          c_spatialFocus := point.2;
          stats := aggregateMetrics results |}.

(** The sweep over the grid points from index [c] on. *)
Fixpoint sweep (σ : store) (Math_random : nat → num) (simConfig : Config)
    (points : list (num * num * option FocusRef)) (c : nat)
    : option (list Cell) :=
  match points with
  | [] => Some []
  | point :: rest =>
    cell ← cellOf σ Math_random simConfig c point;
    surface ← sweep σ Math_random simConfig rest (S c);
    Some (cell :: surface)
  end.

(** The surface the promise resolves to; [None] when a run does not end. *)
Definition buildResponseSurface (σ : store) (Math_random : nat → num)
    (paramGrid : ParamGrid) (simConfig : Config) : option (list Cell) :=
  sweep σ Math_random simConfig (gridPoints paramGrid) 0.

End Surface.

End responseSurface.

(** ** regulatoryThresholds.js *)

Module regulatoryThresholds.
Import cascadeSimulation responseSurface.

(** [maxHarmProbability] is compared as a number ([undefined] compares like
    [NaN]); [maxMeanGlobalFear] is optional. *)
Record RiskConstraints : Type := {
  maxHarmProbability : num;
  maxMeanGlobalFear : option num
}.

Record Threshold : Type := {
  th_spatialFocusKey : string;
  maxSafeSeedFraction : num;
  maxSafeSignalStrength : num;
  riskConstraints : RiskConstraints
}.

(** The returned object; [message] is absent when [safe], [thresholds] is
    [null] ([None]) when not. *)
Record Derived : Type := {
  safe : bool;
  message : option string;
  thresholds : option (list Threshold)
}.

(** [Array.prototype.sort()] without comparator, on an array of strings:
    ascending in the order of the code units, which for the byte strings of
    the model is [String.le]. *)
Definition js_sort (l : list string) : list string := merge_sort String.le l.

(** [l.join(",")]. *)
Definition js_join (l : list string) : string := String.concat "," l.

(** [spatialFocusKey]: the key, and the store after the in-place sort. *)
Definition spatialFocusKey (σ : store) (spatialFocus : option FocusRef)
    : store * string :=
  match spatialFocus with
  | None => (σ, "uniform")
  | Some f =>
    if bool_decide (f_type f = Some "kernel") then
      match f_centerIds f with
      | Some l =>
        (alter js_sort l σ,
         "kernel:" +:+ js_join (js_sort (default [] (σ !! l))))
      | None => (σ, "kernel:" +:+ js_join (js_sort []))
      end
    else if bool_decide (f_type f = Some "explicit") then (σ, "explicit")
    else
      (σ, match f_type f with
          | Some s => if bool_decide (s = "") then "other" else s
          | None => "other"
          end)
  end.

Definition maxBy {X} (arr : list X) (fn : X → num) : option X :=
  (fold_left
     (λ '(best, bestVal) x,
        let v := fn x in
        if js_gt v bestVal then (Some x, v) else (best, bestVal))
     arr (None, NInf)).1.

(** [if (!byFocusKey[key]) byFocusKey[key] = []; byFocusKey[key].push(cell)]
    on the entries of [byFocusKey] in insertion order, which is the order
    [Object.entries] lists them in.  The keys are own properties that are
    not array indices: a [type] that names a member of [Object.prototype] or
    reads as an integer is outside the model. *)
Fixpoint pushCell (key : string) (cell : Cell)
    (byFocusKey : list (string * list Cell)) : list (string * list Cell) :=
  match byFocusKey with
  | [] => [(key, [cell])]
  | (k, cells) :: rest =>
    if String.eqb k key then (k, cells ++ [cell]) :: rest
    else (k, cells) :: pushCell key cell rest
  end.

Fixpoint groupLoop (σ : store) (safeCells : list Cell)
    (byFocusKey : list (string * list Cell))
    : store * list (string * list Cell) :=
  match safeCells with
  | [] => (σ, byFocusKey)
  | cell :: rest =>
    let '(σ', key) := spatialFocusKey σ (c_spatialFocus cell) in
    groupLoop σ' rest (pushCell key cell byFocusKey)
  end.

Definition isSafe (rc : RiskConstraints) (cell : Cell) : bool :=
  let maxMeanGlobalFear := default (Fin 1) (maxMeanGlobalFear rc) in
  js_le (probabilityHarmful (stats cell)) (maxHarmProbability rc)
  && js_le (meanGlobalPeakFear (stats cell)) maxMeanGlobalFear.

Definition thresholdOf (rc : RiskConstraints)
    (entry : string * list Cell) : Threshold :=
  {| th_spatialFocusKey := entry.1;
     maxSafeSeedFraction :=
       default (Fin 0) (c_seedFraction <$> maxBy entry.2 c_seedFraction);
     maxSafeSignalStrength :=
       default (Fin 0) (c_signalStrength <$> maxBy entry.2 c_signalStrength);
     riskConstraints := rc |}.

(** The result and the store the call leaves behind. *)
Definition deriveRegulatoryThresholds (σ : store) (surface : list Cell)
    (rc : RiskConstraints) : store * Derived :=
  let safeCells := filter (λ cell, isSafe rc cell = true) surface in
  if bool_decide (length safeCells = 0) then
    (σ, {| safe := false;
           message := Some "No parameter region satisfies risk constraints.";
           thresholds := None |})
  else
    let '(σ', byFocusKey) := groupLoop σ safeCells [] in
    (σ', {| safe := true;
            message := None;
            thresholds := Some (thresholdOf rc <$> byFocusKey) |}).

(** The key [spatialFocusKey] returns in the store [σ]. *)
Definition canonicalKey (σ : store) (spatialFocus : option FocusRef) : string :=
  (spatialFocusKey σ spatialFocus).2.

(** The [centerIds] array of a focus of type ["kernel"], the one array
    [spatialFocusKey] sorts; and that of a cell. *)
Definition focusLoc (spatialFocus : option FocusRef) : option loc :=
  f ← spatialFocus;
  if bool_decide (f_type f = Some "kernel") then f_centerIds f else None.

Definition kernelLoc (cell : Cell) : option loc :=
  focusLoc (c_spatialFocus cell).

(** What a table holds under [k] after pushing [cs] below an entry [o]. *)
Definition pushedUnder (o : option (list Cell)) (cs : list Cell)
    : option (list Cell) :=
  match o, cs with
  | None, [] => None
  | _, _ => Some (default [] o ++ cs)
  end.

(** The table [byFocusKey] once the grouping loop is over. *)
Definition groupsOf (σ : store) (surface : list Cell) (rc : RiskConstraints)
    : list (string * list Cell) :=
  (groupLoop σ (filter (λ cell, isSafe rc cell = true) surface) []).2.

End regulatoryThresholds.

(** ** A one-region scenario

    Region ["A"] with population 100, density 0 and no mobility edge; the
    density exponent is 1, so that the only power taken is [1 ^ 1]. *)

Module scenario.
Import densityProvider cascadeSimulation responseSurface regulatoryThresholds.

(** [Math.pow] for a finite base and an exponent that is a natural number,
    the only arguments the scenario passes; elsewhere the value is a
    placeholder. *)
Definition pow_nat (x y : num) : num :=
  match x, y with
  | Fin a, Fin b =>
    if Qeq_bool b (inject_Z (Qfloor b)) && Qle_bool 0 b
    then Fin (Qred (a ^ Qfloor b)) else NaN
  | _, _ => NaN
  end.

Definition provider : DensityProvider :=
  SyntheticDensityProvider ["A"] (λ _ _, Fin 0).

Definition graph : MobilityGraph := [("A", [])].

Definition adoption : AdoptionParams :=
  {| localWeight := None; importedWeight := None; baseContact := None;
     densityExponent := Some (Fin 1); exposureScale := None;
     fearSensitivity := None; maxRate := None |}.

(** A configuration with the given initial fear and generator factory. *)
Definition config (fear0 : option (gmap string num))
    (factory : option (num → nat → num)) : SimConfig :=
  {| fearParams := None; adoptionParams := Some adoption;
     popByRegion := {["A" := Fin 100]};
     initialFearByRegion := fear0;
     rngFactory := factory; harmWeights := None;
     baseTimeHorizon := Fin 2; baseDt := Fin 1 |}.

(** A generator whose every draw is [u]. *)
Definition constant_rng (u : num) : nat → num := λ _, u.

Definition seeded : SimConfig := config None (Some (λ _, constant_rng (Fin 0.9))).
Definition unseeded : SimConfig := config None None.

Definition theta (horizon : Q) : Theta :=
  {| seedFraction := Fin 0.5; spatialFocus := None; signalStrength := Fin 1;
     timeHorizon := Fin horizon; dt := Fin 1; randomSeed := None |}.

(** A 2 x 1 x 1 grid over the uniform focus, and a sweep configuration
    making [runs] runs per point. *)
Definition grid : ParamGrid :=
  {| seedFractions := [Fin 0.1; Fin 0.2];
     signalStrengths := [Fin 0.5];
     spatialFocusOptions := [None] |}.

Definition sweepConfig (runs : nat) : Config :=
  {| densityProvider := provider; mobilityGraph := graph;
     baseSimConfig := seeded; runsPerPoint := runs |}.

(** The seeded configuration with [dt = 0]: [timeHorizon / dt] is
    [+Infinity]. *)
Definition stalled : SimConfig :=
  {| fearParams := None; adoptionParams := Some adoption;
     popByRegion := {["A" := Fin 100]};
     initialFearByRegion := None;
     rngFactory := Some (λ _, constant_rng (Fin 0.9)); harmWeights := None;
     baseTimeHorizon := Fin 2; baseDt := Fin 0 |}.

Definition stalledSweep : Config :=
  {| densityProvider := provider; mobilityGraph := graph;
     baseSimConfig := stalled; runsPerPoint := 1 |}.

(** A surface cell of kernel type whose [centerIds] is the array [l], with
    the given mean peak fear and no harmful run. *)
Definition kernelCell (l : loc) (fear : num) : Cell :=
  {| c_seedFraction := Fin 0.1;
     c_signalStrength := Fin 0.5;
     c_spatialFocus :=
       Some {| f_type := Some "kernel"; f_centerIds := Some l;
               f_weights := None |};
     stats :=
       {| meanGlobalPeakAdoption := Fin 0; meanGlobalPeakFear := fear;
          probabilityHarmful := Fin 0; raw := [] |} |}.

Definition limits : RiskConstraints :=
  {| maxHarmProbability := Fin 0.05; maxMeanGlobalFear := None |}.

End scenario.

(** ** evaluatePolicyPlan.js *)

Module policyPlan.
Import densityProvider cascadeSimulation responseSurface regulatoryThresholds.

(** [planSpec].  The plan also carries [minFairnessScore], which
    [evaluatePolicyPlan] copies into the constraints, next to a fixed
    [fairnessConfig] it adds to the sweep configuration; neither
    [buildResponseSurface] nor [deriveRegulatoryThresholds] reads them, and
    the configuration and constraints of the model do not hold them. *)
Record PlanSpec : Type := {
  ps_seedFractions : list num;
  ps_signalStrengths : list num;
  ps_spatialFocusOptions : list (option FocusRef);
  ps_maxHarmProbability : num;
  ps_maxMeanGlobalFear : option num;
  ps_minFairnessScore : option num;
  ps_baseSimConfig : SimConfig;
  ps_runsPerPoint : nat
}.

(** The returned object [{ surface, thresholds }]. *)
Record Evaluation : Type := {
  ev_surface : list Cell;
  ev_thresholds : Derived
}.

Section Plan.

Variable Math_pow : num → num → num.

(** The evaluation and the store it leaves behind; [None] when a run of
    the sweep does not end. *)
Definition evaluatePolicyPlan (σ : store) (Math_random : nat → num)
    (provider : DensityProvider) (graph : MobilityGraph)
    (planSpec : PlanSpec) : option (store * Evaluation) :=
  let paramGrid :=
    {| seedFractions := ps_seedFractions planSpec;
       signalStrengths := ps_signalStrengths planSpec;
       spatialFocusOptions := ps_spatialFocusOptions planSpec |} in
  surface ←
    buildResponseSurface Math_pow σ Math_random paramGrid
      {| densityProvider := provider;
         mobilityGraph := graph;
         baseSimConfig := ps_baseSimConfig planSpec;
         runsPerPoint := ps_runsPerPoint planSpec |};
  let derived :=
    deriveRegulatoryThresholds σ surface
      {| maxHarmProbability := ps_maxHarmProbability planSpec;
         maxMeanGlobalFear := ps_maxMeanGlobalFear planSpec |} in
  Some (derived.1, {| ev_surface := surface; ev_thresholds := derived.2 |}).

End Plan.

End policyPlan.

(** ** Sample inputs *)

Module samples.
Import densityProvider cascadeSimulation responseSurface regulatoryThresholds.
Import policyPlan.

(** The scenario's parameter vector with the given seed fraction and
    signal strength. *)
Definition theta (seed signal : Q) : Theta :=
  {| seedFraction := Fin seed; spatialFocus := None;
     signalStrength := Fin signal; timeHorizon := Fin 2; dt := Fin 1;
     randomSeed := None |}.

(** A GIS provider for the region ["A"], of base density [3]: its density
    is [0] in the time slice [0] and [later] in the time slice [1]. *)
Definition gis (later : Q) : DensityProvider :=
  RealGisDensityProvider [("A", Some (Fin 3))]
    (λ t, if js_eq t (Fin 0) then Some {["A" := Fin 0]}
          else if js_eq t (Fin 1) then Some {["A" := Fin later]}
          else None).

(** A surface cell with no harmful run and no fear. *)
Definition cell (seed signal : Q) (focus : option FocusRef) : Cell :=
  {| c_seedFraction := Fin seed;
     c_signalStrength := Fin signal;
     c_spatialFocus := focus;
     stats :=
       {| meanGlobalPeakAdoption := Fin 0; meanGlobalPeakFear := Fin 0;
          probabilityHarmful := Fin 0; raw := [] |} |}.

(** An explicit focus with the given weight of region ["A"]. *)
Definition explicit (weight : Q) : option FocusRef :=
  Some {| f_type := Some "explicit"; f_centerIds := None;
          f_weights := Some [("A", Fin weight)] |}.

(** Two regions, ["A"] with 300 people and ["B"] with 100. *)
Definition twoRegions : gmap string num :=
  {["A" := Fin 300; "B" := Fin 100]}.

(** The metrics of a run with the given global peaks. *)
Definition peaks (adoption fear : Q) : Metrics :=
  {| globalPeakAdoption := Fin adoption; globalPeakFear := Fin fear;
     peakAdoptionTime := None; peakFearTime := None; perRegion := ∅;
     harmfulCascadeOccurred := false |}.

(** A plan over the scenario's grid, with the given number of runs per
    point and the configuration whose runs would not end. *)
Definition plan (seeds : list num) (runs : nat) : PlanSpec :=
  {| ps_seedFractions := seeds;
     ps_signalStrengths := [Fin 0.5];
     ps_spatialFocusOptions := [None];
     ps_maxHarmProbability := Fin 0.05;
     ps_maxMeanGlobalFear := None;
     ps_minFairnessScore := None;
     ps_baseSimConfig := scenario.stalled;
     ps_runsPerPoint := runs |}.

End samples.

(** * Properties *)

Import densityProvider cascadeSimulation responseSurface regulatoryThresholds.
Import inputs.

(** ** Threshold derivation: the unsafe result *)

Section UnsafeResult.

Variables (σ : store) (surface : list Cell) (rc : RiskConstraints).

Lemma safeCells_empty_iff :
  length (filter (λ cell, isSafe rc cell = true) surface) = 0
  ↔ ∀ cell, cell ∈ surface → isSafe rc cell = false.
Proof.
  rewrite length_zero_iff_nil. split.
  - intros Hnil cell Hin. destruct (isSafe rc cell) eqn:Hs; [|done].
    exfalso. eapply (filter_nil_not_elem_of _ _ cell); eauto.
  - intros Hall. induction surface as [|c cs IH]; [done|].
    rewrite filter_cons. destruct (decide (isSafe rc c = true)) as [Hc|Hc].
    + rewrite Hall in Hc; [done|left].
    + apply IH. intros c' Hc'. apply Hall. by right.
Qed.


End UnsafeResult.

(** ** The harmful-cascade flag *)

Section HarmfulFlag.

Variables (regions : list string) (popByRegion : gmap string num).
Variables (popTotal materialAdoption criticalFear criticalPopShare : num).

Let qualifies (snap : Snapshot * Snapshot) : Prop :=
  js_ge (shareAtRisk regions popByRegion popTotal materialAdoption
           criticalFear snap) criticalPopShare = true.

Let scan (snaps : list (Snapshot * Snapshot)) : bool :=
  harmfulScan snaps regions popByRegion popTotal materialAdoption
    criticalFear criticalPopShare.

Lemma harmfulScan_true_iff snaps :
  scan snaps = true ↔ ∃ i snap, snaps !! i = Some snap ∧ qualifies snap.
Proof.
  unfold scan, qualifies. induction snaps as [|s rest IH]; simpl.
  - split; [done|]. by intros (i & snap & ? & _).
  - destruct (js_ge _ criticalPopShare) eqn:Hq.
    + split; [|done]. intros _. exists 0, s. split; [done|]. exact Hq.
    + rewrite IH. split.
      * intros (i & snap & Hi & Hs). by exists (S i), snap.
      * intros (i & snap & Hi & Hs). destruct i as [|i]; simplify_eq/=.
        -- congruence.
        -- by exists i, snap.
Qed.

Lemma harmfulScan_stops snaps i snap later :
  snaps !! i = Some snap → qualifies snap →
  scan (take (S i) snaps ++ later) = true.
Proof.
  unfold scan, qualifies. revert i.
  induction snaps as [|s rest IH]; intros i Hi Hq; [done|].
  destruct i as [|i]; simplify_eq/=.
  - by rewrite Hq.
  - destruct (js_ge (shareAtRisk _ _ _ _ _ s) _); [done|]. by apply IH.
Qed.

End HarmfulFlag.

Lemma run_metrics Math_pow Math_random theta dp graph cfg res :
  runCascadeSimulation Math_pow Math_random theta dp graph cfg = Some res →
  metrics res =
    computeSimulationMetrics (history res) (listRegions dp) (popByRegion cfg)
      (fearParams cfg).
Proof.
  unfold runCascadeSimulation. intros Hrun.
  destruct (iterations _); simplify_eq/=. done.
Qed.


(** ** Rational arithmetic behind the numbers *)

Lemma Qeq_bool_false (a b : Q) : ¬ (a == b)%Q → Qeq_bool a b = false.
Proof.
  intros Hne. destruct (Qeq_bool a b) eqn:He; [|done].
  by apply Qeq_bool_iff in He.
Qed.

Lemma Qle_bool_false (a b : Q) : (b < a)%Q → Qle_bool a b = false.
Proof.
  intros Hlt. destruct (Qle_bool a b) eqn:He; [|done].
  apply Qle_bool_iff in He. lra.
Qed.

Lemma Qle_bool_true (a b : Q) : (a <= b)%Q → Qle_bool a b = true.
Proof. apply Qle_bool_iff. Qed.

Lemma js_eq_nat_Z (s : nat) (z : Z) :
  js_eq (num_of_nat s) (Fin (inject_Z z)) = bool_decide (Z.of_nat s = z).
Proof.
  simpl. case_bool_decide as Hz.
  - subst z. apply Qeq_bool_iff. reflexivity.
  - apply Qeq_bool_false. intros He. apply Hz.
    exact (proj1 (inject_Z_injective _ _) He).
Qed.

(** ** The simulation loop *)

Section Loop.

Variable Math_pow : num → num → num.
Variables (regions : list string) (dp : DensityProvider).
Variables (graph : MobilityGraph) (signalStrength dt : num).
Variable (cfg : SimConfig).

Let step := stepState Math_pow regions dp graph signalStrength cfg.
Let loop := simLoop Math_pow regions dp graph signalStrength dt.

Lemma simLoop_S (T : num) (n s : nat) AF :
  loop T cfg (S n) s AF
  = if js_eq (num_of_nat s) T then [snapAt dt s AF]
    else snapAt dt s AF :: loop T cfg n (S s) (step AF).
Proof. reflexivity. Qed.

(** With [m] steps left before the last one, the loop pushes [m + 1]
    snapshots; the one pushed at counter [s + k] holds the state after [k]
    further updates. *)
Lemma simLoop_snapshots (z : Z) (m s : nat) AF :
  Z.of_nat (s + m) = z →
  loop (Fin (inject_Z z)) cfg (S m) s AF
  = (λ k, snapAt dt (s + k) (Nat.iter k step AF)) <$> seq 0 (S m).
Proof.
  revert s AF. induction m as [|m IH]; intros s AF Hz.
  - rewrite simLoop_S, js_eq_nat_Z, bool_decide_eq_true_2 by lia.
    simpl. by rewrite Nat.add_0_r.
  - rewrite simLoop_S, js_eq_nat_Z, bool_decide_eq_false_2 by lia.
    rewrite IH by lia.
    change (seq 0 (S (S m))) with (0 :: seq 1 (S m)).
    rewrite <- (fmap_S_seq 0), fmap_cons, <- list_fmap_compose.
    f_equal; [by rewrite Nat.add_0_r|].
    apply list_fmap_ext. intros _ k _. simpl.
    rewrite Nat.add_succ_r. f_equal.
    clear. induction k as [|k IHk]; [done|]. simpl. by rewrite <- IHk.
Qed.

End Loop.

Lemma js_floor_div_fin (th d : Q) :
  (0 < d)%Q →
  js_floor (js_div (Fin th) (Fin d)) = Fin (inject_Z (Qfloor (th / d))).
Proof.
  intros Hd. simpl. rewrite Qeq_bool_false by lra. simpl.
  by rewrite (Qfloor_comp _ _ (Qred_correct _)).
Qed.

Lemma Qfloor_div_nonneg (th d : Q) :
  (0 <= th)%Q → (0 < d)%Q → (0 <= Qfloor (th / d))%Z.
Proof.
  intros Hth Hd. change 0%Z with (Qfloor 0). apply Qfloor_resp_le.
  apply Qle_shift_div_l; lra.
Qed.


(** ** The response surface *)

Section UniformBind.

Context {X Y : Type} (g : X → list Y) (m : nat).
Hypothesis g_length : ∀ x, length (g x) = m.

Lemma length_bind_uniform (l : list X) : length (l ≫= g) = length l * m.
Proof.
  induction l as [|x l IH]; [done|].
  rewrite bind_cons, length_app, g_length, IH. simpl. lia.
Qed.

Lemma lookup_bind_uniform (l : list X) (i j : nat) (x : X) :
  l !! i = Some x → j < m → (l ≫= g) !! (i * m + j) = g x !! j.
Proof.
  revert i. induction l as [|y l IH]; intros i Hi Hj; [done|].
  rewrite bind_cons. destruct i as [|i]; simplify_eq/=.
  - rewrite lookup_app_l; [done|]. by rewrite g_length.
  - rewrite lookup_app_r by (rewrite g_length; lia).
    rewrite g_length. replace (m + i * m + j - m) with (i * m + j) by lia.
    by apply IH.
Qed.

End UniformBind.

Section Grid.

Variable (paramGrid : ParamGrid).

Let nss := length (signalStrengths paramGrid).
Let nf := length (spatialFocusOptions paramGrid).

Lemma inner_length (sf ss : num) :
  length (spatialFocusOptions paramGrid
            ≫= λ f : option FocusRef, [(sf, ss, f)]) = nf.
Proof. rewrite (length_bind_uniform _ 1); [subst nf; lia|done]. Qed.

Lemma middle_length (sf : num) :
  length (signalStrengths paramGrid ≫= λ ss,
            spatialFocusOptions paramGrid
              ≫= λ f : option FocusRef, [(sf, ss, f)]) = nss * nf.
Proof. by rewrite (length_bind_uniform _ nf) by apply inner_length. Qed.

Lemma gridPoints_length :
  length (gridPoints paramGrid)
  = length (seedFractions paramGrid) * nss * nf.
Proof.
  unfold gridPoints.
  rewrite (length_bind_uniform _ (nss * nf)) by apply middle_length. lia.
Qed.

Lemma gridPoints_lookup (i j l : nat) sf ss f :
  seedFractions paramGrid !! i = Some sf →
  signalStrengths paramGrid !! j = Some ss →
  spatialFocusOptions paramGrid !! l = Some f →
  gridPoints paramGrid !! ((i * nss + j) * nf + l) = Some (sf, ss, f).
Proof.
  intros Hi Hj Hl. unfold gridPoints.
  pose proof (lookup_lt_Some _ _ _ Hj) as Hjlt.
  pose proof (lookup_lt_Some _ _ _ Hl) as Hllt.
  replace ((i * nss + j) * nf + l) with (i * (nss * nf) + (j * nf + l))
    by lia.
  rewrite (lookup_bind_uniform _ (nss * nf) middle_length _ _ _ _ Hi)
    by (subst nss nf; nia).
  rewrite (lookup_bind_uniform _ nf (inner_length sf) _ _ _ _ Hj) by done.
  replace l with (l * 1 + 0) by lia.
  by rewrite (lookup_bind_uniform (λ f : option FocusRef, [(sf, ss, f)]) 1
                (λ _, eq_refl) _ _ _ _ Hl) by lia.
Qed.

End Grid.

Lemma run_returns Math_pow Math_random theta dp graph cfg :
  js_floor (js_div (timeHorizon theta) (dt theta)) ≠ PInf →
  is_Some (runCascadeSimulation Math_pow Math_random theta dp graph cfg).
Proof.
  intros HT. unfold runCascadeSimulation.
  destruct (js_floor _) eqn:HTe; [|done|..]; by eexists.
Qed.

Lemma js_or_num_of_nat_pos (n : nat) :
  0 < n → js_or (num_of_nat n) (Fin 1) = num_of_nat n.
Proof.
  intros Hn. unfold js_or, num_of_nat, truthy.
  rewrite Qeq_bool_false; [done|].
  intros He. pose proof (proj1 (inject_Z_injective (Z.of_nat n) 0) He). lia.
Qed.

Section Sweep.

Variable Math_pow : num → num → num.
Variables (σ : store) (Math_random : nat → num) (simConfig : Config).

Let base := baseSimConfig simConfig.
Let n := runsPerPoint simConfig.

Hypothesis loop_ends :
  js_floor (js_div (baseTimeHorizon base) (baseDt base)) ≠ PInf.

Lemma cellOf_returns (c : nat) (point : num * num * option FocusRef) :
  ∃ results,
    Forall2 (λ k m, runOf Math_pow σ Math_random simConfig c point k = Some m)
      (seq 0 n) results
    ∧ cellOf Math_pow σ Math_random simConfig c point
      = Some {| c_seedFraction := point.1.1;
                c_signalStrength := point.1.2;
                c_spatialFocus := point.2;
                stats := aggregateMetrics results |}.
Proof.
  unfold cellOf.
  destruct (mapM (runOf Math_pow σ Math_random simConfig c point)
              (seq 0 (runsPerPoint simConfig))) as [results|] eqn:Hm.
  - exists results. split; [by apply mapM_Some|done].
  - exfalso. apply mapM_None in Hm. apply Exists_exists in Hm.
    destruct Hm as (k & _ & Hk). unfold runOf in Hk.
    destruct (run_returns Math_pow
                (λ i, Math_random
                        ((c * runsPerPoint simConfig + k)
                         * ambientDraws simConfig + i))
                (thetaOf simConfig point σ k)
                (densityProvider simConfig) (mobilityGraph simConfig)
                (baseSimConfig simConfig) loop_ends) as [res Hres].
    by rewrite Hres in Hk.
Qed.

Lemma sweep_returns (points : list (num * num * option FocusRef)) (c : nat) :
  ∃ surface,
    sweep Math_pow σ Math_random simConfig points c = Some surface
    ∧ length surface = length points
    ∧ ∀ i point, points !! i = Some point →
        cellOf Math_pow σ Math_random simConfig (c + i) point
        = surface !! i.
Proof.
  revert c. induction points as [|p ps IH]; intros c.
  - exists []. by split_and!.
  - destruct (cellOf_returns c p) as (results & _ & Hcell).
    destruct (IH (S c)) as (surface & Hs & Hlen & Hlook).
    eexists. simpl. rewrite Hcell, Hs. simpl. split_and!; [done|simpl; by f_equal|].
    intros [|i] point Hi; simplify_eq/=.
    + by rewrite Nat.add_0_r.
    + rewrite <- (Hlook i point Hi). f_equal. lia.
Qed.

End Sweep.

(** C3 (amended).  When the step count [floor(timeHorizon / dt)] of the
    base configuration is not [+Infinity] (so that every run returns),
    [buildResponseSurface] returns exactly
    [|seedFractions| * |signalStrengths| * |spatialFocusOptions|] cells in
    the order of the nested loops (seed fraction outermost, then signal
    strength, then spatial focus).  Each cell keeps the metrics of exactly
    [runsPerPoint] runs, the [k]-th of them made with [randomSeed = k], and
    its [probabilityHarmful] is the number of harmful runs divided by
    [runsPerPoint] when [runsPerPoint >= 1], and [0] when [runsPerPoint = 0]
    (the divisor is [length || 1]). *)
Theorem C3_surface_is_grid_ordered_and_aggregates_runs
    Math_pow σ Math_random paramGrid simConfig :
  let base := baseSimConfig simConfig in
  let n := runsPerPoint simConfig in
  let nss := length (signalStrengths paramGrid) in
  let nf := length (spatialFocusOptions paramGrid) in
  js_floor (js_div (baseTimeHorizon base) (baseDt base)) ≠ PInf →
  ∃ surface,
    buildResponseSurface Math_pow σ Math_random paramGrid simConfig
    = Some surface
    ∧ length surface = length (seedFractions paramGrid) * nss * nf
    ∧ ∀ i j l sf ss f,
        seedFractions paramGrid !! i = Some sf →
        signalStrengths paramGrid !! j = Some ss →
        spatialFocusOptions paramGrid !! l = Some f →
        let c := (i * nss + j) * nf + l in
        ∃ cell,
          surface !! c = Some cell
          ∧ c_seedFraction cell = sf
          ∧ c_signalStrength cell = ss
          ∧ c_spatialFocus cell = f
          ∧ length (raw (stats cell)) = n
          ∧ (∀ k, k < n →
               ∃ res,
                 runCascadeSimulation Math_pow
                   (λ d, Math_random
                           ((c * n + k) * ambientDraws simConfig + d))
                   {| seedFraction := sf;
                      spatialFocus := resolve σ <$> f;
                      signalStrength := ss;
                      timeHorizon := baseTimeHorizon base;
                      dt := baseDt base;
                      randomSeed := Some (num_of_nat k) |}
                   (densityProvider simConfig) (mobilityGraph simConfig) base
                 = Some res
                 ∧ raw (stats cell) !! k = Some (metrics res))
          ∧ (0 < n →
             probabilityHarmful (stats cell)
             = js_div
                 (num_of_nat
                    (length (filter (λ m, harmfulCascadeOccurred m = true)
                                    (raw (stats cell)))))
                 (num_of_nat n))
          ∧ (n = 0 → probabilityHarmful (stats cell) = Fin 0).
Proof.
  intros base n nss nf Hends.
  destruct (sweep_returns Math_pow σ Math_random simConfig Hends
              (gridPoints paramGrid) 0) as (surface & Hs & Hlen & Hlook).
  exists surface. split; [done|]. split.
  { by rewrite Hlen, gridPoints_length. }
  intros i j l sf ss f Hi Hj Hl c.
  pose proof (gridPoints_lookup paramGrid i j l sf ss f Hi Hj Hl) as Hp.
  specialize (Hlook _ _ Hp). rewrite Nat.add_0_l in Hlook.
  destruct (cellOf_returns Math_pow σ Math_random simConfig Hends c
              (sf, ss, f)) as (results & Hruns & Hcell).
  change (cellOf Math_pow σ Math_random simConfig c (sf, ss, f)
          = surface !! c) in Hlook.
  rewrite Hcell in Hlook. eexists. split; [done|].
  cbn [c_seedFraction c_signalStrength c_spatialFocus stats fst snd
       aggregateMetrics raw probabilityHarmful].
  pose proof (Forall2_length _ _ _ Hruns) as Hrl. rewrite length_seq in Hrl.
  split_and!; try done.
  - intros k Hk.
    destruct (Forall2_lookup_l _ _ _ k k Hruns) as (m & Hm & Hrun).
    { by apply lookup_seq_lt. }
    unfold runOf, thetaOf in Hrun. simpl in Hrun.
    destruct (runCascadeSimulation _ _ _ _ _ _) as [res|] eqn:Hres;
      simplify_eq/=.
    exists res. by split.
  - intros Hn. by rewrite <- Hrl, js_or_num_of_nat_pos by lia.
  - intros Hn. fold n in Hrl. rewrite Hn in Hrl.
    destruct results; [|done]. reflexivity.
Qed.

(** ** Determinism *)

(** C5 (amended).  When [simConfig] supplies an [rngFactory], two
    invocations with the same [theta], provider, mobility graph and
    [simConfig] return the same result (histories and metrics), whatever
    the ambient [Math.random] yields in each. *)
Theorem C5_deterministic_with_rng_factory
    Math_pow Math_random1 Math_random2 theta dp graph cfg factory :
  rngFactory cfg = Some factory →
  runCascadeSimulation Math_pow Math_random1 theta dp graph cfg
  = runCascadeSimulation Math_pow Math_random2 theta dp graph cfg.
Proof.
  intros Hf. unfold runCascadeSimulation, initialState, rngOf.
  by rewrite Hf.
Qed.

Lemma C5_witness :
  runCascadeSimulation scenario.pow_nat (scenario.constant_rng (Fin 0.1))
    (scenario.theta 2) scenario.provider scenario.graph scenario.seeded
  = runCascadeSimulation scenario.pow_nat (scenario.constant_rng (Fin 0.7))
      (scenario.theta 2) scenario.provider scenario.graph scenario.seeded.
Proof.
  exact (C5_deterministic_with_rng_factory scenario.pow_nat
           (scenario.constant_rng (Fin 0.1)) (scenario.constant_rng (Fin 0.7))
           (scenario.theta 2) scenario.provider scenario.graph
           scenario.seeded _ eq_refl).
Defined.

(** Without an [rngFactory] the run draws from [Math.random]: the same
    inputs seed region ["A"] with [0.045] in an invocation whose draw is
    [0.9] and with [0] in one whose draw is [0.1]. *)
Lemma C5_counterexample_no_rng_factory :
  let run u :=
    runCascadeSimulation scenario.pow_nat (scenario.constant_rng u)
      (scenario.theta 0) scenario.provider scenario.graph scenario.unseeded in
  (run (Fin 0.9) ≫= λ res, adoptionAt res 0 "A") = Some (Fin (9 # 200))
  ∧ (run (Fin 0.1) ≫= λ res, adoptionAt res 0 "A") = Some (Fin 0)
  ∧ run (Fin 0.9) ≠ run (Fin 0.1).
Proof.
  assert (H9 : (runCascadeSimulation scenario.pow_nat
                  (scenario.constant_rng (Fin 0.9)) (scenario.theta 0)
                  scenario.provider scenario.graph scenario.unseeded
                ≫= λ res, adoptionAt res 0 "A") = Some (Fin (9 # 200)))
    by (vm_compute; reflexivity).
  assert (H1 : (runCascadeSimulation scenario.pow_nat
                  (scenario.constant_rng (Fin 0.1)) (scenario.theta 0)
                  scenario.provider scenario.graph scenario.unseeded
                ≫= λ res, adoptionAt res 0 "A") = Some (Fin 0))
    by (vm_compute; reflexivity).
  split_and!; [done..|]. intros Heq. rewrite Heq, H1 in H9. discriminate.
Qed.



Lemma C3_witness :
  ∃ surface,
    buildResponseSurface scenario.pow_nat ∅ (scenario.constant_rng (Fin 0.5))
      scenario.grid (scenario.sweepConfig 3)
    = Some surface
    ∧ length surface = 2.
Proof.
  destruct (C3_surface_is_grid_ordered_and_aggregates_runs scenario.pow_nat ∅
              (scenario.constant_rng (Fin 0.5)) scenario.grid
              (scenario.sweepConfig 3) ltac:(discriminate))
    as (surface & Hs & Hlen & _).
  exists surface. split; [exact Hs|exact Hlen].
Defined.

(** With [runsPerPoint = 0] a cell aggregates no run and its
    [probabilityHarmful] is [0 / 1 = 0], whereas the number of harmful runs
    divided by [runsPerPoint] is [0 / 0], which is [NaN].  And with
    [dt = 0] in the base configuration the step count is [+Infinity]: the
    first run never leaves its loop and no surface is returned. *)
Lemma C3_counterexample_zero_runs :
  (∃ cell rest,
     buildResponseSurface scenario.pow_nat ∅ (scenario.constant_rng (Fin 0.5))
       scenario.grid (scenario.sweepConfig 0)
     = Some (cell :: rest)
     ∧ raw (stats cell) = []
     ∧ probabilityHarmful (stats cell) = Fin 0
     ∧ js_div
         (num_of_nat
            (length (filter (λ m, harmfulCascadeOccurred m = true)
                            (raw (stats cell)))))
         (num_of_nat (runsPerPoint (scenario.sweepConfig 0)))
       = NaN)
  ∧ js_floor (js_div (baseTimeHorizon scenario.stalled)
                     (baseDt scenario.stalled)) = PInf
  ∧ buildResponseSurface scenario.pow_nat ∅ (scenario.constant_rng (Fin 0.5))
      scenario.grid scenario.stalledSweep
    = None.
Proof.
  split_and!; [|reflexivity..].
  do 2 eexists. split; [vm_compute; reflexivity|]. by split_and!.
Qed.

(** ** Grouping by the canonical key, and the in-place sort *)

Lemma js_sort_Permutation (l1 l2 : list string) :
  l1 ≡ₚ l2 → js_sort l1 = js_sort l2.
Proof.
  intros Hp. unfold js_sort.
  apply (Sorted_unique String.le); try apply Sorted_merge_sort; try apply _.
  by rewrite !merge_sort_Permutation.
Qed.

Lemma js_sort_idemp (l : list string) : js_sort (js_sort l) = js_sort l.
Proof. apply js_sort_Permutation. apply merge_sort_Permutation. Qed.

Lemma spatialFocusKey_store (σ : store) sf :
  (spatialFocusKey σ sf).1
  = match focusLoc sf with
    | Some l => alter js_sort l σ
    | None => σ
    end.
Proof.
  destruct sf as [f|]; [|done]. simpl.
  case_bool_decide; [by destruct (f_centerIds f)|].
  by case_bool_decide.
Qed.

Lemma canonicalKey_alter (σ : store) (l : loc) sf :
  canonicalKey (alter js_sort l σ) sf = canonicalKey σ sf.
Proof.
  unfold canonicalKey. destruct sf as [f|]; [|done]. simpl.
  case_bool_decide; [|by case_bool_decide].
  destruct (f_centerIds f) as [l'|]; [|done]. simpl. do 2 f_equal.
  rewrite lookup_alter. case_decide; [|done]. subst l'.
  destruct (σ !! l); simpl; [apply js_sort_idemp|done].
Qed.

(** Sorting an array does not change the key of any focus: the key a cell
    gets during the loop is the key it has in the initial store. *)
Lemma canonicalKey_step (σ : store) sf0 sf :
  canonicalKey (spatialFocusKey σ sf0).1 sf = canonicalKey σ sf.
Proof.
  rewrite spatialFocusKey_store.
  destruct (focusLoc sf0); [apply canonicalKey_alter|done].
Qed.

Lemma groupLoop_groups_gen (σ0 σ : store) (cells : list Cell) g :
  (∀ sf, canonicalKey σ sf = canonicalKey σ0 sf) →
  (groupLoop σ cells g).2
  = fold_left (λ g c, pushCell (canonicalKey σ0 (c_spatialFocus c)) c g)
      cells g.
Proof.
  revert σ g. induction cells as [|c cells IH]; intros σ g Hkey; [done|].
  simpl. destruct (spatialFocusKey σ (c_spatialFocus c)) as [σ' key] eqn:Hk.
  rewrite (IH σ').
  - f_equal. rewrite <- Hkey. unfold canonicalKey. by rewrite Hk.
  - intros sf. rewrite <- Hkey.
    replace σ' with (spatialFocusKey σ (c_spatialFocus c)).1
      by (by rewrite Hk).
    apply canonicalKey_step.
Qed.

Lemma groupLoop_store (σ : store) (cells : list Cell) g (l : loc) :
  (groupLoop σ cells g).1 !! l
  = if decide (Some l ∈ kernelLoc <$> cells)
    then js_sort <$> σ !! l else σ !! l.
Proof.
  revert σ g. induction cells as [|c cells IH]; intros σ g.
  { by simpl. }
  simpl. destruct (spatialFocusKey σ (c_spatialFocus c)) as [σ' key] eqn:Hk.
  rewrite IH.
  assert (Hσ' : σ' = match kernelLoc c with
                     | Some l0 => alter js_sort l0 σ
                     | None => σ
                     end).
  { unfold kernelLoc. rewrite <- spatialFocusKey_store. by rewrite Hk. }
  assert (Hidem : ∀ o : option (list string),
            js_sort <$> (js_sort <$> o) = js_sort <$> o).
  { intros [x|]; simpl; [by rewrite js_sort_idemp|done]. }
  rewrite Hσ'. clear Hσ' Hk.
  destruct (kernelLoc c) as [l0|] eqn:Hl0.
  - rewrite lookup_alter.
    destruct (decide (l0 = l)) as [->|Hne].
    + rewrite (decide_True (P := Some l ∈ Some l :: _)) by left.
      case_decide; [apply Hidem|done].
    + case_decide as Hin.
      * by rewrite decide_True by (by right).
      * rewrite decide_False; [done|].
        intros [?|?]%elem_of_cons; [congruence|done].
  - case_decide as Hin.
    + by rewrite decide_True by (by right).
    + rewrite decide_False; [done|]. by intros [?|?]%elem_of_cons.
Qed.

Lemma obj_get_pushCell (k : string) (c : Cell) g (k' : string) :
  obj_get (pushCell k c g) k'
  = if decide (k = k') then Some (default [] (obj_get g k) ++ [c])
    else obj_get g k'.
Proof.
  induction g as [|[k0 cs] g IH]; simpl.
  - destruct (String.eqb_spec k k'); by case_decide.
  - destruct (String.eqb_spec k0 k) as [->|Hk0]; simpl.
    + destruct (String.eqb_spec k k'); by case_decide.
    + rewrite IH. destruct (String.eqb_spec k0 k') as [->|Hk0']; [|done].
      by rewrite decide_False by done.
Qed.

Lemma pushCell_keys (k : string) (c : Cell) g :
  (pushCell k c g).*1 = if decide (k ∈ g.*1) then g.*1 else g.*1 ++ [k].
Proof.
  induction g as [|[k0 cs] g IH]; [done|].
  cbn [pushCell].
  destruct (String.eqb_spec k0 k) as [->|Hk0]; rewrite !fmap_cons; cbn [fst].
  - by rewrite decide_True by left.
  - rewrite IH. destruct (decide (k ∈ g.*1)) as [Hin|Hin].
    + by rewrite decide_True by (by right).
    + rewrite decide_False; [done|].
      intros [?|?]%elem_of_cons; [congruence|done].
Qed.

Lemma pushCell_NoDup (k : string) (c : Cell) g :
  NoDup g.*1 → NoDup (pushCell k c g).*1.
Proof.
  intros Hnd. rewrite pushCell_keys. case_decide as Hin; [done|].
  apply NoDup_app. split_and!; [done| |apply NoDup_singleton].
  intros x Hx ->%list_elem_of_singleton. done.
Qed.

Lemma obj_get_is_Some {V} (g : list (string * V)) (k : string) :
  k ∈ g.*1 ↔ is_Some (obj_get g k).
Proof.
  induction g as [|[k0 v] g IH]; simpl.
  - split; [by intros ?%elem_of_nil|by intros [? ?]].
  - destruct (String.eqb_spec k0 k) as [->|Hne].
    + split; [by eexists|left].
    + rewrite <- IH. split; [|by right].
      intros [?|?]%elem_of_cons; [congruence|done].
Qed.

Section Groups.

Variable key : Cell → string.

Lemma groups_fold (cells : list Cell) g0 :
  NoDup g0.*1 →
  let groups := fold_left (λ g c, pushCell (key c) c g) cells g0 in
  NoDup groups.*1
  ∧ ∀ k, obj_get groups k
         = pushedUnder (obj_get g0 k) (filter (λ c, key c = k) cells).
Proof.
  revert g0. induction cells as [|c cells IH]; intros g0 Hnd; simpl.
  - split; [done|]. intros k. rewrite filter_nil.
    destruct (obj_get g0 k); simpl; [by rewrite app_nil_r|done].
  - destruct (IH _ (pushCell_NoDup (key c) c g0 Hnd)) as [Hnd' Hget].
    split; [done|]. intros k. rewrite Hget, obj_get_pushCell.
    rewrite filter_cons. destruct (decide (key c = k)) as [->|Hne].
    + destruct (obj_get g0 k); simpl; [by rewrite <- app_assoc|done].
    + done.
Qed.

End Groups.

Section Thresholds.

Variables (σ : store) (surface : list Cell) (rc : RiskConstraints).

Let safeCells := filter (λ cell, isSafe rc cell = true) surface.
Let keyOf (c : Cell) := canonicalKey σ (c_spatialFocus c).

Lemma groupsOf_spec :
  NoDup (groupsOf σ surface rc).*1
  ∧ ∀ k, obj_get (groupsOf σ surface rc) k
         = match filter (λ c, keyOf c = k) safeCells with
           | [] => None
           | cs => Some cs
           end.
Proof.
  unfold groupsOf. rewrite (groupLoop_groups_gen σ) by done.
  destruct (groups_fold keyOf safeCells [] (NoDup_nil_2)) as [Hnd Hget].
  split; [done|]. intros k. rewrite Hget. simpl.
  by destruct (filter _ safeCells).
Qed.

Lemma thresholds_keys :
  thresholds (deriveRegulatoryThresholds σ surface rc).2
  = if decide (safeCells = []) then None
    else Some (thresholdOf rc <$> groupsOf σ surface rc).
Proof.
  unfold deriveRegulatoryThresholds, groupsOf. fold safeCells.
  case_bool_decide as Hlen.
  - apply length_zero_iff_nil in Hlen. by rewrite decide_True.
  - rewrite decide_False by (by intros ->).
    by destruct (groupLoop σ safeCells []).
Qed.

Lemma kernel_key (c : Cell) (l : loc) (ids : list string) :
  kernelLoc c = Some l → σ !! l = Some ids →
  keyOf c = "kernel:" +:+ js_join (js_sort ids).
Proof.
  unfold kernelLoc, focusLoc, keyOf, canonicalKey. intros Hl Hids.
  destruct (c_spatialFocus c) as [f|]; [|done]. simpl in *.
  case_bool_decide; [|done]. rewrite Hl. simpl. by rewrite Hids.
Qed.



End Thresholds.




(** ** Explicit spatial-focus weights *)

Lemma fold_insert_lookup (f : string → num) (regions : list string)
    (m : gmap string num) (r : string) :
  fold_left (λ w r, <[r := f r]> w) regions m !! r
  = if decide (r ∈ regions) then Some (f r) else m !! r.
Proof.
  revert m. induction regions as [|r0 rs IH]; intros m; [done|].
  cbn [fold_left]. rewrite IH.
  destruct (decide (r ∈ rs)) as [Hin|Hin].
  - by rewrite decide_True by (by right).
  - destruct (decide (r0 = r)) as [->|Hne].
    + rewrite decide_True by left. apply lookup_insert_eq.
    + rewrite decide_False by (intros [?|?]%elem_of_cons; congruence).
      by rewrite lookup_insert_ne.
Qed.

Lemma Qsum_cons (x : Q) (l : list Q) : Qsum (x :: l) = (x + Qsum l)%Q.
Proof. reflexivity. Qed.

(** A sum of finite numbers is the finite number of their rational sum, in
    lowest terms as soon as one addition was made. *)
Lemma fold_js_add_fin {X} (f : X → num) (g : X → Q) (l : list X) (a : Q) :
  (∀ x, x ∈ l → ∃ q, f x = Fin q ∧ (q == g x)%Q) →
  ∃ q, fold_left (λ s x, js_add s (f x)) l (Fin a) = Fin q
       ∧ (q == a + Qsum (g <$> l))%Q
       ∧ (l ≠ [] → Qred q = q).
Proof.
  revert a. induction l as [|x l IH]; intros a Hfin.
  - exists a. split_and!; [done|simpl; lra|done].
  - destruct (Hfin x) as (qx & Hx & Hqx); [left|].
    destruct (IH (Qred (a + qx))) as (q & Hq & Hsum & Hred).
    { intros y Hy. apply Hfin. by right. }
    exists q. cbn [fold_left]. rewrite Hx. cbn [js_add]. split_and!.
    + done.
    + rewrite Hsum, Qred_correct, fmap_cons, Qsum_cons, Hqx. lra.
    + intros _. destruct l as [|y l]; [|by apply Hred].
      simpl in Hq. injection Hq as <-.
      apply Qred_complete, Qred_correct.
Qed.

(** Over duplicate-free regions, the terms [g r], with [v] added at the
    region [k], sum to [v] plus the sum of the [g r]. *)
Lemma Qsum_add_at (k : string) (v : Q) (g : string → Q) (rs : list string) :
  NoDup rs → k ∈ rs →
  (Qsum ((λ r, if decide (r = k) then v + g r else g r) <$> rs)
   == v + Qsum (g <$> rs))%Q.
Proof.
  induction rs as [|r rs IH]; intros Hnd Hin; [by apply elem_of_nil in Hin|].
  apply NoDup_cons in Hnd as [Hr Hnd]. rewrite !fmap_cons, !Qsum_cons.
  destruct (decide (r = k)) as [->|Hne].
  - assert (Hsame : (λ r, if decide (r = k) then (v + g r)%Q else g r) <$> rs
                    = g <$> rs).
    { apply list_fmap_ext. intros _ r' Hr'%list_elem_of_lookup_2.
      by rewrite decide_False by (intros ->; done). }
    rewrite Hsame. lra.
  - apply elem_of_cons in Hin as [->|Hin]; [done|].
    rewrite IH by done. lra.
Qed.

Lemma Qsum_ext {X} (f g : X → Q) (l : list X) :
  (∀ x, x ∈ l → (f x == g x)%Q) → (Qsum (f <$> l) == Qsum (g <$> l))%Q.
Proof.
  induction l as [|x l IH]; intros Hfg; [reflexivity|].
  rewrite !fmap_cons, !Qsum_cons.
  assert (Hx : (f x == g x)%Q) by (apply Hfg; left).
  assert (Hl : (Qsum (f <$> l) == Qsum (g <$> l))%Q).
  { apply IH. intros y Hy. apply Hfg. by right. }
  rewrite Hx, Hl. reflexivity.
Qed.

Lemma qval_js_or_zero (x : num) : (qval (js_or x (Fin 0)) == qval x)%Q.
Proof.
  destruct x as [q| | |]; try reflexivity. unfold js_or, truthy.
  destruct (Qeq_bool q 0) eqn:Hq; simpl; [|reflexivity].
  apply Qeq_bool_iff in Hq. by rewrite Hq.
Qed.

Lemma rawAt_absent (raw : list (string * num)) (r : string) :
  r ∉ obj_keys raw → rawAt raw r = 0%Q.
Proof.
  intros Hr. unfold rawAt.
  destruct (obj_get raw r) eqn:Hget; [|done].
  exfalso. apply Hr. apply obj_get_is_Some. by eexists.
Qed.

Lemma rawAt_sum (raw : list (string * num)) (regions : list string) :
  NoDup regions → NoDup (obj_keys raw) →
  (∀ k v, (k, v) ∈ raw → k ∈ regions) →
  (Qsum (rawAt raw <$> regions) == Qsum ((λ kv, qval kv.2) <$> raw))%Q.
Proof.
  intros Hnd. induction raw as [|[k v] raw IH]; intros Hkeys Hin.
  - simpl. clear. induction regions as [|r rs IH]; [reflexivity|].
    rewrite fmap_cons, Qsum_cons, IH. reflexivity.
  - apply NoDup_cons in Hkeys as [Hk Hkeys].
    rewrite fmap_cons, Qsum_cons. cbn [snd].
    rewrite <- IH by (try done; intros k' v' Hkv; apply (Hin k' v'); by right).
    rewrite <- (Qsum_add_at k (qval v) (rawAt raw) regions Hnd)
      by (apply (Hin k v); left).
    apply Qsum_ext. intros r _. unfold rawAt at 1. cbn [obj_get].
    destruct (String.eqb_spec k r) as [->|Hne].
    + rewrite decide_True by done. cbn [js_or_undef].
      rewrite qval_js_or_zero, (rawAt_absent raw r) by done. lra.
    + by rewrite decide_False by done.
Qed.

Lemma rawTotal_fin (raw : list (string * num)) :
  (∀ k v, (k, v) ∈ raw → finite v) →
  ∃ q, rawTotal raw = Fin q ∧ (q == Qsum ((λ kv, qval kv.2) <$> raw))%Q.
Proof.
  intros Hfin. unfold rawTotal, obj_values.
  destruct (fold_js_add_fin (λ v : num, v) qval (map snd raw) 0)
    as (q & Hq & Hsum & _).
  { intros v [[k v'] [-> Hkv]]%list_elem_of_fmap.
    destruct (Hfin k v' Hkv) as [qv ->]. by exists qv. }
  exists q. split; [done|]. rewrite Hsum.
  change (map snd raw) with (snd <$> raw). rewrite <- list_fmap_compose.
  unfold compose. lra.
Qed.

Lemma obj_get_elem {V} (o : list (string * V)) (k : string) (v : V) :
  obj_get o k = Some v → (k, v) ∈ o.
Proof.
  induction o as [|[k0 v0] o IH]; [done|]. simpl.
  destruct (String.eqb_spec k0 k) as [->|Hne].
  - intros [= ->]. left.
  - intros Hget. right. by apply IH.
Qed.

Lemma Qsum_scale (c : Q) (f : string → Q) (l : list string) :
  (Qsum ((λ r, f r / c) <$> l) == Qsum (f <$> l) / c)%Q.
Proof.
  induction l as [|r l IH].
  - simpl. unfold Qdiv. lra.
  - rewrite !fmap_cons, !Qsum_cons, IH. unfold Qdiv. lra.
Qed.

Lemma js_div_zero_by_or (x : num) :
  js_div (Fin 0) (js_or x (Fin 1)) = Fin 0.
Proof.
  destruct x as [q| | |]; try reflexivity. unfold js_or, truthy.
  destruct (Qeq_bool q 0) eqn:Hq; [reflexivity|]. simpl. rewrite Hq.
  reflexivity.
Qed.




(** ** Finite numbers are closed under the arithmetic of a run *)

Create HintDb jsnum.

Lemma nonneg_finite (x : num) : nonneg x → finite x.
Proof. intros (q & -> & _). by exists q. Qed.

Lemma in01_nonneg (x : num) : in01 x → nonneg x.
Proof. intros (q & -> & ? & _). by exists q. Qed.

Lemma in01_finite (x : num) : in01 x → finite x.
Proof. intros H. by apply nonneg_finite, in01_nonneg. Qed.

Lemma finite_Fin (q : Q) : finite (Fin q).
Proof. by exists q. Qed.

Lemma nonneg_Fin (q : Q) : (0 <= q)%Q → nonneg (Fin q).
Proof. by exists q. Qed.

Lemma finite_add (x y : num) : finite x → finite y → finite (js_add x y).
Proof. intros [a ->] [b ->]. by eexists. Qed.

Lemma finite_sub (x y : num) : finite x → finite y → finite (js_sub x y).
Proof. intros [a ->] [b ->]. by eexists. Qed.

Lemma finite_mul (x y : num) : finite x → finite y → finite (js_mul x y).
Proof. intros [a ->] [b ->]. by eexists. Qed.

Lemma finite_min (x y : num) : finite x → finite y → finite (js_min x y).
Proof.
  intros [a ->] [b ->]. unfold js_min. destruct (js_le _ _); by eexists.
Qed.

Lemma finite_max (x y : num) : finite x → finite y → finite (js_max x y).
Proof.
  intros [a ->] [b ->]. unfold js_max. destruct (js_le _ _); by eexists.
Qed.

Lemma finite_or (x d : num) : finite x → finite d → finite (js_or x d).
Proof. intros Hx Hd. unfold js_or. by destruct (truthy x). Qed.

Lemma js_div_Fin (a b : Q) :
  ¬ (b == 0)%Q → js_div (Fin a) (Fin b) = Fin (Qred (a / b)).
Proof. intros Hb. simpl. by rewrite Qeq_bool_false. Qed.

Lemma nonneg_add (x y : num) : nonneg x → nonneg y → nonneg (js_add x y).
Proof.
  intros (a & -> & Ha) (b & -> & Hb). eexists. split; [done|].
  rewrite Qred_correct. lra.
Qed.

Lemma nonneg_mul (x y : num) : nonneg x → nonneg y → nonneg (js_mul x y).
Proof.
  intros (a & -> & Ha) (b & -> & Hb). eexists. split; [done|].
  rewrite Qred_correct. by apply Qmult_le_0_compat.
Qed.

Lemma nonneg_min (x y : num) : nonneg x → nonneg y → nonneg (js_min x y).
Proof.
  intros (a & -> & Ha) (b & -> & Hb). unfold js_min.
  destruct (js_le _ _); by eexists.
Qed.

Lemma nonneg_or (x d : num) : nonneg x → nonneg d → nonneg (js_or x d).
Proof. intros Hx Hd. unfold js_or. by destruct (truthy x). Qed.

Lemma nonneg_max_zero (x : num) : finite x → nonneg (js_max (Fin 0) x).
Proof.
  intros [a ->]. unfold js_max. cbn [js_le].
  destruct (Qle_bool 0 a) eqn:Hle; eexists; (split; [done|]).
  - by apply Qle_bool_iff.
  - lra.
Qed.

(** [1 / (1 + d)] for [d >= 0]. *)
Lemma nonneg_recip (d : num) :
  nonneg d → nonneg (js_div (Fin 1) (js_add (Fin 1) d)).
Proof.
  intros (q & -> & Hq). cbn [js_add].
  assert (Hpos : (0 < Qred (1 + q))%Q) by (rewrite Qred_correct; lra).
  rewrite js_div_Fin by lra. eexists. split; [done|].
  rewrite Qred_correct. apply Qlt_le_weak, Qlt_shift_div_l; lra.
Qed.

Lemma nonneg_one_minus (a : num) : in01 a → nonneg (js_sub (Fin 1) a).
Proof.
  intros (q & -> & _ & Hq). eexists. split; [done|].
  rewrite Qred_correct. lra.
Qed.

Lemma clamp01_in01 (x : num) : finite x → in01 (clamp01 x).
Proof.
  intros [a ->]. unfold clamp01, js_min, js_max. cbn [js_le].
  destruct (Qle_bool 1 a) eqn:H1; cbn [js_le].
  - exists 1%Q. split; [done|lra].
  - destruct (Qle_bool 0 a) eqn:H0.
    + exists a. split; [done|]. apply Qle_bool_iff in H0.
      split; [done|]. destruct (Qlt_le_dec a 1) as [?|Hle]; [lra|].
      apply Qle_bool_iff in Hle. congruence.
    + exists 0%Q. split; [done|lra].
Qed.

(** Adding a non-negative increment and clamping does not go below the
    value one started from, as long as that value is in [[0, 1]]. *)
Lemma clamp01_add_ge (a d : num) :
  in01 a → nonneg d → js_le a (clamp01 (js_add a d)) = true.
Proof.
  intros (qa & -> & Ha0 & Ha1) (qd & -> & Hd). cbn [js_add].
  assert (Hs : (qa <= Qred (qa + qd))%Q) by (rewrite Qred_correct; lra).
  unfold clamp01, js_min, js_max. cbn [js_le].
  destruct (Qle_bool 1 _) eqn:H1; cbn [js_le].
  - change (Qle_bool 0 1) with true. cbn [js_le]. by apply Qle_bool_iff.
  - destruct (Qle_bool 0 _) eqn:H0; cbn [js_le]; apply Qle_bool_iff; [done|].
    assert (Hnn : (0 <= Qred (qa + qd))%Q) by lra.
    apply Qle_bool_iff in Hnn. congruence.
Qed.

Lemma js_or_undef_cases (o : option num) (d : num) :
  js_or_undef o d = d ∨ o = Some (js_or_undef o d).
Proof.
  destruct o as [x|]; [|by left]. simpl. unfold js_or.
  destruct (truthy x); [by right|by left].
Qed.

Lemma js_or_undef_pred (P : num → Prop) (o : option num) (d : num) :
  (∀ x, o = Some x → P x) → P d → P (js_or_undef o d).
Proof.
  intros Ho Hd. destruct (js_or_undef_cases o d) as [->|Hs]; [done|].
  by apply Ho.
Qed.

Lemma param_pred {R} (P : num → Prop) (p : option R) (f : R → option num)
    (d : num) :
  (∀ r x, p = Some r → f r = Some x → P x) → P d → P (param p f d).
Proof.
  intros Hp Hd. unfold param. destruct p as [r|]; [|done]. simpl.
  destruct (f r) as [x|] eqn:Hf; [|done]. by eapply Hp.
Qed.

#[export] Hint Resolve nonneg_finite in01_nonneg in01_finite finite_Fin
  finite_add finite_sub finite_mul finite_min finite_max finite_or
  nonneg_add nonneg_mul nonneg_min nonneg_or nonneg_max_zero nonneg_recip
  nonneg_one_minus clamp01_in01 : jsnum.

(** ** One step of the simulation, region by region *)

Lemma updateLoop_lookup (rs : list string) (A F exposure : gmap string num)
    (cfg : SimConfig) (newA newF : gmap string num) (r : string) :
  let new := updateLoop rs A F exposure cfg newA newF in
  new.1 !! r = (if decide (r ∈ rs) then Some (updatedA cfg A F exposure r)
                else newA !! r)
  ∧ new.2 !! r = (if decide (r ∈ rs) then Some (updatedF cfg A F exposure r)
                  else newF !! r).
Proof.
  revert newA newF. induction rs as [|r0 rs IH]; intros newA newF; [done|].
  cbn [updateLoop]. cbv zeta. destruct (IH
    (<[r0 := clamp01 (js_add (js_num (A !! r0))
                        (adoptionIncrement (js_num (A !! r0))
                           (js_num (F !! r0))
                           (js_or_undef (exposure !! r0) (Fin 0))
                           (adoptionParams cfg)))]> newA)
    (<[r0 := js_max (Fin 0)
               (js_add (js_num (F !! r0))
                  (fearIncrement (js_num (F !! r0))
                     (js_or_undef (exposure !! r0) (Fin 0))
                     (adoptionIncrement (js_num (A !! r0))
                        (js_num (F !! r0))
                        (js_or_undef (exposure !! r0) (Fin 0))
                        (adoptionParams cfg))
                     (computeHarmSignal r0 A F exposure cfg)
                     (fearParams cfg)))]> newF)) as [HA HF].
  rewrite HA, HF. clear HA HF IH.
  destruct (decide (r ∈ rs)) as [Hin|Hin].
  - assert (Hin' : r ∈ r0 :: rs) by (by right).
    by rewrite !decide_True by done.
  - destruct (decide (r0 = r)) as [->|Hne].
    + assert (Hin' : r ∈ r :: rs) by left.
      by rewrite !decide_True, !lookup_insert_eq by done.
    + assert (Hin' : r ∉ r0 :: rs)
        by (intros [?|?]%elem_of_cons; congruence).
      by rewrite !decide_False, !lookup_insert_ne by done.
Qed.

Lemma commit_lookup (rs : list string) (newA newF A F : gmap string num)
    (r : string) :
  let AF := commit rs newA newF A F in
  AF.1 !! r = (if decide (r ∈ rs) then newA !! r else A !! r)
  ∧ AF.2 !! r = (if decide (r ∈ rs) then newF !! r else F !! r).
Proof.
  assert (Hassign : ∀ (m : gmap string num) r0 v,
            assign m r0 v !! r = if decide (r0 = r) then v else m !! r).
  { intros m r0 [x|]; simpl.
    - apply lookup_insert.
    - rewrite lookup_delete. by case_decide. }
  revert A F. induction rs as [|r0 rs IH]; intros A F; [done|].
  cbn [commit]. destruct (IH (assign A r0 (newA !! r0))
                             (assign F r0 (newF !! r0))) as [HA HF].
  rewrite HA, HF, !Hassign. clear HA HF IH.
  destruct (decide (r ∈ rs)) as [Hin|Hin].
  - assert (Hin' : r ∈ r0 :: rs) by (by right).
    by rewrite !decide_True by done.
  - destruct (decide (r0 = r)) as [->|Hne].
    + assert (Hin' : r ∈ r :: rs) by left.
      by rewrite !decide_True by done.
    + assert (Hin' : r ∉ r0 :: rs)
        by (intros [?|?]%elem_of_cons; congruence).
      by rewrite !decide_False by done.
Qed.

Lemma computeExposure_lookup Math_pow (regions : list string)
    (A : gmap string num) dp graph signal ap (r : string) :
  computeExposure Math_pow regions A dp graph signal ap !! r
  = if decide (r ∈ regions)
    then Some (exposureOf Math_pow A dp graph signal ap r) else None.
Proof. unfold computeExposure. by rewrite fold_insert_lookup. Qed.

(** After one pass of the loop body, a listed region holds the values the
    update computed from the old state, and every other key is untouched. *)
Lemma stepState_lookup Math_pow (regions : list string) dp graph signal cfg
    (AF : gmap string num * gmap string num) (r : string) :
  let exposure :=
    computeExposure Math_pow regions AF.1 dp graph signal
      (adoptionParams cfg) in
  let AF' := stepState Math_pow regions dp graph signal cfg AF in
  AF'.1 !! r = (if decide (r ∈ regions)
                then Some (updatedA cfg AF.1 AF.2 exposure r)
                else AF.1 !! r)
  ∧ AF'.2 !! r = (if decide (r ∈ regions)
                  then Some (updatedF cfg AF.1 AF.2 exposure r)
                  else AF.2 !! r).
Proof.
  intros exposure AF'. subst AF'. unfold stepState. fold exposure.
  destruct (commit_lookup regions
              (updateLoop regions AF.1 AF.2 exposure cfg ∅ ∅).1
              (updateLoop regions AF.1 AF.2 exposure cfg ∅ ∅).2
              AF.1 AF.2 r) as [HA HF].
  destruct (updateLoop_lookup regions AF.1 AF.2 exposure cfg ∅ ∅ r)
    as [HnA HnF].
  rewrite HA, HF, HnA, HnF. by case_decide.
Qed.

Lemma fold_add_pred (P : num → Prop) {X} (f : X → num) (l : list X) (x0 : num) :
  (∀ x y, P x → P y → P (js_add x y)) →
  P x0 → (∀ x, x ∈ l → P (f x)) →
  P (fold_left (λ s x, js_add s (f x)) l x0).
Proof.
  intros Hadd. revert x0. induction l as [|x l IH]; intros x0 H0 Hl; [done|].
  cbn [fold_left]. apply IH.
  - apply Hadd; [done|]. apply Hl. left.
  - intros y Hy. apply Hl. by right.
Qed.

Lemma reverseEdges_elem (target : string) (graph : MobilityGraph)
    (from : string) (w : num) :
  (from, w) ∈ reverseEdgesForRegion target graph →
  ∃ edges e, (from, edges) ∈ graph ∧ e ∈ edges ∧ w = weight e.
Proof.
  unfold reverseEdgesForRegion. rewrite list_elem_of_In, in_flat_map.
  intros ([from' edges] & Hg & Hin). apply in_flat_map in Hin.
  destruct Hin as (e & He & Hin). destruct (String.eqb (to e) target); [|done].
  destruct Hin as [[= <- <-]|[]]. exists edges, e.
  by rewrite !list_elem_of_In.
Qed.

Ltac in_fields :=
  intros; unfold adoptionFields, fearFields, harmFields;
  rewrite !elem_of_cons; auto 12.

Section FiniteStep.

Variable Math_pow : num → num → num.
Variables (Math_random : nat → num) (theta : Theta) (dp : DensityProvider).
Variables (graph : MobilityGraph) (cfg : SimConfig).

Hypothesis Hfin : FiniteRun Math_pow Math_random theta dp graph cfg.

Let regions := listRegions dp.
Let ap := adoptionParams cfg.

Lemma adoption_param_finite (field : AdoptionParams → option num) (d : num) :
  (∀ p, field p ∈ adoptionFields p) → finite d → finite (param ap field d).
Proof.
  intros Hfield Hd. apply param_pred; [|done]. intros p x Hp Hx.
  pose proof (fr_adoption _ _ _ _ _ _ Hfin p Hp) as Hall.
  rewrite Forall_forall in Hall. by apply (Hall (field p)).
Qed.

Lemma fear_param_finite (field : FearParams → option num) (d : num) :
  (∀ p, field p ∈ fearFields p) → finite d →
  finite (param (fearParams cfg) field d).
Proof.
  intros Hfield Hd. apply param_pred; [|done]. intros p x Hp Hx.
  pose proof (fr_fear _ _ _ _ _ _ Hfin p Hp) as Hall.
  rewrite Forall_forall in Hall. by apply (Hall (field p)).
Qed.

Lemma harm_weight_finite (field : HarmWeights → option num) :
  (∀ p, field p ∈ harmFields p) →
  finite (js_or_undef (harmWeights cfg ≫= field) (Fin 0)).
Proof.
  intros Hfield. apply js_or_undef_pred; [|by eexists]. intros x Hx.
  destruct (harmWeights cfg) as [hw|] eqn:Hhw; [|done]. simpl in Hx.
  pose proof (fr_harm _ _ _ _ _ _ Hfin hw Hhw) as Hall.
  rewrite Forall_forall in Hall. by apply (Hall (field hw)).
Qed.

Section State.

Variable AF : gmap string num * gmap string num.
Hypothesis Hok : StateOk regions AF.

Let exposure :=
  computeExposure Math_pow regions AF.1 dp graph (signalStrength theta) ap.

Lemma adoption_or_zero_in01 (r : string) :
  in01 (js_or_undef (AF.1 !! r) (Fin 0)).
Proof.
  apply js_or_undef_pred; [apply Hok|]. exists 0%Q. split; [done|lra].
Qed.

Lemma fear_or_zero_nonneg (r : string) :
  nonneg (js_or_undef (AF.2 !! r) (Fin 0)).
Proof.
  apply js_or_undef_pred; [apply Hok|]. exists 0%Q. split; [done|lra].
Qed.

Lemma exposureOf_finite (i : string) :
  i ∈ regions →
  finite (exposureOf Math_pow AF.1 dp graph (signalStrength theta) ap i).
Proof.
  intros Hi. unfold exposureOf, localContactFunction.
  pose proof (fr_signalStrength _ _ _ _ _ _ Hfin) as Hs.
  pose proof (fr_contact _ _ _ _ _ _ Hfin i Hi) as Hc.
  unfold contactPower in Hc. fold ap in Hc.
  pose proof (adoption_or_zero_in01 i) as Hai.
  apply finite_mul; [done|]. apply finite_add.
  - repeat apply finite_mul; auto with jsnum;
      apply adoption_param_finite; try in_fields; apply finite_Fin.
  - apply finite_mul.
    + apply adoption_param_finite; [in_fields|apply finite_Fin].
    + apply (fold_add_pred finite); [apply finite_add|apply finite_Fin|].
      intros [from w] He. apply reverseEdges_elem in He
        as (edges & e & Hg & He & ->).
      apply finite_mul; [by eapply (fr_edges _ _ _ _ _ _ Hfin)|].
      apply in01_finite, adoption_or_zero_in01.
Qed.

Lemma exposure_or_zero_finite (r : string) :
  finite (js_or_undef (exposure !! r) (Fin 0)).
Proof.
  apply js_or_undef_pred; [|apply finite_Fin]. intros x.
  subst exposure. rewrite computeExposure_lookup. case_decide; [|done].
  intros [= <-]. by apply exposureOf_finite.
Qed.

(** The old values the update reads for a listed region. *)
Lemma state_values (r : string) :
  r ∈ regions → in01 (js_num (AF.1 !! r)) ∧ nonneg (js_num (AF.2 !! r)).
Proof.
  intros Hr. destruct Hok as (Hdef & HA & HF).
  destruct (Hdef r Hr) as [[a Ha] [f Hf]]. rewrite Ha, Hf. simpl.
  split; [by eapply HA|by eapply HF].
Qed.

Lemma adoptionDelta_finite (r : string) :
  r ∈ regions → finite (adoptionDelta cfg AF.1 AF.2 exposure r).
Proof.
  intros Hr. destruct (state_values r Hr) as [Ha Hf].
  unfold adoptionDelta, adoptionIncrement. fold ap.
  pose proof (exposure_or_zero_finite r) as He.
  pose proof (fr_fearSensitivity _ _ _ _ _ _ Hfin) as Hfs. fold ap in Hfs.
  apply finite_min.
  - apply adoption_param_finite; [in_fields|apply finite_Fin].
  - apply finite_mul; [apply finite_mul|]; auto with jsnum.
    apply finite_mul; [done|].
    apply adoption_param_finite; [in_fields|apply finite_Fin].
Qed.

Lemma updatedA_in01 (r : string) :
  r ∈ regions → in01 (updatedA cfg AF.1 AF.2 exposure r).
Proof.
  intros Hr. destruct (state_values r Hr) as [Ha Hf]. unfold updatedA.
  apply clamp01_in01, finite_add; [auto with jsnum|].
  by apply adoptionDelta_finite.
Qed.

Lemma updatedF_nonneg (r : string) :
  r ∈ regions → nonneg (updatedF cfg AF.1 AF.2 exposure r).
Proof.
  intros Hr. destruct (state_values r Hr) as [Ha Hf]. unfold updatedF.
  pose proof (exposure_or_zero_finite r) as He.
  pose proof (adoptionDelta_finite r Hr) as Hd.
  apply nonneg_max_zero, finite_add; [auto with jsnum|].
  unfold fearIncrement.
  assert (Hdriver :
    finite (js_add
              (js_add
                 (js_mul (param (fearParams cfg) kExposure (Fin 0.1))
                    (js_or_undef (exposure !! r) (Fin 0)))
                 (js_mul (param (fearParams cfg) kGrowth (Fin 0.5))
                    (js_max (Fin 0)
                       (adoptionDelta cfg AF.1 AF.2 exposure r))))
              (js_mul (param (fearParams cfg) kHarm (Fin 1))
                 (computeHarmSignal r AF.1 AF.2 exposure cfg)))).
  { pose proof (harm_weight_finite hw_adoption ltac:(in_fields)).
    pose proof (harm_weight_finite hw_fear ltac:(in_fields)).
    pose proof (harm_weight_finite hw_exposure ltac:(in_fields)).
    pose proof (in01_finite _ (adoption_or_zero_in01 r)).
    pose proof (nonneg_finite _ (fear_or_zero_nonneg r)).
    pose proof (fear_param_finite kExposure (Fin 0.1) ltac:(in_fields)
                  (finite_Fin _)).
    pose proof (fear_param_finite kGrowth (Fin 0.5) ltac:(in_fields)
                  (finite_Fin _)).
    pose proof (fear_param_finite kHarm (Fin 1) ltac:(in_fields)
                  (finite_Fin _)).
    unfold computeHarmSignal. cbv zeta.
    repeat first [apply finite_add | apply finite_mul | apply finite_max];
      first [done | apply finite_Fin]. }
  apply finite_sub.
  - destruct (_ && _); [|done]. apply finite_mul; [done|].
    apply fear_param_finite; [in_fields|apply finite_Fin].
  - apply finite_mul; [|auto with jsnum].
    apply fear_param_finite; [in_fields|apply finite_Fin].
Qed.

(** One pass of the loop body keeps the state invariant. *)
Lemma stepState_ok :
  StateOk regions
    (stepState Math_pow regions dp graph (signalStrength theta) cfg AF).
Proof.
  destruct Hok as (Hdef & HA & HF). split_and!.
  - intros r Hr.
    destruct (stepState_lookup Math_pow regions dp graph
                (signalStrength theta) cfg AF r) as [-> ->].
    rewrite !decide_True by done. split; by eexists.
  - intros r a.
    destruct (stepState_lookup Math_pow regions dp graph
                (signalStrength theta) cfg AF r) as [-> _].
    case_decide; [|apply HA]. intros [= <-]. by apply updatedA_in01.
  - intros r f.
    destruct (stepState_lookup Math_pow regions dp graph
                (signalStrength theta) cfg AF r) as [_ ->].
    case_decide; [|apply HF]. intros [= <-]. by apply updatedF_nonneg.
Qed.

End State.

End FiniteStep.

(** ** The initial state *)

Lemma finite_div (x y : num) : finite x → nonzero y → finite (js_div x y).
Proof. intros [a ->] (b & -> & Hb). rewrite js_div_Fin by done. by eexists. Qed.

Lemma nonzero_or_one (x : num) : finite x → nonzero (js_or x (Fin 1)).
Proof.
  intros [q ->]. unfold js_or, truthy.
  destruct (Qeq_bool q 0) eqn:Hq; simpl.
  - exists 1%Q. split; [done|lra].
  - exists q. split; [done|]. intros He. apply Qeq_bool_iff in He. congruence.
Qed.

Lemma nonzero_positive_or_one (x : num) :
  finite x → nonzero (if js_gt x (Fin 0) then x else Fin 1).
Proof.
  intros [q ->]. unfold js_gt, js_lt.
  destruct (Qle_bool q 0) eqn:Hq; simpl.
  - exists 1%Q. split; [done|lra].
  - exists q. split; [done|]. intros He.
    assert (Hle : (q <= 0)%Q) by lra. apply Qle_bool_iff in Hle. congruence.
Qed.

Lemma Some_pred (P : num → Prop) (x w : num) : Some x = Some w → P x → P w.
Proof. by intros [= ->]. Qed.

Section InitialState.

Variable Math_pow : num → num → num.
Variables (Math_random : nat → num) (theta : Theta) (dp : DensityProvider).
Variables (graph : MobilityGraph) (cfg : SimConfig).

Hypothesis Hfin : FiniteRun Math_pow Math_random theta dp graph cfg.

Let regions := listRegions dp.
Let pop := popByRegion cfg.

Lemma pop_or_zero_nonneg (r : string) :
  nonneg (js_or_undef (pop !! r) (Fin 0)).
Proof.
  apply js_or_undef_pred; [|apply nonneg_Fin; lra].
  apply (fr_population _ _ _ _ _ _ Hfin).
Qed.

Lemma sumPop_nonneg (rs : list string) : nonneg (sumPop rs pop).
Proof.
  apply (fold_add_pred nonneg); [apply nonneg_add|apply nonneg_Fin; lra|].
  intros r _. apply pop_or_zero_nonneg.
Qed.

(** The population of the centers is finite, not negative, and at least
    the population of each center among the regions. *)
Lemma centerPop_bounds (has : string → bool) (rs : list string) (acc : Q) :
  (0 <= acc)%Q →
  ∃ c, fold_left (λ cp r, if has r
                          then js_add cp (js_or_undef (pop !! r) (Fin 0))
                          else cp) rs (Fin acc) = Fin c
       ∧ (acc <= c)%Q
       ∧ ∀ r, r ∈ rs → has r = true →
              (qval (js_or_undef (pop !! r) (Fin 0)) <= c)%Q.
Proof.
  revert acc. induction rs as [|r rs IH]; intros acc Hacc.
  - exists acc. split_and!; [done|lra|]. by intros r ?%elem_of_nil.
  - cbn [fold_left]. destruct (pop_or_zero_nonneg r) as (p & Hp & Hp0).
    destruct (has r) eqn:Hr.
    + rewrite Hp. cbn [js_add].
      destruct (IH (Qred (acc + p))) as (c & Hc & Hle & Hall).
      { rewrite Qred_correct. lra. }
      rewrite Qred_correct in Hle.
      exists c. split_and!; [done|lra|].
      intros r' [->|Hin]%elem_of_cons Hr'; [|by apply Hall].
      rewrite Hp. simpl. lra.
    + destruct (IH acc Hacc) as (c & Hc & Hle & Hall).
      exists c. split_and!; [done..|].
      intros r' [->|Hin]%elem_of_cons Hr'; [congruence|by apply Hall].
Qed.

Lemma uniformWeights_finite (r : string) (w : num) :
  uniformWeights regions !! r = Some w → finite w.
Proof.
  unfold uniformWeights. rewrite fold_insert_lookup.
  case_decide as Hr; [|done]. intros Hw. eapply Some_pred; [exact Hw|].
  apply finite_div; [apply finite_Fin|].
  eexists. split; [done|]. intros He.
  pose proof (proj1 (inject_Z_injective _ 0) He) as Hz.
  destruct regions; [by apply elem_of_nil in Hr|done].
Qed.

Lemma explicitWeights_finite (raw : list (string * num)) (r : string) (w : num) :
  (∀ k v, (k, v) ∈ raw → finite v) →
  explicitWeights regions raw !! r = Some w → finite w.
Proof.
  intros Hraw. unfold explicitWeights. rewrite fold_insert_lookup.
  case_decide as Hr; [|done]. intros Hw. eapply Some_pred; [exact Hw|].
  apply finite_div.
  - apply js_or_undef_pred; [|apply finite_Fin].
    intros v Hv%obj_get_elem. by eapply Hraw.
  - apply nonzero_or_one, (fold_add_pred finite);
      [apply finite_add|apply finite_Fin|].
    intros v [[k v'] [-> Hkv]]%list_elem_of_fmap. by eapply Hraw.
Qed.

Lemma kernelWeights_finite (centers : list string) (r : string) (w : num) :
  kernelWeights regions centers pop !! r = Some w → finite w.
Proof.
  unfold kernelWeights, centerPopulation. cbv zeta.
  destruct (centerPop_bounds (λ r, bool_decide (r ∈ centers)) regions 0)
    as (cp & Hcp & Hcp0 & Hcenters); [lra|].
  rewrite Hcp.
  set (w_of := λ r : string,
         if bool_decide (r ∈ centers)
         then js_or (js_div (js_or_undef (pop !! r) (Fin 0)) (Fin cp)) (Fin 0)
         else js_mul (Fin 0.001)
                (js_div (js_or_undef (pop !! r) (Fin 0))
                   (js_or (sumPop regions pop) (Fin 1)))).
  assert (Hfold : ∀ rs (m : gmap string num),
    fold_left
      (λ (w : gmap string num) r,
         if bool_decide (r ∈ centers)
         then <[r := js_or (js_div (js_or_undef (pop !! r) (Fin 0))
                              (Fin cp)) (Fin 0)]> w
         else <[r := js_mul (Fin 0.001)
                       (js_div (js_or_undef (pop !! r) (Fin 0))
                          (js_or (sumPop regions pop) (Fin 1)))]> w)
      rs m
    = fold_left (λ w r, <[r := w_of r]> w) rs m).
  { induction rs as [|r0 rs IHrs]; intros m; [done|].
    cbn [fold_left]. rewrite <- IHrs. subst w_of. cbv beta.
    by destruct (bool_decide (r0 ∈ centers)). }
  rewrite Hfold, fold_insert_lookup. case_decide as Hr; [|done].
  intros Hw. eapply Some_pred; [exact Hw|]. subst w_of. cbv beta.
  destruct (pop_or_zero_nonneg r) as (p & Hp & Hp0). rewrite Hp.
  destruct (bool_decide (r ∈ centers)) eqn:Hcenter.
  - specialize (Hcenters r Hr Hcenter). rewrite Hp in Hcenters.
    simpl in Hcenters. cbn [js_div].
    destruct (Qeq_bool cp 0) eqn:Hz; [|apply finite_or; apply finite_Fin].
    apply Qeq_bool_iff in Hz.
    assert (Hp' : (p == 0)%Q) by lra.
    unfold Qsign. rewrite (proj1 (Qeq_alt p 0) Hp'). apply finite_Fin.
  - apply finite_mul; [apply finite_Fin|].
    apply finite_div; [apply finite_Fin|].
    apply nonzero_or_one, nonneg_finite, sumPop_nonneg.
Qed.

Lemma weights_finite (r : string) (w : num) :
  computeSpatialFocusWeights regions (spatialFocus theta) pop !! r = Some w →
  finite w.
Proof.
  unfold computeSpatialFocusWeights.
  destruct (spatialFocus theta) as [sf|] eqn:Hsf;
    [|apply uniformWeights_finite].
  case_bool_decide; [apply uniformWeights_finite|].
  destruct (bool_decide (type sf = Some "explicit")),
    (weights sf) as [raw|] eqn:Hraw,
    (bool_decide (type sf = Some "kernel")),
    (centerIds sf) as [[|c cs]|];
    first [ apply uniformWeights_finite
          | apply kernelWeights_finite
          | apply explicitWeights_finite; intros k v Hkv;
            by eapply (fr_weights _ _ _ _ _ _ Hfin) ].
Qed.

Lemma seedRegion_in01 (weights : gmap string num) (u : num) (r : string) :
  (∀ r w, weights !! r = Some w → finite w) → finite u →
  in01 (seedRegion weights
          (js_mul (sumPop regions pop) (seedFraction theta)) pop u r).
Proof.
  intros Hw Hu. unfold seedRegion. cbv zeta.
  pose proof (nonneg_finite _ (pop_or_zero_nonneg r)) as Hp.
  pose proof (nonneg_finite _ (sumPop_nonneg regions)) as Hs.
  pose proof (fr_seedFraction _ _ _ _ _ _ Hfin) as Hsf.
  apply clamp01_in01, finite_add.
  - apply finite_min; [apply finite_Fin|]. apply finite_div.
    + apply finite_div; [|by apply nonzero_positive_or_one].
      apply finite_mul; [|by apply finite_mul].
      apply js_or_undef_pred; [apply Hw|apply finite_Fin].
    + by apply nonzero_or_one.
  - apply finite_mul; [|apply finite_Fin].
    apply finite_sub; [done|apply finite_Fin].
Qed.

Lemma seedLoop_lookup (weights : gmap string num) (target : num)
    (rng : nat → num) (rs : list string) (k : nat) (A : gmap string num)
    (r : string) :
  seedLoop weights target pop rng rs k A !! r = A !! r
  ∨ ∃ j, seedLoop weights target pop rng rs k A !! r
         = Some (seedRegion weights target pop (rng j) r).
Proof.
  revert k A. induction rs as [|r0 rs IH]; intros k A; [by left|].
  cbn [seedLoop].
  destruct (IH (S k) (<[r0 := seedRegion weights target pop (rng k) r0]> A))
    as [->|Hj]; [|by right].
  destruct (decide (r0 = r)) as [->|Hne].
  - right. exists k. apply lookup_insert_eq.
  - left. by apply lookup_insert_ne.
Qed.

Lemma seedLoop_defined (weights : gmap string num) (target : num)
    (rng : nat → num) (rs : list string) (k : nat) (A : gmap string num)
    (r : string) :
  r ∈ rs ∨ is_Some (A !! r) →
  is_Some (seedLoop weights target pop rng rs k A !! r).
Proof.
  revert k A. induction rs as [|r0 rs IH]; intros k A Hr.
  - destruct Hr as [Hr|Hr]; [by apply elem_of_nil in Hr|done].
  - cbn [seedLoop]. apply IH.
    destruct Hr as [[->|Hr]%elem_of_cons|Hr]; [right|by left|right].
    + rewrite lookup_insert_eq. by eexists.
    + rewrite lookup_insert. case_decide; [by eexists|done].
Qed.

(** The state built by the two initialisations satisfies the invariant,
    provided the configured initial fear is not negative. *)
Lemma initialState_ok :
  InitialFearNonneg cfg →
  StateOk regions (initialState Math_random theta dp cfg).
Proof.
  intros Hfear0. unfold initialState, initializeAdoption, initializeFear.
  cbv zeta. fold regions pop. split_and!; cbn [fst snd].
  - intros r Hr. split.
    + apply seedLoop_defined. by left.
    + rewrite fold_insert_lookup, decide_True by done. by eexists.
  - intros r a Ha.
    destruct (seedLoop_lookup
                (computeSpatialFocusWeights regions (spatialFocus theta) pop)
                (js_mul (sumPop regions pop) (seedFraction theta))
                (rngOf Math_random theta cfg) regions 0 ∅ r) as [He|[j Hj]].
    + rewrite He in Ha. done.
    + rewrite Hj in Ha. eapply Some_pred; [exact Ha|].
      apply seedRegion_in01; [apply weights_finite|].
      apply (fr_rng _ _ _ _ _ _ Hfin).
  - intros r f. rewrite fold_insert_lookup. case_decide; [|done].
    intros Hf. eapply Some_pred; [exact Hf|].
    apply js_or_undef_pred; [|apply nonneg_Fin; lra].
    destruct (initialFearByRegion cfg) as [m|] eqn:Hm; simpl.
    + intros x Hx. by eapply Hfear0.
    + done.
Qed.

End InitialState.

(** ** Bounds on every snapshot *)

Section Bounds.

Variable Math_pow : num → num → num.
Variables (Math_random : nat → num) (theta : Theta) (dp : DensityProvider).
Variables (graph : MobilityGraph) (cfg : SimConfig).

Hypothesis Hfin : FiniteRun Math_pow Math_random theta dp graph cfg.

Let regions := listRegions dp.
Let loop :=
  simLoop Math_pow regions dp graph (signalStrength theta) (dt theta).

Lemma simLoop_ok (T : num) (n s : nat) AF :
  StateOk regions AF →
  Forall (λ snap : Snapshot * Snapshot,
            StateOk regions (values snap.1, values snap.2))
    (loop T cfg n s AF).
Proof.
  revert s AF. induction n as [|n IH]; intros s [A F] Hok; [constructor|].
  unfold loop. rewrite simLoop_S. destruct (js_eq _ T).
  - apply Forall_cons_2; [exact Hok|apply Forall_nil_2].
  - apply Forall_cons_2; [exact Hok|]. apply IH.
    by apply (stepState_ok Math_pow Math_random theta dp graph cfg Hfin).
Qed.

Lemma run_snapshots_ok res :
  InitialFearNonneg cfg →
  runCascadeSimulation Math_pow Math_random theta dp graph cfg = Some res →
  Forall (λ snap : Snapshot * Snapshot,
            StateOk regions (values snap.1, values snap.2))
    (snapshots (history res))
  ∧ length (histA (history res)) = length (histF (history res)).
Proof.
  intros Hfear0. unfold runCascadeSimulation.
  destruct (iterations _) as [n|]; [|done]. simpl. intros [= <-].
  unfold snapshots. cbn [history histA histF].
  rewrite !length_fmap. split; [|done].
  rewrite zip_fst_snd. apply simLoop_ok.
  by apply (initialState_ok Math_pow Math_random theta dp graph cfg Hfin).
Qed.

End Bounds.

Lemma snapshots_lookup (h : History) (k : nat) sA sF :
  length (histA h) = length (histF h) →
  histA h !! k = Some sA → histF h !! k = Some sF →
  snapshots h !! k = Some (sA, sF).
Proof.
  intros _ HA HF. unfold snapshots.
  apply lookup_zip_with_Some. by exists sA, sF.
Qed.


(** ** Adoption never declines *)

Lemma js_le_refl_finite (x : num) : finite x → js_le x x = true.
Proof. intros [q ->]. simpl. apply Qle_bool_iff. lra. Qed.

Section Monotone.

Variable Math_pow : num → num → num.
Variables (Math_random : nat → num) (theta : Theta) (dp : DensityProvider).
Variables (graph : MobilityGraph) (cfg : SimConfig).

Hypothesis Hfin : FiniteRun Math_pow Math_random theta dp graph cfg.
Hypothesis Hnn : NonnegRun Math_pow theta dp graph cfg.

Let regions := listRegions dp.
Let ap := adoptionParams cfg.
Let step := stepState Math_pow regions dp graph (signalStrength theta) cfg.
Let loop :=
  simLoop Math_pow regions dp graph (signalStrength theta) (dt theta).

Lemma adoption_param_nonneg (field : AdoptionParams → option num) (d : num) :
  (∀ p, field p ∈ [exposureScale p; fearSensitivity p; maxRate p;
                    localWeight p; importedWeight p; baseContact p]) →
  nonneg d → nonneg (param ap field d).
Proof.
  intros Hfield Hd. apply param_pred; [|done]. intros p x Hp Hx.
  pose proof (nn_adoption _ _ _ _ _ Hnn p Hp) as Hall.
  rewrite Forall_forall in Hall. by apply (Hall (field p)).
Qed.

Ltac in_nonneg_fields := intros; rewrite !elem_of_cons; auto 12.
Ltac nonneg_literal := apply nonneg_Fin; lra.

Section State.

Variable AF : gmap string num * gmap string num.
Hypothesis Hok : StateOk regions AF.

Let exposure :=
  computeExposure Math_pow regions AF.1 dp graph (signalStrength theta) ap.

Lemma exposureOf_nonneg (i : string) :
  i ∈ regions →
  nonneg (exposureOf Math_pow AF.1 dp graph (signalStrength theta) ap i).
Proof.
  intros Hi. unfold exposureOf, localContactFunction.
  pose proof (nn_signalStrength _ _ _ _ _ Hnn) as Hs.
  pose proof (nn_power _ _ _ _ _ Hnn i Hi (nn_density _ _ _ _ _ Hnn i Hi))
    as Hc.
  unfold contactPower in Hc. fold ap in Hc.
  pose proof (in01_nonneg _ (adoption_or_zero_in01 dp AF Hok i)) as Hai.
  apply nonneg_mul; [done|]. apply nonneg_add.
  - repeat apply nonneg_mul; try done;
      apply adoption_param_nonneg; try in_nonneg_fields; nonneg_literal.
  - apply nonneg_mul.
    + apply adoption_param_nonneg; [in_nonneg_fields|nonneg_literal].
    + apply (fold_add_pred nonneg); [apply nonneg_add|nonneg_literal|].
      intros [from w] He. apply reverseEdges_elem in He
        as (edges & e & Hg & He & ->).
      apply nonneg_mul; [by eapply (nn_edges _ _ _ _ _ Hnn)|].
      apply in01_nonneg, (adoption_or_zero_in01 dp AF Hok).
Qed.

Lemma exposure_or_zero_nonneg (r : string) :
  nonneg (js_or_undef (exposure !! r) (Fin 0)).
Proof.
  apply js_or_undef_pred; [|nonneg_literal]. intros x.
  subst exposure. rewrite computeExposure_lookup. case_decide; [|done].
  intros Hx. eapply Some_pred; [exact Hx|]. by apply exposureOf_nonneg.
Qed.

(** The increment [dA] of a listed region is not negative. *)
Lemma adoptionDelta_nonneg (r : string) :
  r ∈ regions → nonneg (adoptionDelta cfg AF.1 AF.2 exposure r).
Proof.
  intros Hr. destruct (state_values dp AF Hok r Hr) as [Ha Hf].
  unfold adoptionDelta, adoptionIncrement. fold ap.
  pose proof (exposure_or_zero_nonneg r) as He.
  apply nonneg_min.
  - apply adoption_param_nonneg; [in_nonneg_fields|nonneg_literal].
  - apply nonneg_mul; [apply nonneg_mul|by apply nonneg_one_minus].
    + apply nonneg_mul; [done|].
      apply adoption_param_nonneg; [in_nonneg_fields|nonneg_literal].
    + apply nonneg_recip, nonneg_mul; [|done].
      apply adoption_param_nonneg; [in_nonneg_fields|nonneg_literal].
Qed.

Lemma stepState_monotone (r : string) (a a' : num) :
  AF.1 !! r = Some a → (step AF).1 !! r = Some a' → js_le a a' = true.
Proof.
  intros Ha. subst step.
  destruct (stepState_lookup Math_pow regions dp graph
              (signalStrength theta) cfg AF r) as [-> _].
  destruct Hok as (_ & HA & _). specialize (HA r a Ha).
  case_decide as Hr.
  - intros Ha'. eapply (Some_pred (λ x, js_le a x = true)); [exact Ha'|].
    unfold updatedA. rewrite Ha. cbn [js_num default].
    apply clamp01_add_ge; [done|]. exact (adoptionDelta_nonneg r Hr).
  - rewrite Ha. intros [= <-]. by apply js_le_refl_finite, in01_finite.
Qed.

End State.

Lemma simLoop_head (T : num) (n s : nat) AF :
  loop T cfg (S n) s AF !! 0 = Some (snapAt (dt theta) s AF).
Proof. unfold loop. rewrite simLoop_S. by destruct (js_eq _ T). Qed.

Lemma simLoop_monotone (T : num) (n s : nat) AF :
  StateOk regions AF →
  ∀ k sa sb r a a',
    loop T cfg n s AF !! k = Some sa →
    loop T cfg n s AF !! S k = Some sb →
    values sa.1 !! r = Some a → values sb.1 !! r = Some a' →
    js_le a a' = true.
Proof.
  revert s AF. induction n as [|n IH]; intros s AF Hok k sa sb r a a';
    [done|].
  unfold loop. rewrite simLoop_S. destruct (js_eq _ T).
  { by destruct k. }
  destruct k as [|k]; cbn [lookup list_lookup].
  - intros [= <-]. destruct n as [|n]; [done|].
    fold loop. rewrite simLoop_head. intros [= <-]. simpl.
    by apply stepState_monotone.
  - apply IH.
    by apply (stepState_ok Math_pow Math_random theta dp graph cfg Hfin).
Qed.

End Monotone.


(** ** The one-region scenario is a finite, non-negative input *)

Lemma scenario_finite Math_random (h : Q) fear0 (u : Q) :
  FiniteRun scenario.pow_nat Math_random (scenario.theta h)
    scenario.provider scenario.graph
    (scenario.config fear0 (Some (λ _, scenario.constant_rng (Fin u)))).
Proof.
  split.
  - apply finite_Fin.
  - apply finite_Fin.
  - intros r p Hp. cbn [scenario.config popByRegion] in Hp.
    apply lookup_singleton_Some in Hp as [_ <-]. apply nonneg_Fin. lra.
  - intros sf raw k v Hsf. discriminate.
  - intros k. apply finite_Fin.
  - intros ap [= <-]. repeat apply Forall_cons_2; try apply Forall_nil_2;
      intros x Hx; try discriminate. injection Hx as <-. apply finite_Fin.
  - apply nonneg_Fin. lra.
  - intros fp Hfp. discriminate.
  - intros hw Hhw. discriminate.
  - intros from edges e Hg He. unfold scenario.graph in Hg.
    apply list_elem_of_singleton in Hg. injection Hg as -> ->.
    by apply elem_of_nil in He.
  - intros i Hi. eexists. vm_compute. reflexivity.
Qed.

Lemma scenario_nonneg (h : Q) fear0 factory :
  NonnegRun scenario.pow_nat (scenario.theta h) scenario.provider
    scenario.graph (scenario.config fear0 factory).
Proof.
  split.
  - apply nonneg_Fin. lra.
  - intros from edges e Hg He. unfold scenario.graph in Hg.
    apply list_elem_of_singleton in Hg. injection Hg as -> ->.
    by apply elem_of_nil in He.
  - intros i Hi. apply nonneg_Fin. lra.
  - intros i Hi _. eexists. split; [vm_compute; reflexivity|lra].
  - intros ap [= <-]. repeat apply Forall_cons_2; try apply Forall_nil_2;
      intros x Hx; discriminate.
Qed.





(** Fear has no upper bound: an initial fear of [5] is still above [1]
    after the first update. *)
Lemma fear_is_not_capped :
  let cfg :=
    scenario.config (Some {["A" := Fin 5]})
      (Some (λ _, scenario.constant_rng (Fin 0.9))) in
  ∃ q,
    (runCascadeSimulation scenario.pow_nat (scenario.constant_rng (Fin 0.5))
       (scenario.theta 1) scenario.provider scenario.graph cfg
     ≫= λ res, fearAt res 1 "A") = Some (Fin q)
    ∧ (1 < q)%Q.
Proof. eexists. split; [vm_compute; reflexivity|reflexivity]. Qed.

(** * Further properties of the code *)

Import policyPlan.

(** ** The order of the numbers *)

Lemma Qle_bool_cases (a b : Q) :
  Qle_bool a b = true ∧ (a <= b)%Q ∨ Qle_bool a b = false ∧ (b < a)%Q.
Proof.
  destruct (Qle_bool a b) eqn:H.
  - left. split; [done|]. by apply Qle_bool_iff.
  - right. split; [done|]. apply Qnot_le_lt. intros Hle.
    apply Qle_bool_iff in Hle. congruence.
Qed.

(** Decides a goal on the comparisons of numbers from hypotheses of the
    same kind, by cases on the numbers. *)
Ltac num_order :=
  intros;
  repeat match goal with x : num |- _ => destruct x end;
  cbn [js_gt js_ge js_lt js_le negb] in *; try done;
  repeat match goal with
  | H : context [Qle_bool ?a ?b] |- _ =>
    let Hb := fresh in
    destruct (Qle_bool_cases a b) as [[Hb ?]|[Hb ?]];
    rewrite Hb in *; clear Hb
  | |- context [Qle_bool ?a ?b] =>
    let Hb := fresh in
    destruct (Qle_bool_cases a b) as [[Hb ?]|[Hb ?]];
    rewrite Hb in *; clear Hb
  end;
  cbn [negb] in *; try done; try lra.

Lemma js_gt_irrefl (x : num) : js_gt x x = false.
Proof. num_order. Qed.

Lemma js_gt_not_NaN (x y : num) : js_gt x y = true → x ≠ NaN ∧ y ≠ NaN.
Proof. destruct x, y; simpl; intros; by split. Qed.

Lemma js_gt_asym (x y : num) : js_gt y x = true → js_gt x y = false.
Proof. num_order. Qed.

Lemma js_gt_trans (x y z : num) :
  js_gt x y = true → js_gt y z = true → js_gt x z = true.
Proof. num_order. Qed.

Lemma js_gt_not_ge (x y : num) : js_gt y x = true → js_ge x y = false.
Proof. num_order. Qed.

(** A value that does not exceed [b] is not at or above a value that
    does. *)
Lemma js_below_not_ge (x y b : num) :
  js_gt x b = false → js_gt y b = true → js_ge x y = false.
Proof. num_order. Qed.

Lemma js_not_ge_not_gt (x y : num) : js_ge x y = false → js_gt x y = false.
Proof. num_order. Qed.

Lemma js_le_trans (x y z : num) :
  js_le x y = true → js_le y z = true → js_le x z = true.
Proof. num_order. Qed.

(** ** Scans that keep the first greatest value

    [maxBy] and the peak scans of [computeSimulationMetrics] run the same
    loop: the state is a value and what was recorded with it, and an item
    replaces the state when its value is strictly greater. *)

Section Scan.

Context {P : Type}.

Let step (st : option P * num) (it : P * num) : option P * num :=
  if js_gt it.2 st.2 then (Some it.1, it.2) else st.

Lemma scan_spec (items : list (P * num)) (p0 : option P) (v0 : num) :
  v0 ≠ NaN →
  let st := fold_left step items (p0, v0) in
  st.2 ≠ NaN
  ∧ (∀ it, it ∈ items → js_gt it.2 st.2 = false)
  ∧ (st = (p0, v0)
     ∨ ∃ i it,
         items !! i = Some it ∧ st = (Some it.1, it.2)
         ∧ js_gt it.2 v0 = true
         ∧ ∀ j it', j < i → items !! j = Some it' → js_ge it'.2 it.2 = false).
Proof.
  revert p0 v0. induction items as [|it items IH]; intros p0 v0 Hv0.
  { simpl. split_and!; [done| |by left]. by intros it ?%elem_of_nil. }
  cbn [fold_left].
  assert (Hs : step (p0, v0) it
               = if js_gt it.2 v0 then (Some it.1, it.2) else (p0, v0))
    by done.
  rewrite Hs. clear Hs. destruct (js_gt it.2 v0) eqn:Hgt.
  - destruct (js_gt_not_NaN _ _ Hgt) as [Hit _].
    destruct (IH (Some it.1) it.2 Hit) as (Hn & Hdom & Hcase).
    split_and!; [done| |].
    + intros it' [->|Hin]%elem_of_cons; [|by apply Hdom].
      destruct Hcase as [He|(i & it' & _ & He & Hgt' & _)];
        rewrite He; cbn [snd].
      * apply js_gt_irrefl.
      * by apply js_gt_asym.
    + right. destruct Hcase as [He|(i & it' & Hi & He & Hgt' & Hbefore)].
      * exists 0, it. split_and!; [done..|]. intros j it' Hj. lia.
      * exists (S i), it'. split_and!; [done|done| |].
        -- by eapply js_gt_trans.
        -- intros [|j] it'' Hj; cbn [lookup list_lookup].
           ++ intros [= <-]. by apply js_gt_not_ge.
           ++ apply Hbefore. lia.
  - destruct (IH p0 v0 Hv0) as (Hn & Hdom & Hcase).
    split_and!; [done| |].
    + intros it' [->|Hin]%elem_of_cons; [|by apply Hdom].
      destruct Hcase as [He|(i & it' & _ & He & Hgt' & _)];
        rewrite He; cbn [snd].
      * done.
      * apply js_not_ge_not_gt. by eapply js_below_not_ge.
    + destruct Hcase as [He|(i & it' & Hi & He & Hgt' & Hbefore)];
        [by left|right].
      exists (S i), it'. split_and!; [done..|].
      intros [|j] it'' Hj; cbn [lookup list_lookup].
      * intros [= <-]. by eapply js_below_not_ge.
      * apply Hbefore. lia.
Qed.

End Scan.

(** ** Numbers equal to zero *)

(** A finite number equal to zero. *)
Lemma zero_Fin (q : Q) : (q == 0)%Q → js_eq (Fin q) (Fin 0) = true.
Proof. intros Hq. by apply Qeq_bool_iff. Qed.

Lemma js_eq_zero_inv (x : num) :
  js_eq x (Fin 0) = true → ∃ q, x = Fin q ∧ (q == 0)%Q.
Proof.
  destruct x as [q| | |]; try done. simpl. intros Hq%Qeq_bool_iff.
  by exists q.
Qed.

Lemma js_eq_refl_finite (x : num) : finite x → js_eq x x = true.
Proof. intros [q ->]. apply Qeq_bool_iff. reflexivity. Qed.

Lemma js_eq_trans (x y z : num) :
  js_eq x y = true → js_eq y z = true → js_eq x z = true.
Proof.
  destruct x as [a| | |], y as [b| | |], z as [c| | |]; try done. simpl.
  intros H1%Qeq_bool_iff H2%Qeq_bool_iff. apply Qeq_bool_iff.
  by rewrite H1.
Qed.

Lemma zero_mul_l (x y : num) :
  js_eq x (Fin 0) = true → finite y → js_eq (js_mul x y) (Fin 0) = true.
Proof.
  intros (q & -> & Hq)%js_eq_zero_inv [b ->]. apply zero_Fin.
  rewrite Qred_correct, Hq. lra.
Qed.

Lemma zero_mul_r (x y : num) :
  finite x → js_eq y (Fin 0) = true → js_eq (js_mul x y) (Fin 0) = true.
Proof.
  intros [a ->] (q & -> & Hq)%js_eq_zero_inv. apply zero_Fin.
  rewrite Qred_correct, Hq. lra.
Qed.

Lemma zero_div (x y : num) :
  js_eq x (Fin 0) = true → nonzero y → js_eq (js_div x y) (Fin 0) = true.
Proof.
  intros (q & -> & Hq)%js_eq_zero_inv (b & -> & Hb).
  rewrite js_div_Fin by done. apply zero_Fin.
  rewrite Qred_correct, Hq. unfold Qdiv. lra.
Qed.

(** A finite product with a zero factor is zero, whatever the other
    factor: it cannot be an infinity or [NaN]. *)
Lemma zero_mul_finite (x y : num) :
  js_eq x (Fin 0) = true → finite (js_mul x y) →
  js_eq (js_mul x y) (Fin 0) = true.
Proof.
  intros Hx Hfin. destruct (js_eq_zero_inv x Hx) as (q & -> & Hq).
  destruct y as [b| | |].
  - apply zero_mul_l; [done|apply finite_Fin].
  - exfalso. destruct Hfin as [p Hp]. simpl in Hp. unfold Qsign in Hp.
    by rewrite (proj1 (Qeq_alt q 0) Hq) in Hp.
  - exfalso. destruct Hfin as [p Hp]. simpl in Hp. unfold Qsign in Hp.
    by rewrite (proj1 (Qeq_alt q 0) Hq) in Hp.
  - by destruct Hfin.
Qed.

Lemma zero_or_undef (o : option num) :
  (∀ x, o = Some x → js_eq x (Fin 0) = true) →
  js_eq (js_or_undef o (Fin 0)) (Fin 0) = true.
Proof. intros Ho. by apply (js_or_undef_pred (λ x, js_eq x (Fin 0) = true)). Qed.

Lemma zero_min_nonneg (m z : num) :
  nonneg m → js_eq z (Fin 0) = true → js_eq (js_min m z) (Fin 0) = true.
Proof.
  intros (a & -> & Ha) (q & -> & Hq)%js_eq_zero_inv. unfold js_min.
  cbn [js_le]. destruct (Qle_bool_cases a q) as [[-> ?]|[-> ?]];
    apply zero_Fin; lra.
Qed.

(** Adding zero to a value of [[0, 1]] and clamping gives the value back. *)
Lemma clamp01_add_zero (a d : num) :
  in01 a → js_eq d (Fin 0) = true → js_eq (clamp01 (js_add a d)) a = true.
Proof.
  intros (qa & -> & H0 & H1) (q & -> & Hq)%js_eq_zero_inv. cbn [js_add].
  assert (Hs : (Qred (qa + q) == qa)%Q) by (rewrite Qred_correct, Hq; lra).
  unfold clamp01, js_min, js_max. cbn [js_le].
  destruct (Qle_bool_cases 1 (Qred (qa + q))) as [[-> ?]|[-> ?]];
    cbn [js_le].
  - change (Qle_bool 0 1) with true. apply Qeq_bool_iff. lra.
  - destruct (Qle_bool_cases 0 (Qred (qa + q))) as [[-> ?]|[-> ?]];
      apply Qeq_bool_iff; lra.
Qed.

Lemma zero_add (x y : num) :
  js_eq x (Fin 0) = true → js_eq y (Fin 0) = true →
  js_eq (js_add x y) (Fin 0) = true.
Proof.
  intros (a & -> & Ha)%js_eq_zero_inv (b & -> & Hb)%js_eq_zero_inv.
  apply zero_Fin. rewrite Qred_correct. lra.
Qed.

Lemma zero_max_zero (x : num) :
  js_eq x (Fin 0) = true → js_eq (js_max (Fin 0) x) (Fin 0) = true.
Proof.
  intros (a & -> & Ha)%js_eq_zero_inv. unfold js_max. cbn [js_le].
  destruct (Qle_bool_cases 0 a) as [[-> ?]|[-> ?]]; apply zero_Fin; lra.
Qed.

Lemma zero_max_min (m z : num) :
  finite m → js_eq z (Fin 0) = true →
  js_eq (js_max (Fin 0) (js_min m z)) (Fin 0) = true.
Proof.
  intros [a ->] (q & -> & Hq)%js_eq_zero_inv. unfold js_min. cbn [js_le].
  destruct (Qle_bool_cases a q) as [[-> ?]|[-> ?]]; unfold js_max;
    cbn [js_le].
  - destruct (Qle_bool_cases 0 a) as [[-> ?]|[-> ?]]; apply zero_Fin; lra.
  - destruct (Qle_bool_cases 0 q) as [[-> ?]|[-> ?]]; apply zero_Fin; lra.
Qed.

(** What [f + (z - m)] is for a zero [z]: [f - m]; and the floor at [0]
    respects the equality of numbers. *)
Lemma floor_of_decay (f z m : num) :
  finite f → js_eq z (Fin 0) = true → finite m →
  js_eq (js_max (Fin 0) (js_add f (js_sub z m)))
        (js_max (Fin 0) (js_sub f m)) = true.
Proof.
  intros [qf ->] (qz & -> & Hz)%js_eq_zero_inv [qm ->].
  cbn [js_sub js_neg js_add].
  assert (He : (Qred (qf + Qred (qz + - qm)) == Qred (qf + - qm))%Q)
    by (rewrite !Qred_correct, Hz; lra).
  unfold js_max. cbn [js_le].
  destruct (Qle_bool_cases 0 (Qred (qf + Qred (qz + - qm))))
    as [[-> ?]|[-> ?]];
    destruct (Qle_bool_cases 0 (Qred (qf + - qm))) as [[-> ?]|[-> ?]];
    apply Qeq_bool_iff; lra.
Qed.

(** ** [clamp01] *)

(** X1.  [clamp01] sends every number but [NaN] into [[0, 1]] (the infinities to
    the nearest bound), leaves the numbers of [[0, 1]] as they are, and
    returns [NaN] for [NaN]. *)
Theorem clamp01_range_and_NaN (x : num) :
  (x ≠ NaN → in01 (clamp01 x))
  ∧ (in01 x → js_eq (clamp01 x) x = true)
  ∧ clamp01 PInf = Fin 1 ∧ clamp01 NInf = Fin 0 ∧ clamp01 NaN = NaN.
Proof.
  split_and!; [| |done..].
  - destruct x as [q| | |]; [intros _; by apply clamp01_in01, finite_Fin| | |done].
    + intros _. exists 1%Q. split; [done|lra].
    + intros _. exists 0%Q. split; [done|lra].
  - intros (q & -> & H0 & H1). unfold clamp01, js_min, js_max. cbn [js_le].
    destruct (Qle_bool_cases 1 q) as [[-> ?]|[-> ?]]; cbn [js_le].
    + change (Qle_bool 0 1) with true. cbn [js_eq].
      apply Qeq_bool_iff. lra.
    + destruct (Qle_bool_cases 0 q) as [[-> ?]|[-> ?]]; cbn [js_eq];
        apply Qeq_bool_iff; lra.
Qed.


(** ** Spatial-focus weights: the uniform and the kernel branch *)

Lemma Qsum_const {X} (c : Q) (l : list X) :
  (Qsum ((λ _, c) <$> l) == inject_Z (Z.of_nat (length l)) * c)%Q.
Proof.
  induction l as [|x l IH].
  - change (0 == 0 * c)%Q. lra.
  - rewrite fmap_cons, Qsum_cons, IH. cbn [length].
    rewrite Nat2Z.inj_succ. unfold Z.succ. rewrite inject_Z_plus.
    change (inject_Z 1) with 1%Q. lra.
Qed.

Lemma Qsum_linear {X} (a b : Q) (f g : X → Q) (l : list X) :
  (Qsum ((λ x, a * f x + b * g x) <$> l)
   == a * Qsum (f <$> l) + b * Qsum (g <$> l))%Q.
Proof.
  induction l as [|x l IH].
  - simpl. lra.
  - rewrite !fmap_cons, !Qsum_cons, IH. lra.
Qed.

Lemma Qsum_nonneg {X} (f : X → Q) (l : list X) :
  (∀ x, x ∈ l → (0 <= f x)%Q) → (0 <= Qsum (f <$> l))%Q.
Proof.
  induction l as [|x l IH]; intros Hf; [simpl; lra|].
  rewrite fmap_cons, Qsum_cons.
  assert (0 <= f x)%Q by (apply Hf; left).
  assert (0 <= Qsum (f <$> l))%Q by (apply IH; intros y Hy; apply Hf; by right).
  lra.
Qed.


Section KernelWeights.

Variables (regions centers : list string) (pop : gmap string num).

Hypothesis Hpop : ∀ r p, pop !! r = Some p → nonneg p.

Let has (r : string) : bool := bool_decide (r ∈ centers).
Let popQ (r : string) : Q := qval (js_or_undef (pop !! r) (Fin 0)).

Lemma pop_value (r : string) :
  js_or_undef (pop !! r) (Fin 0) = Fin (popQ r) ∧ (0 <= popQ r)%Q.
Proof.
  unfold popQ.
  destruct (js_or_undef_pred nonneg (pop !! r) (Fin 0)) as (p & -> & Hp);
    [apply Hpop|apply nonneg_Fin; lra|done].
Qed.

Lemma sumPop_value :
  ∃ T, sumPop regions pop = Fin T ∧ (T == Qsum (popQ <$> regions))%Q.
Proof.
  destruct (fold_js_add_fin (λ r, js_or_undef (pop !! r) (Fin 0)) popQ
              regions 0) as (T & HT & Hsum & _).
  { intros r _. destruct (pop_value r) as [-> _]. by eexists. }
  exists T. split; [done|]. rewrite Hsum. lra.
Qed.

Lemma centerPopulation_value (rs : list string) (acc : Q) :
  ∃ C, fold_left
         (λ cp r, if has r
                  then js_add cp (js_or_undef (pop !! r) (Fin 0)) else cp)
         rs (Fin acc) = Fin C
       ∧ (C == acc + Qsum ((λ r, if has r then popQ r else 0) <$> rs))%Q.
Proof.
  revert acc. induction rs as [|r rs IH]; intros acc.
  - exists acc. split; [done|]. simpl. lra.
  - cbn [fold_left]. rewrite fmap_cons, Qsum_cons.
    destruct (has r).
    + destruct (pop_value r) as [-> _]. cbn [js_add].
      destruct (IH (Qred (acc + popQ r))) as (C & HC & Hsum).
      exists C. split; [done|]. rewrite Hsum, Qred_correct. lra.
    + destruct (IH acc) as (C & HC & Hsum).
      exists C. split; [done|]. rewrite Hsum. lra.
Qed.

Lemma kernelWeights_lookup (r : string) :
  kernelWeights regions centers pop !! r
  = if decide (r ∈ regions)
    then Some (if has r
               then js_or (js_div (js_or_undef (pop !! r) (Fin 0))
                             (centerPopulation has regions pop)) (Fin 0)
               else js_mul (Fin 0.001)
                      (js_div (js_or_undef (pop !! r) (Fin 0))
                         (js_or (sumPop regions pop) (Fin 1))))
    else None.
Proof.
  unfold kernelWeights. cbv zeta. fold has.
  set (w_of := λ r, if has r
                    then js_or (js_div (js_or_undef (pop !! r) (Fin 0))
                                  (centerPopulation has regions pop))
                           (Fin 0)
                    else js_mul (Fin 0.001)
                           (js_div (js_or_undef (pop !! r) (Fin 0))
                              (js_or (sumPop regions pop) (Fin 1)))).
  transitivity
    (fold_left (λ (w : gmap string num) r, <[r := w_of r]> w) regions ∅ !! r).
  - f_equal. subst w_of. generalize (∅ : gmap string num).
    generalize (centerPopulation has regions pop).
    generalize (js_or (sumPop regions pop) (Fin 1)).
    induction regions as [|r0 rs IH]; intros T C m; [reflexivity|].
    cbn [fold_left]. rewrite IH. unfold has. by destruct (bool_decide _).
  - rewrite fold_insert_lookup. by case_decide.
Qed.

(** The weights of a kernel focus whose centers hold some population: the
    centers share [1], the other regions get [0.001] times their share of
    the total population on top of it. *)
Lemma kernelWeights_sum :
  truthy (centerPopulation has regions pop) = true →
  ∃ C T S,
    centerPopulation has regions pop = Fin C
    ∧ sumPop regions pop = Fin T
    ∧ weightSum regions (kernelWeights regions centers pop) = Fin S
    ∧ (0 < C)%Q ∧ (C <= T)%Q
    ∧ (S == 1 + 0.001 * ((T - C) / T))%Q.
Proof.
  intros Htruthy.
  destruct sumPop_value as (T & HT & HTsum).
  destruct (centerPopulation_value regions 0) as (C & HC & HCsum).
  fold (centerPopulation has regions pop) in HC.
  set (hp := λ r, if has r then popQ r else 0%Q) in *.
  set (np := λ r, if has r then 0%Q else popQ r).
  assert (Hhp : (0 <= Qsum (hp <$> regions))%Q).
  { apply Qsum_nonneg. intros r _. subst hp. cbv beta.
    destruct (has r); [apply pop_value|lra]. }
  assert (Hnp : (0 <= Qsum (np <$> regions))%Q).
  { apply Qsum_nonneg. intros r _. subst np. cbv beta.
    destruct (has r); [lra|apply pop_value]. }
  assert (Hsplit : (Qsum (popQ <$> regions)
                    == Qsum (hp <$> regions) + Qsum (np <$> regions))%Q).
  { rewrite (Qsum_ext popQ (λ r, 1 * hp r + 1 * np r)%Q).
    - rewrite Qsum_linear. lra.
    - intros r _. subst hp np. cbv beta. destruct (has r); lra. }
  assert (HC0 : (0 < C)%Q).
  { rewrite HC in Htruthy. simpl in Htruthy.
    apply negb_true_iff in Htruthy.
    assert (¬ (C == 0)%Q) by (intros He%Qeq_bool_iff; congruence). lra. }
  assert (HCT : (C <= T)%Q) by lra.
  destruct (fold_js_add_fin
              (λ r, js_num (kernelWeights regions centers pop !! r))
              (λ r, (1 / C) * hp r + (0.001 / T) * np r)%Q regions 0)
    as (S & HS & HSsum & _).
  { intros r Hr. rewrite kernelWeights_lookup, decide_True by done.
    cbn [js_num default]. unfold id. rewrite HC, HT.
    destruct (pop_value r) as [-> Hp0]. subst hp np. cbv beta.
    destruct (has r).
    - rewrite js_div_Fin by lra.
      exists (qval (js_or (Fin (Qred (popQ r / C))) (Fin 0))). split.
      + unfold js_or. destruct (truthy (Fin (Qred (popQ r / C))));
          reflexivity.
      + rewrite qval_js_or_zero. simpl. rewrite Qred_correct. field. lra.
    - assert (Hor : js_or (Fin T) (Fin 1) = Fin T).
      { unfold js_or, truthy. rewrite Qeq_bool_false; [done|lra]. }
      rewrite Hor, js_div_Fin by lra. cbn [js_mul].
      eexists. split; [done|]. rewrite !Qred_correct. field. lra. }
  exists C, T, S. split_and!; [done..|].
  rewrite HSsum, Qsum_linear.
  assert (HhpC : (Qsum (hp <$> regions) == C)%Q) by lra.
  assert (HnpT : (Qsum (np <$> regions) == T - C)%Q) by lra.
  rewrite HhpC, HnpT. field. lra.
Qed.

End KernelWeights.


(** ** Seeding without seeds *)

Section ZeroSeed.

Variable Math_pow : num → num → num.
Variables (Math_random : nat → num) (theta : Theta) (dp : DensityProvider).
Variables (graph : MobilityGraph) (cfg : SimConfig).

Hypothesis Hfin : FiniteRun Math_pow Math_random theta dp graph cfg.
Hypothesis Hseed : js_eq (seedFraction theta) (Fin 0) = true.

Let regions := listRegions dp.
Let pop := popByRegion cfg.

(** With no population to seed, a region gets the clamped jitter alone:
    at most [0.05] for a draw of [[0, 1]]. *)
Lemma seedRegion_zero_target (weights : gmap string num) (u : num) (r : string) :
  (∀ r w, weights !! r = Some w → finite w) → in01 u →
  js_le (seedRegion weights (js_mul (sumPop regions pop) (seedFraction theta))
           pop u r) (Fin 0.05) = true.
Proof.
  intros Hw (qu & -> & Hu0 & Hu1). unfold seedRegion. cbv zeta.
  pose proof (nonneg_finite _
                (pop_or_zero_nonneg Math_pow Math_random theta dp graph cfg
                   Hfin r)) as Hp.
  pose proof (nonneg_finite _
                (sumPop_nonneg Math_pow Math_random theta dp graph cfg Hfin
                   regions)) as Hs.
  fold pop in Hp, Hs.
  assert (Hfrac :
    js_eq
      (js_min (Fin 1)
         (js_div
            (js_div
               (js_mul (js_or_undef (weights !! r) (Fin 0))
                  (js_mul (sumPop regions pop) (seedFraction theta)))
               (if js_gt (js_or_undef (pop !! r) (Fin 0)) (Fin 0)
                then js_or_undef (pop !! r) (Fin 0) else Fin 1))
            (js_or (js_or_undef (pop !! r) (Fin 0)) (Fin 1))))
      (Fin 0) = true).
  { apply zero_min_nonneg; [apply nonneg_Fin; lra|].
    apply zero_div; [|by apply nonzero_or_one].
    apply zero_div; [|by apply nonzero_positive_or_one].
    apply zero_mul_r; [|by apply zero_mul_r].
    apply js_or_undef_pred; [apply Hw|apply finite_Fin]. }
  apply js_eq_zero_inv in Hfrac as (z & -> & Hz).
  cbn [js_sub js_neg js_add js_mul].
  match goal with |- context [clamp01 (Fin ?x)] => set (v := x) end.
  assert (Hv : (v <= 0.05)%Q).
  { subst v. rewrite !Qred_correct, Hz. lra. }
  unfold clamp01, js_min, js_max. cbn [js_le].
  destruct (Qle_bool_cases 1 v) as [[-> ?]|[-> ?]]; [lra|]. cbn [js_le].
  destruct (Qle_bool_cases 0 v) as [[-> ?]|[-> ?]]; cbn [js_le];
    apply Qle_bool_iff; lra.
Qed.

End ZeroSeed.


(** ** Seeding a region without population *)

(** A region whose population is missing, [0] or [NaN] is seeded as if one
    person lived there: both divisions by [regionPop] divide by [1]. *)
Lemma seedRegion_no_population (weights pop : gmap string num)
    (target u : num) (r : string) :
  js_eq (js_or_undef (pop !! r) (Fin 0)) (Fin 0) = true →
  js_le (Fin 1) (js_mul (js_or_undef (weights !! r) (Fin 0)) target) = true →
  in01 u →
  js_le (Fin 0.95) (seedRegion weights target pop u r) = true.
Proof.
  intros Hpop Hwt (qu & -> & Hu0 & Hu1). unfold seedRegion. cbv zeta.
  apply js_eq_zero_inv in Hpop as (z & -> & Hz).
  assert (Hgt : js_gt (Fin z) (Fin 0) = false).
  { unfold js_gt, js_lt.
    destruct (Qle_bool_cases z 0) as [[-> ?]|[-> ?]]; [done|lra]. }
  assert (Hor : js_or (Fin z) (Fin 1) = Fin 1).
  { unfold js_or, truthy.
    destruct (Qeq_bool z 0) eqn:He; [done|].
    apply Qeq_bool_neq in He. lra. }
  rewrite Hgt, Hor.
  assert (Hfrac :
    js_min (Fin 1)
      (js_div (js_div (js_mul (js_or_undef (weights !! r) (Fin 0)) target)
                 (Fin 1)) (Fin 1)) = Fin 1).
  { destruct (js_mul _ target) as [e| | |]; try done.
    cbn [js_le] in Hwt. apply Qle_bool_iff in Hwt.
    rewrite !js_div_Fin by lra. unfold js_min. cbn [js_le].
    destruct (Qle_bool_cases 1 (Qred (Qred (e / 1) / 1))) as [[-> ?]|[-> H]];
      [done|].
    rewrite !Qred_correct in H. exfalso. revert H. unfold Qdiv.
    change (/ 1)%Q with 1%Q. lra. }
  rewrite Hfrac. cbn [js_sub js_neg js_add js_mul].
  match goal with |- context [clamp01 (Fin ?x)] => set (v := x) end.
  assert (Hv : (0.95 <= v)%Q).
  { subst v. rewrite !Qred_correct. lra. }
  unfold clamp01, js_min, js_max. cbn [js_le].
  destruct (Qle_bool_cases 1 v) as [[-> ?]|[-> ?]]; cbn [js_le].
  - reflexivity.
  - destruct (Qle_bool_cases 0 v) as [[-> ?]|[-> ?]]; cbn [js_le];
      apply Qle_bool_iff; lra.
Qed.

(** X27.  A listed region without population can start almost fully
    adopted.  When its population is missing, [0] or [NaN], the seeding
    divides by [1] instead: if its weight times the target seed population
    is at least [1], its initial adoption is [1] plus the jitter, at least
    [0.95] for draws of [[0, 1]]. *)
Theorem region_without_population_starts_adopted
    Math_pow Math_random theta dp graph cfg res (r : string) :
  runCascadeSimulation Math_pow Math_random theta dp graph cfg = Some res →
  (∀ k, in01 (rngOf Math_random theta cfg k)) →
  js_eq (js_or_undef (popByRegion cfg !! r) (Fin 0)) (Fin 0) = true →
  let weights :=
    computeSpatialFocusWeights (listRegions dp) (spatialFocus theta)
      (popByRegion cfg) in
  let targetSeedPop :=
    js_mul (sumPop (listRegions dp) (popByRegion cfg)) (seedFraction theta) in
  js_le (Fin 1) (js_mul (js_or_undef (weights !! r) (Fin 0)) targetSeedPop)
  = true →
  ∀ a, adoptionAt res 0 r = Some a → js_le (Fin 0.95) a = true.
Proof.
  intros Hrun Hrng Hpop weights targetSeedPop Hwt a. revert Hrun.
  unfold runCascadeSimulation.
  destruct (iterations _) as [n|]; [|done]. simpl. intros [= <-].
  unfold adoptionAt. cbn [history histA]. rewrite !list_lookup_fmap.
  destruct n as [|n]; [done|]. rewrite simLoop_S.
  assert (H0 : ∀ rest : list (Snapshot * Snapshot),
            (if js_eq (num_of_nat 0)
                  (js_floor (js_div (timeHorizon theta) (dt theta)))
             then [snapAt (dt theta) 0 (initialState Math_random theta dp cfg)]
             else snapAt (dt theta) 0 (initialState Math_random theta dp cfg)
                  :: rest) !! 0
            = Some (snapAt (dt theta) 0
                      (initialState Math_random theta dp cfg))).
  { intros rest. by destruct (js_eq (num_of_nat 0) _). }
  rewrite H0. cbn. unfold initializeAdoption.
  fold weights targetSeedPop.
  destruct (seedLoop_lookup cfg weights targetSeedPop
              (rngOf Math_random theta cfg) (listRegions dp) 0 ∅ r)
    as [He|[j Hj]].
  - rewrite He. done.
  - rewrite Hj. intros [= <-].
    by apply seedRegion_no_population.
Qed.

(** ** Runs: the horizon, the provider and the graph *)

Lemma iterations_negative (T : num) :
  js_ge T (Fin 0) = false → T ≠ PInf → iterations T = Some 0.
Proof.
  destruct T as [q| | |]; try done. cbn [js_ge js_le iterations].
  intros Hq _. destruct (Qle_bool_cases 0 q) as [[Hb ?]|[Hb Hlt]];
    [congruence|].
  f_equal. pose proof (Qfloor_le q) as Hfl.
  assert (Hz : (inject_Z (Qfloor q) < inject_Z 0)%Q)
    by (change (inject_Z 0) with 0%Q; lra).
  rewrite <- Zlt_Qlt in Hz. lia.
Qed.

(** X5.  When [floor(timeHorizon / dt)] is not at least [0] (a negative
    quotient, or [NaN] as for [0 / 0]) the loop body never runs: the run
    returns with empty histories, not even the initial snapshot, and the
    metrics keep their initial values. *)
Theorem no_snapshot_unless_step_count_reaches_zero
    Math_pow Math_random theta dp graph cfg :
  js_ge (js_floor (js_div (timeHorizon theta) (dt theta))) (Fin 0) = false →
  ∃ res,
    runCascadeSimulation Math_pow Math_random theta dp graph cfg = Some res
    ∧ histA (history res) = [] ∧ histF (history res) = []
    ∧ metrics res =
        {| globalPeakAdoption := Fin 0; globalPeakFear := Fin 0;
           peakAdoptionTime := None; peakFearTime := None;
           perRegion := initPerRegion (listRegions dp);
           harmfulCascadeOccurred := false |}.
Proof.
  intros HT. unfold runCascadeSimulation.
  rewrite iterations_negative; [|done|].
  - eexists. split; [done|]. by split_and!.
  - intros He. by rewrite He in HT.
Qed.

Section SameExposure.

Variable Math_pow : num → num → num.
Variables (regions : list string) (dp1 dp2 : DensityProvider).
Variables (graph1 graph2 : MobilityGraph).

Hypothesis Hexposure :
  ∀ A signal ap i, i ∈ regions →
    exposureOf Math_pow A dp1 graph1 signal ap i
    = exposureOf Math_pow A dp2 graph2 signal ap i.

Lemma computeExposure_same A signal ap :
  computeExposure Math_pow regions A dp1 graph1 signal ap
  = computeExposure Math_pow regions A dp2 graph2 signal ap.
Proof.
  apply map_eq. intros r. rewrite !computeExposure_lookup.
  case_decide as Hr; [|done]. f_equal. by apply Hexposure.
Qed.

(** The loop reads the provider and the graph through the exposure of the
    listed regions only. *)
Lemma simLoop_same signal dt T cfg (n s : nat) AF :
  simLoop Math_pow regions dp1 graph1 signal dt T cfg n s AF
  = simLoop Math_pow regions dp2 graph2 signal dt T cfg n s AF.
Proof.
  revert s AF. induction n as [|n IH]; intros s AF; [done|].
  rewrite !simLoop_S. destruct (js_eq _ T); [done|]. f_equal.
  rewrite IH. f_equal. unfold stepState.
  by rewrite computeExposure_same.
Qed.

End SameExposure.

(** X6.  A run reads its provider through [listRegions()] and [getDensity(r,
    0)] only: two providers that list the same regions and agree on the
    density of each of them at time [0] give the same result, whatever
    their densities at other times. *)
Theorem run_reads_density_at_time_zero_only
    Math_pow Math_random theta (dp1 dp2 : DensityProvider) graph cfg :
  listRegions dp1 = listRegions dp2 →
  (∀ r, r ∈ listRegions dp1 →
        getDensity dp1 r (Fin 0) = getDensity dp2 r (Fin 0)) →
  runCascadeSimulation Math_pow Math_random theta dp1 graph cfg
  = runCascadeSimulation Math_pow Math_random theta dp2 graph cfg.
Proof.
  intros Hregions Hdensity.
  unfold runCascadeSimulation, initialState. rewrite <- Hregions.
  destruct (iterations _) as [n|]; [|done]. cbn.
  rewrite (simLoop_same Math_pow (listRegions dp1) dp1 dp2 graph graph);
    [done|].
  intros A signal ap i Hi. unfold exposureOf. by rewrite (Hdensity i Hi).
Qed.

Lemma reverseEdges_listed (regions : list string) (graph : MobilityGraph)
    (i : string) :
  i ∈ regions →
  reverseEdgesForRegion i
    ((λ '(from, edges),
        (from, filter (λ edge, to edge ∈ regions) edges)) <$> graph)
  = reverseEdgesForRegion i graph.
Proof.
  intros Hi. unfold reverseEdgesForRegion.
  induction graph as [|[from edges] graph IH]; [done|].
  rewrite fmap_cons. cbn [flat_map]. rewrite IH. f_equal. clear IH.
  induction edges as [|edge edges IH]; [done|].
  rewrite filter_cons. destruct (decide (to edge ∈ regions)) as [Hin|Hout].
  - cbn [flat_map]. by rewrite IH.
  - cbn [flat_map]. rewrite IH.
    destruct (String.eqb_spec (to edge) i) as [He|He]; [|done].
    by rewrite He in Hout.
Qed.

(** X7.  Mobility edges that point to a region the provider does not list are
    ignored without notice: the run is the one of the graph without
    them. *)
Theorem edges_to_unlisted_regions_are_ignored
    Math_pow Math_random theta dp (graph : MobilityGraph) cfg :
  let listed :=
    (λ '(from, edges),
       (from, filter (λ edge, to edge ∈ listRegions dp) edges)) <$> graph in
  runCascadeSimulation Math_pow Math_random theta dp graph cfg
  = runCascadeSimulation Math_pow Math_random theta dp listed cfg.
Proof.
  intros listed. unfold runCascadeSimulation.
  destruct (iterations _) as [n|]; [|done]. cbn.
  rewrite (simLoop_same Math_pow (listRegions dp) dp dp graph listed);
    [done|].
  intros A signal ap i Hi. unfold exposureOf. subst listed.
  by rewrite reverseEdges_listed.
Qed.

(** X8.  Without a generator factory the seed is not read: two parameter
    vectors that differ in [randomSeed] only give the same run (on the same
    ambient draws); and with a factory, a seed that is missing, [0] or
    [NaN] selects the stream of seed [0]. *)
Theorem randomSeed_is_read_by_the_factory_only
    Math_pow Math_random (theta : Theta) (seed : option num) dp graph cfg :
  let reseeded :=
    {| seedFraction := seedFraction theta;
       spatialFocus := spatialFocus theta;
       signalStrength := signalStrength theta;
       timeHorizon := timeHorizon theta;
       dt := dt theta;
       randomSeed := seed |} in
  (rngFactory cfg = None ∨ truthy (js_num (randomSeed theta)) = false
                           ∧ truthy (js_num seed) = false) →
  runCascadeSimulation Math_pow Math_random reseeded dp graph cfg
  = runCascadeSimulation Math_pow Math_random theta dp graph cfg.
Proof.
  intros reseeded Hcase.
  assert (Hrng : rngOf Math_random reseeded cfg = rngOf Math_random theta cfg).
  { unfold rngOf. destruct (rngFactory cfg) as [factory|]; [|done].
    destruct Hcase as [|[H1 H2]]; [done|]. f_equal. subst reseeded.
    cbn [randomSeed]. unfold js_or_undef, js_or.
    destruct (randomSeed theta) as [x|], seed as [y|]; cbn in H1, H2;
      by rewrite ?H1, ?H2. }
  unfold runCascadeSimulation, initialState. by rewrite Hrng.
Qed.

(** ** What every snapshot holds *)

Lemma seedLoop_unlisted (weights : gmap string num) (target : num)
    (pop : gmap string num) (rng : nat → num) (rs : list string) (k : nat)
    (A : gmap string num) (r : string) :
  r ∉ rs → seedLoop weights target pop rng rs k A !! r = A !! r.
Proof.
  revert k A. induction rs as [|r0 rs IH]; intros k A Hr; [done|].
  cbn [seedLoop]. rewrite IH by (intros ?; apply Hr; by right).
  apply lookup_insert_ne. intros ->. apply Hr. left.
Qed.

Section Keys.

Variable Math_pow : num → num → num.
Variables (Math_random : nat → num) (theta : Theta) (dp : DensityProvider).
Variables (graph : MobilityGraph) (cfg : SimConfig).

Let regions := listRegions dp.

(** The two state objects have a property for the listed regions and for
    no other key. *)
Let Listed (AF : gmap string num * gmap string num) : Prop :=
  ∀ r, (is_Some (AF.1 !! r) ↔ r ∈ regions)
       ∧ (is_Some (AF.2 !! r) ↔ r ∈ regions).

Lemma initialState_listed :
  Listed (initialState Math_random theta dp cfg).
Proof.
  intros r. unfold initialState, initializeAdoption, initializeFear.
  cbn [fst snd]. fold regions. split.
  - split.
    + intros Hsome. destruct (decide (r ∈ regions)) as [|Hout]; [done|].
      rewrite seedLoop_unlisted in Hsome by done.
      rewrite lookup_empty in Hsome. by destruct Hsome.
    + intros Hin. apply seedLoop_defined. by left.
  - rewrite fold_insert_lookup. case_decide as Hin.
    + split; [done|]. by eexists.
    + rewrite lookup_empty. split; [by intros [? ?]|done].
Qed.

Lemma stepState_listed (AF : gmap string num * gmap string num) :
  Listed AF →
  Listed (stepState Math_pow regions dp graph (signalStrength theta) cfg AF).
Proof.
  intros HAF r.
  destruct (stepState_lookup Math_pow regions dp graph
              (signalStrength theta) cfg AF r) as [-> ->].
  destruct (HAF r) as [HA HF].
  case_decide as Hr; [|done]. split; (split; [done|by eexists]).
Qed.

Lemma simLoop_listed (T : num) (n s : nat) AF :
  Listed AF →
  Forall (λ snap : Snapshot * Snapshot, Listed (values snap.1, values snap.2))
    (simLoop Math_pow regions dp graph (signalStrength theta) (dt theta) T
       cfg n s AF).
Proof.
  revert s AF. induction n as [|n IH]; intros s [A F] HAF; [constructor|].
  rewrite simLoop_S. destruct (js_eq _ T).
  - apply Forall_cons_2; [exact HAF|apply Forall_nil_2].
  - apply Forall_cons_2; [exact HAF|]. by apply IH, stepState_listed.
Qed.

End Keys.

(** X9.  Every snapshot of the two histories holds a value for each listed
    region and for nothing else: [history.A[k].values[r]] and
    [history.F[k].values[r]] exist exactly when [k] is the index of a
    snapshot and [r] a listed region; and the two histories have the same
    length. *)
Theorem snapshots_hold_the_listed_regions
    Math_pow Math_random theta dp graph cfg res :
  runCascadeSimulation Math_pow Math_random theta dp graph cfg = Some res →
  length (histA (history res)) = length (histF (history res))
  ∧ ∀ k r,
      (is_Some (adoptionAt res k r)
       ↔ k < length (histA (history res)) ∧ r ∈ listRegions dp)
      ∧ (is_Some (fearAt res k r)
         ↔ k < length (histF (history res)) ∧ r ∈ listRegions dp).
Proof.
  unfold runCascadeSimulation.
  destruct (iterations _) as [n|]; [|done]. simpl. intros [= <-].
  cbn [history histA histF]. rewrite !length_fmap. split; [done|].
  intros k r. unfold adoptionAt, fearAt. cbn [history histA histF].
  rewrite !list_lookup_fmap.
  pose proof (simLoop_listed Math_pow theta dp graph cfg
                (js_floor (js_div (timeHorizon theta) (dt theta))) n 0
                (initialState Math_random theta dp cfg)
                (initialState_listed Math_random theta dp cfg)) as Hall.
  rewrite Forall_lookup in Hall.
  destruct (simLoop _ _ _ _ _ _ _ _ _ _ _ !! k) as [snap|] eqn:Hk.
  - apply lookup_lt_Some in Hk as Hlt. destruct (Hall k snap Hk r) as [HA HF].
    cbn in HA, HF |- *. rewrite HA, HF. tauto.
  - apply lookup_ge_None in Hk. cbn.
    split; (split; [by intros [? ?]|lia]).
Qed.

(** ** From one snapshot to the next *)

Section Consecutive.

Variable Math_pow : num → num → num.
Variables (Math_random : nat → num) (theta : Theta) (dp : DensityProvider).
Variables (graph : MobilityGraph) (cfg : SimConfig).

Hypothesis Hfin : FiniteRun Math_pow Math_random theta dp graph cfg.

Let regions := listRegions dp.
Let step := stepState Math_pow regions dp graph (signalStrength theta) cfg.

(** Two consecutive snapshots hold a state that satisfies the invariant
    and the state one pass of the loop body makes of it. *)
Lemma simLoop_consecutive (T : num) (n s : nat) AF (k : nat)
    (sa sb : Snapshot * Snapshot) :
  StateOk regions AF →
  simLoop Math_pow regions dp graph (signalStrength theta) (dt theta) T cfg
    n s AF !! k = Some sa →
  simLoop Math_pow regions dp graph (signalStrength theta) (dt theta) T cfg
    n s AF !! S k = Some sb →
  ∃ AF', StateOk regions AF'
         ∧ (values sa.1, values sa.2) = AF'
         ∧ (values sb.1, values sb.2) = step AF'.
Proof.
  revert s AF k. induction n as [|n IH]; intros s AF k Hok; [done|].
  rewrite simLoop_S. destruct (js_eq _ T).
  { by destruct k. }
  destruct k as [|k]; cbn [lookup list_lookup].
  - intros [= <-]. destruct n as [|n]; [done|].
    rewrite simLoop_S.
    assert (H0 : ∀ (x : Snapshot * Snapshot) (b : bool) rest,
              (if b then [x] else x :: rest) !! 0 = Some x)
      by (by intros x [] rest).
    rewrite H0. intros [= <-]. exists AF. split; [done|]. cbn. subst step.
    split; [by destruct AF|by destruct (stepState _ _ _ _ _ _ AF)].
  - apply IH.
    by apply (stepState_ok Math_pow Math_random theta dp graph cfg Hfin).
Qed.

Lemma run_consecutive res (k : nat) (r : string) :
  InitialFearNonneg cfg →
  runCascadeSimulation Math_pow Math_random theta dp graph cfg = Some res →
  is_Some (histA (history res) !! S k) →
  ∃ AF, StateOk regions AF
        ∧ (is_Some (AF.1 !! r) ∨ is_Some (AF.2 !! r) → r ∈ regions)
        ∧ adoptionAt res k r = AF.1 !! r
        ∧ fearAt res k r = AF.2 !! r
        ∧ adoptionAt res (S k) r = (step AF).1 !! r
        ∧ fearAt res (S k) r = (step AF).2 !! r.
Proof.
  intros Hfear0. unfold runCascadeSimulation.
  destruct (iterations _) as [n|]; [|done]. simpl. intros [= <-].
  unfold adoptionAt, fearAt. cbn [history histA histF].
  rewrite !list_lookup_fmap.
  destruct (simLoop _ _ _ _ _ _ _ _ _ _ _ !! S k) as [sb|] eqn:HSk;
    [|by intros [? ?]].
  intros _.
  destruct (simLoop _ _ _ _ _ _ _ _ _ _ _ !! k) as [sa|] eqn:Hk.
  2:{ apply lookup_ge_None in Hk. apply lookup_lt_Some in HSk. lia. }
  destruct (simLoop_consecutive _ _ _ _ _ sa sb
              (initialState_ok Math_pow Math_random theta dp graph cfg Hfin
                 Hfear0) Hk HSk) as (AF & Hok & Ha & Hb).
  pose proof (simLoop_listed Math_pow theta dp graph cfg
                (js_floor (js_div (timeHorizon theta) (dt theta))) n 0
                (initialState Math_random theta dp cfg)
                (initialState_listed Math_random theta dp cfg)) as Hall.
  rewrite Forall_lookup in Hall. destruct (Hall k sa Hk r) as [HlA HlF].
  rewrite Ha in HlA, HlF.
  exists AF. split; [done|]. split; [intros [?|?]; tauto|]. cbn.
  rewrite <- Hb, <- Ha. done.
Qed.

End Consecutive.

(** ** Runs without signal *)

Section ZeroSignal.

Variable Math_pow : num → num → num.
Variables (Math_random : nat → num) (theta : Theta) (dp : DensityProvider).
Variables (graph : MobilityGraph) (cfg : SimConfig).

Hypothesis Hfin : FiniteRun Math_pow Math_random theta dp graph cfg.
Hypothesis Hsignal : js_eq (signalStrength theta) (Fin 0) = true.
Hypothesis Hrate : nonneg (param (adoptionParams cfg) maxRate (Fin 0.2)).

Let regions := listRegions dp.
Let ap := adoptionParams cfg.
Let step := stepState Math_pow regions dp graph (signalStrength theta) cfg.
Let loop :=
  simLoop Math_pow regions dp graph (signalStrength theta) (dt theta).

Section State.

Variable AF : gmap string num * gmap string num.
Hypothesis Hok : StateOk regions AF.

Let exposure :=
  computeExposure Math_pow regions AF.1 dp graph (signalStrength theta) ap.

Lemma exposure_zero (r : string) :
  js_eq (js_or_undef (exposure !! r) (Fin 0)) (Fin 0) = true.
Proof.
  apply zero_or_undef. intros x. subst exposure.
  rewrite computeExposure_lookup. case_decide as Hr; [|done].
  intros Hx. eapply (Some_pred (λ x, js_eq x (Fin 0) = true)); [exact Hx|].
  pose proof (exposureOf_finite Math_pow Math_random theta dp graph cfg
                Hfin AF Hok r Hr) as He.
  unfold exposureOf in *. by apply zero_mul_finite.
Qed.

(** Without exposure the growth [rawGrowth] of a listed region is zero. *)
Lemma rawGrowth_zero (r : string) :
  r ∈ regions →
  ∃ z, js_eq z (Fin 0) = true
       ∧ adoptionDelta cfg AF.1 AF.2 exposure r
         = js_min (param ap maxRate (Fin 0.2)) z.
Proof.
  intros Hr. destruct (state_values dp AF Hok r Hr) as [Ha Hf].
  unfold adoptionDelta, adoptionIncrement. fold ap.
  pose proof (fr_fearSensitivity _ _ _ _ _ _ Hfin) as Hfs. fold ap in Hfs.
  eexists. split; [|reflexivity].
  apply zero_mul_l; [|auto with jsnum].
  apply zero_mul_l; [|auto with jsnum].
  apply zero_mul_l; [apply exposure_zero|].
  apply (adoption_param_finite Math_pow Math_random theta dp graph cfg Hfin);
    [in_fields|apply finite_Fin].
Qed.

Lemma adoptionDelta_zero (r : string) :
  r ∈ regions →
  js_eq (adoptionDelta cfg AF.1 AF.2 exposure r) (Fin 0) = true.
Proof.
  intros Hr. destruct (rawGrowth_zero r Hr) as (z & Hz & ->).
  by apply zero_min_nonneg.
Qed.

Lemma stepState_frozen (r : string) (a : num) :
  AF.1 !! r = Some a →
  ∃ a', (step AF).1 !! r = Some a' ∧ js_eq a' a = true.
Proof.
  intros Ha. subst step.
  destruct (stepState_lookup Math_pow regions dp graph
              (signalStrength theta) cfg AF r) as [-> _].
  destruct Hok as (_ & HA & _). specialize (HA r a Ha).
  case_decide as Hr.
  - eexists. split; [done|]. unfold updatedA. rewrite Ha.
    cbn [js_num default]. apply clamp01_add_zero; [done|].
    by apply adoptionDelta_zero.
  - exists a. split; [done|]. by apply js_eq_refl_finite, in01_finite.
Qed.

(** With nothing to drive it (no exposure, no growth, no harm weights)
    the fear of a listed region loses [decay * F[r]], down to the floor. *)
Lemma updatedF_decay (r : string) (f : num) :
  harmWeights cfg = None → r ∈ regions → AF.2 !! r = Some f →
  js_eq (updatedF cfg AF.1 AF.2 exposure r)
        (js_max (Fin 0)
           (js_sub f (js_mul (param (fearParams cfg) decay (Fin 0.05)) f)))
  = true.
Proof.
  intros Hharm Hr Hf. destruct (state_values dp AF Hok r Hr) as [Ha Hfn].
  rewrite Hf in Hfn. cbn [js_num default] in Hfn.
  unfold updatedF. cbv zeta. rewrite Hf. cbn [js_num default].
  unfold fearIncrement. cbv zeta.
  pose proof (fear_param_finite Math_pow Math_random theta dp graph cfg Hfin)
    as Hfp.
  assert (Hdriver :
    js_eq (js_add
             (js_add
                (js_mul (param (fearParams cfg) kExposure (Fin 0.1))
                   (js_or_undef (exposure !! r) (Fin 0)))
                (js_mul (param (fearParams cfg) kGrowth (Fin 0.5))
                   (js_max (Fin 0)
                      (adoptionDelta cfg AF.1 AF.2 exposure r))))
             (js_mul (param (fearParams cfg) kHarm (Fin 1))
                (computeHarmSignal r AF.1 AF.2 exposure cfg)))
          (Fin 0) = true).
  { apply zero_add; [apply zero_add|].
    - apply zero_mul_r; [|apply exposure_zero].
      apply Hfp; [in_fields|apply finite_Fin].
    - apply zero_mul_r; [apply Hfp; [in_fields|apply finite_Fin]|].
      destruct (rawGrowth_zero r Hr) as (z & Hz & ->).
      apply zero_max_min; [|done].
      apply (adoption_param_finite Math_pow Math_random theta dp graph cfg
               Hfin); [in_fields|apply finite_Fin].
    - apply zero_mul_r; [apply Hfp; [in_fields|apply finite_Fin]|].
      unfold computeHarmSignal. cbv zeta. rewrite Hharm.
      cbn [mbind option_bind js_or_undef].
      pose proof (in01_finite _ (adoption_or_zero_in01 dp AF Hok r)).
      pose proof (nonneg_finite _ (fear_or_zero_nonneg dp AF Hok r)).
      pose proof (exposureOf_finite Math_pow Math_random theta dp graph cfg
                    Hfin AF Hok r Hr).
      apply zero_add; [apply zero_add|]; apply zero_mul_l; try done.
      apply (js_or_undef_pred finite); [|apply finite_Fin].
      intros x. subst exposure. rewrite computeExposure_lookup.
      rewrite decide_True by done. by intros [= <-]. }
  apply floor_of_decay; [auto with jsnum| |].
  - destruct (_ && _); [|done]. apply zero_mul_l; [done|].
    apply Hfp; [in_fields|apply finite_Fin].
  - apply finite_mul; [|auto with jsnum].
    apply Hfp; [in_fields|apply finite_Fin].
Qed.

End State.

Lemma simLoop_frozen (T : num) (n s : nat) AF :
  StateOk regions AF →
  ∀ k snap r a0 a,
    loop T cfg n s AF !! k = Some snap →
    AF.1 !! r = Some a0 → values snap.1 !! r = Some a →
    js_eq a a0 = true.
Proof.
  revert s AF. induction n as [|n IH]; intros s AF Hok k snap r a0 a;
    [done|].
  assert (Hhere : ∀ a, values (snapAt (dt theta) s AF).1 !! r = Some a →
            AF.1 !! r = Some a0 → js_eq a a0 = true).
  { simpl. intros a' Ha' Ha0. simplify_eq.
    destruct Hok as (_ & HA & _). by eapply js_eq_refl_finite, in01_finite, HA. }
  unfold loop. rewrite simLoop_S. destruct (js_eq _ T).
  { destruct k as [|k]; [|done]. intros [= <-] Ha0 Ha. by apply Hhere. }
  destruct k as [|k]; cbn [lookup list_lookup].
  - intros [= <-] Ha0 Ha. by apply Hhere.
  - intros Hk Ha0 Ha.
    destruct (stepState_frozen AF Hok r a0 Ha0) as (a1 & Ha1 & He).
    eapply js_eq_trans; [|exact He].
    eapply (IH (S s) (step AF)); [|exact Hk|exact Ha1|exact Ha].
    by apply (stepState_ok Math_pow Math_random theta dp graph cfg Hfin).
Qed.

End ZeroSignal.


(** ** The cap on growth, the decay of fear *)

Lemma clamp01_add_le (a d m : num) :
  in01 a → finite d → nonneg m → js_le d m = true →
  js_le (clamp01 (js_add a d)) (js_add a m) = true.
Proof.
  intros (qa & -> & H0 & H1) [qd ->] (qm & -> & Hm). cbn [js_le js_add].
  intros Hle%Qle_bool_iff.
  assert (Hs : (Qred (qa + qd) <= Qred (qa + qm))%Q)
    by (rewrite !Qred_correct; lra).
  assert (Hp : (0 <= Qred (qa + qm))%Q) by (rewrite Qred_correct; lra).
  unfold clamp01, js_min, js_max. cbn [js_le].
  destruct (Qle_bool_cases 1 (Qred (qa + qd))) as [[-> ?]|[-> ?]];
    cbn [js_le].
  - change (Qle_bool 0 1) with true. cbn [js_le]. apply Qle_bool_iff. lra.
  - destruct (Qle_bool_cases 0 (Qred (qa + qd))) as [[-> ?]|[-> ?]];
      cbn [js_le]; apply Qle_bool_iff; lra.
Qed.

Lemma js_min_le_l (m x : num) :
  finite m → finite (js_min m x) → js_le (js_min m x) m = true.
Proof.
  intros [a ->] [q Hq]. destruct x as [b| | |]; try done.
  - unfold js_min. cbn [js_le].
    destruct (Qle_bool_cases a b) as [[-> ?]|[-> ?]]; cbn [js_le];
      apply Qle_bool_iff; lra.
  - cbn. apply Qle_bool_iff. lra.
Qed.



(** ** The peaks of [computeSimulationMetrics] *)

Lemma fold_alter_lookup {V} (g : string → V → V) (rs : list string)
    (m : gmap string V) (r : string) :
  (∀ x, g r (g r x) = g r x) →
  fold_left (λ pr r, alter (g r) r pr) rs m !! r
  = if decide (r ∈ rs) then g r <$> m !! r else m !! r.
Proof.
  intros Hidem. revert m. induction rs as [|r0 rs IH]; intros m; [done|].
  cbn [fold_left]. rewrite IH, lookup_alter.
  destruct (decide (r0 = r)) as [->|Hne].
  - rewrite (decide_True (P := r ∈ r :: rs)) by left.
    case_decide; [|done]. destruct (m !! r); simpl; [|done].
    by rewrite Hidem.
  - destruct (decide (r ∈ rs)) as [Hin|Hin].
    + by rewrite decide_True by (by right).
    + rewrite decide_False; [done|].
      intros [?|?]%elem_of_cons; [congruence|done].
Qed.

Lemma fold_insert_const_lookup {V} (v : V) (rs : list string)
    (m : gmap string V) (r : string) :
  fold_left (λ pr r0, <[r0 := v]> pr) rs m !! r
  = if decide (r ∈ rs) then Some v else m !! r.
Proof.
  revert m. induction rs as [|r0 rs IH]; intros m; [done|].
  cbn [fold_left]. rewrite IH.
  destruct (decide (r ∈ rs)) as [Hin|Hin].
  - by rewrite decide_True by (by right).
  - destruct (decide (r0 = r)) as [->|Hne].
    + rewrite decide_True by left. apply lookup_insert_eq.
    + rewrite decide_False by (intros [?|?]%elem_of_cons; congruence).
      by rewrite lookup_insert_ne.
Qed.

(** One region of one snapshot, seen from the scan of its adoption values
    and from the scan of its fear values. *)
Lemma bumpAdoption_scan (t a : num) (p : RegionPeak) :
  let p' := bumpAdoption t a p in
  (r_peakAdoptionTime p', r_peakAdoption p')
  = (if js_gt a (r_peakAdoption p) then (Some t, a)
     else (r_peakAdoptionTime p, r_peakAdoption p))
  ∧ r_peakFearTime p' = r_peakFearTime p ∧ r_peakFear p' = r_peakFear p.
Proof. unfold bumpAdoption. by destruct (js_gt a _). Qed.

Lemma bumpFear_scan (t f : num) (p : RegionPeak) :
  let p' := bumpFear t f p in
  (r_peakFearTime p', r_peakFear p')
  = (if js_gt f (r_peakFear p) then (Some t, f)
     else (r_peakFearTime p, r_peakFear p))
  ∧ r_peakAdoptionTime p' = r_peakAdoptionTime p
  ∧ r_peakAdoption p' = r_peakAdoption p.
Proof. unfold bumpFear. by destruct (js_gt f _). Qed.

Lemma bump_idemp (t a f : num) (p : RegionPeak) :
  let bump := λ p, bumpFear t f (bumpAdoption t a p) in
  bump (bump p) = bump p.
Proof.
  destruct p as [pa pf ta tf]. unfold bumpFear, bumpAdoption. cbn.
  destruct (js_gt a pa) eqn:Ha; cbn;
    destruct (js_gt f pf) eqn:Hf; cbn;
    rewrite ?js_gt_irrefl, ?Ha, ?Hf; cbn;
    by rewrite ?js_gt_irrefl, ?Ha, ?Hf.
Qed.

Section Peaks.

Variables (regions : list string) (popByRegion : gmap string num).
Variable popTotal : num.

(** The values of one pair of snapshots: the adoption and the fear the
    scans read for a region, and the two population-weighted averages. *)
Let a_at (r : string) (snap : Snapshot * Snapshot) : num :=
  js_or_undef (values snap.1 !! r) (Fin 0).
Let f_at (r : string) (snap : Snapshot * Snapshot) : num :=
  js_or_undef (values snap.2 !! r) (Fin 0).
Let weighted (value : string → Snapshot * Snapshot → num)
    (snap : Snapshot * Snapshot) : num :=
  js_div
    (fold_left
       (λ s r, js_add s (js_mul (value r snap)
                           (js_or_undef (popByRegion !! r) (Fin 0))))
       regions (Fin 0))
    popTotal.
Let bump (snap : Snapshot * Snapshot) (r : string) (p : RegionPeak)
    : RegionPeak :=
  bumpFear (t snap.1) (f_at r snap) (bumpAdoption (t snap.1) (a_at r snap) p).
Let step (st : option num * num) (it : num * num) : option num * num :=
  if js_gt it.2 st.2 then (Some it.1, it.2) else st.

Lemma regionPeaks_split (rs : list string) (snap : Snapshot * Snapshot)
    (totA totF : num) (pr : gmap string RegionPeak) :
  regionPeaks rs (t snap.1) (values snap.1) (values snap.2) popByRegion
    totA totF pr
  = (fold_left
       (λ s r, js_add s (js_mul (a_at r snap)
                           (js_or_undef (popByRegion !! r) (Fin 0))))
       rs totA,
     fold_left
       (λ s r, js_add s (js_mul (f_at r snap)
                           (js_or_undef (popByRegion !! r) (Fin 0))))
       rs totF,
     fold_left (λ pr r, alter (bump snap r) r pr) rs pr).
Proof.
  revert totA totF pr. induction rs as [|r rs IH]; intros totA totF pr;
    [done|].
  cbn [regionPeaks fold_left]. by rewrite IH.
Qed.

Lemma peakLoop_spec (snaps : list (Snapshot * Snapshot)) (s : PeakState) :
  let s' := peakLoop snaps regions popByRegion popTotal s in
  (ps_peakAdoptionTime s', ps_globalPeakAdoption s')
  = fold_left step ((λ snap, (t snap.1, weighted a_at snap)) <$> snaps)
      (ps_peakAdoptionTime s, ps_globalPeakAdoption s)
  ∧ (ps_peakFearTime s', ps_globalPeakFear s')
    = fold_left step ((λ snap, (t snap.1, weighted f_at snap)) <$> snaps)
        (ps_peakFearTime s, ps_globalPeakFear s)
  ∧ ∀ r, ps_perRegion s' !! r
         = if decide (r ∈ regions)
           then (λ p, fold_left (λ p snap, bump snap r p) snaps p)
                <$> ps_perRegion s !! r
           else ps_perRegion s !! r.
Proof.
  revert s. induction snaps as [|[sA sF] snaps IH]; intros s.
  { simpl. split_and!; [done..|]. intros r. case_decide; [|done].
    by destruct (ps_perRegion s !! r). }
  cbn [peakLoop].
  pose proof (regionPeaks_split regions (sA, sF) (Fin 0) (Fin 0)
                (ps_perRegion s)) as Hsplit.
  cbn [fst snd] in Hsplit. rewrite Hsplit. clear Hsplit.
  match goal with |- context [peakLoop snaps _ _ _ ?st] =>
    destruct (IH st) as (HA & HF & Hpr) end.
  cbn [ps_peakAdoptionTime ps_globalPeakAdoption ps_peakFearTime
       ps_globalPeakFear ps_perRegion] in *.
  cbv zeta. rewrite HA, HF. clear HA HF.
  rewrite !fmap_cons. cbn [fold_left].
  split_and!.
  - f_equal. unfold step, weighted, a_at. cbn [fst snd].
    by destruct (js_gt _ (ps_globalPeakAdoption s)).
  - f_equal. unfold step, weighted, f_at. cbn [fst snd].
    by destruct (js_gt _ (ps_globalPeakFear s)).
  - intros r. rewrite Hpr. clear Hpr.
    rewrite (fold_alter_lookup (bump (sA, sF)))
      by (intros x; apply bump_idemp).
    case_decide; [|done].
    by destruct (ps_perRegion s !! r).
Qed.

Lemma bump_fold_scan (snaps : list (Snapshot * Snapshot)) (r : string)
    (p : RegionPeak) :
  let p' := fold_left (λ p snap, bump snap r p) snaps p in
  (r_peakAdoptionTime p', r_peakAdoption p')
  = fold_left step ((λ snap, (t snap.1, a_at r snap)) <$> snaps)
      (r_peakAdoptionTime p, r_peakAdoption p)
  ∧ (r_peakFearTime p', r_peakFear p')
    = fold_left step ((λ snap, (t snap.1, f_at r snap)) <$> snaps)
        (r_peakFearTime p, r_peakFear p).
Proof.
  revert p. induction snaps as [|snap snaps IH]; intros p; [done|].
  rewrite !fmap_cons. cbn [fold_left].
  destruct (IH (bump snap r p)) as [-> ->].
  destruct (bumpAdoption_scan (t snap.1) (a_at r snap) p) as (HA & HAf & HAF).
  destruct (bumpFear_scan (t snap.1) (f_at r snap)
              (bumpAdoption (t snap.1) (a_at r snap) p)) as (HF & HFa & HFA).
  cbv zeta in *. unfold bump. split; f_equal.
  - rewrite HFa, HFA, HA. done.
  - rewrite HF, HAf, HAF. done.
Qed.

(** What a scan from [(null, 0)] records: no value is above the peak; the
    peak is [0] with no time when no value is above [0], and otherwise it is
    the value of the first snapshot that no other exceeds, recorded with
    the time of that snapshot. *)
Lemma peak_scan (snaps : list (Snapshot * Snapshot))
    (value : Snapshot * Snapshot → num) (time : option num) (peak : num) :
  (time, peak)
  = fold_left step ((λ snap, (t snap.1, value snap)) <$> snaps)
      (None, Fin 0) →
  (∀ snap, snap ∈ snaps → js_gt (value snap) peak = false)
  ∧ (peak = Fin 0 ∧ time = None
     ∨ ∃ i snap,
         snaps !! i = Some snap ∧ peak = value snap
         ∧ time = Some (t snap.1) ∧ js_gt peak (Fin 0) = true
         ∧ ∀ j snap', j < i → snaps !! j = Some snap' →
                      js_ge (value snap') peak = false).
Proof.
  intros Hfold.
  destruct (scan_spec ((λ snap, (t snap.1, value snap)) <$> snaps)
              None (Fin 0)) as (_ & Hdom & Hcase); [done|].
  fold step in Hdom, Hcase. rewrite <- Hfold in Hdom, Hcase.
  cbn [fst snd] in *. split.
  - intros snap Hsnap. apply (Hdom (t snap.1, value snap)).
    apply list_elem_of_fmap. by exists snap.
  - destruct Hcase as [[= -> ->]|(i & it & Hi & [= -> ->] & Hgt & Hbefore)];
      [by left|right].
    apply list_lookup_fmap_Some in Hi as (snap & -> & Hi).
    cbn [fst snd] in *. exists i, snap. split_and!; [done..|].
    intros j snap' Hj Hsnap'.
    apply (Hbefore j (t snap'.1, value snap') Hj).
    by rewrite list_lookup_fmap, Hsnap'.
Qed.

End Peaks.

(** X13.  The global peaks of a run that returns.  [globalPeakAdoption] is
    the greatest population-weighted average adoption of a snapshot, and
    [0] when no average is above [0]: no snapshot has an average above it,
    and it is recorded with the time of the first snapshot that reaches it
    ([peakAdoptionTime] is [null] exactly when the peak is the initial
    [0]).  The same holds of [globalPeakFear] and [peakFearTime]. *)
Theorem global_peaks_are_first_maxima
    Math_pow Math_random theta dp graph cfg res :
  runCascadeSimulation Math_pow Math_random theta dp graph cfg = Some res →
  let m := metrics res in
  let snaps := snapshots (history res) in
  let regions := listRegions dp in
  let pop := popByRegion cfg in
  let popTotal := js_or (sumPop regions pop) (Fin 1) in
  let average (value : string → Snapshot * Snapshot → num) snap :=
    js_div
      (fold_left
         (λ s r, js_add s (js_mul (value r snap)
                             (js_or_undef (pop !! r) (Fin 0))))
         regions (Fin 0))
      popTotal in
  let avgAdoption :=
    average (λ r snap, js_or_undef (values snap.1 !! r) (Fin 0)) in
  let avgFear :=
    average (λ r snap, js_or_undef (values snap.2 !! r) (Fin 0)) in
  let peakOf (value : Snapshot * Snapshot → num) peak time :=
    (∀ snap, snap ∈ snaps → js_gt (value snap) peak = false)
    ∧ (peak = Fin 0 ∧ time = None
       ∨ ∃ i snap,
           snaps !! i = Some snap ∧ peak = value snap
           ∧ time = Some (t snap.1) ∧ js_gt peak (Fin 0) = true
           ∧ ∀ j snap', j < i → snaps !! j = Some snap' →
                        js_ge (value snap') peak = false) in
  peakOf avgAdoption (globalPeakAdoption m) (peakAdoptionTime m)
  ∧ peakOf avgFear (globalPeakFear m) (peakFearTime m).
Proof.
  intros Hrun m snaps regions pop popTotal average avgAdoption avgFear peakOf.
  subst m. rewrite (run_metrics _ _ _ _ _ _ _ Hrun).
  unfold computeSimulationMetrics. cbv zeta.
  cbn [globalPeakAdoption globalPeakFear peakAdoptionTime peakFearTime].
  fold regions pop popTotal snaps.
  match goal with |- context [peakLoop snaps regions pop popTotal ?s0] =>
    destruct (peakLoop_spec regions pop popTotal snaps s0) as (HA & HF & _)
  end.
  cbn [ps_peakAdoptionTime ps_globalPeakAdoption ps_peakFearTime
       ps_globalPeakFear] in HA, HF.
  split; apply peak_scan; [exact HA|exact HF].
Qed.

(** X14.  The peaks of a region, in a run that returns.  For a listed
    region, [perRegion[r]] holds the greatest adoption the region has in a
    snapshot ([0] when none is above [0]) with the time of the first
    snapshot that reaches it, and likewise the greatest fear; a time is
    [null] exactly when its peak is the initial [0]. *)
Theorem per_region_peaks_are_first_maxima
    Math_pow Math_random theta dp graph cfg res (r : string) :
  runCascadeSimulation Math_pow Math_random theta dp graph cfg = Some res →
  r ∈ listRegions dp →
  let snaps := snapshots (history res) in
  let adoption (snap : Snapshot * Snapshot) :=
    js_or_undef (values snap.1 !! r) (Fin 0) in
  let fear (snap : Snapshot * Snapshot) :=
    js_or_undef (values snap.2 !! r) (Fin 0) in
  let peakOf (value : Snapshot * Snapshot → num) peak time :=
    (∀ snap, snap ∈ snaps → js_gt (value snap) peak = false)
    ∧ (peak = Fin 0 ∧ time = None
       ∨ ∃ i snap,
           snaps !! i = Some snap ∧ peak = value snap
           ∧ time = Some (t snap.1) ∧ js_gt peak (Fin 0) = true
           ∧ ∀ j snap', j < i → snaps !! j = Some snap' →
                        js_ge (value snap') peak = false) in
  ∃ p, perRegion (metrics res) !! r = Some p
       ∧ peakOf adoption (r_peakAdoption p) (r_peakAdoptionTime p)
       ∧ peakOf fear (r_peakFear p) (r_peakFearTime p).
Proof.
  intros Hrun Hr snaps adoption fear peakOf.
  rewrite (run_metrics _ _ _ _ _ _ _ Hrun).
  unfold computeSimulationMetrics. cbv zeta. cbn [perRegion].
  fold snaps.
  match goal with |- context [peakLoop snaps ?regions ?pop ?T ?s0] =>
    destruct (peakLoop_spec regions pop T snaps s0) as (_ & _ & Hpr)
  end.
  cbn [ps_perRegion] in Hpr. rewrite Hpr, decide_True by done. clear Hpr.
  unfold initPerRegion. rewrite fold_insert_const_lookup, decide_True by done.
  cbn [fmap option_fmap option_map].
  eexists. split; [done|].
  match goal with |- context [fold_left ?f snaps ?p0] =>
    destruct (bump_fold_scan snaps r p0) as [HA HF]
  end.
  cbn [r_peakAdoptionTime r_peakAdoption r_peakFearTime r_peakFear]
    in HA, HF.
  split; apply peak_scan; [exact HA|exact HF].
Qed.

(** ** The peaks of a run on finite inputs *)

Lemma Qsum_le {X} (f g : X → Q) (l : list X) :
  (∀ x, x ∈ l → (f x <= g x)%Q) → (Qsum (f <$> l) <= Qsum (g <$> l))%Q.
Proof.
  induction l as [|x l IH]; intros Hfg; [simpl; lra|].
  rewrite !fmap_cons, !Qsum_cons.
  assert (f x <= g x)%Q by (apply Hfg; left).
  assert (Qsum (f <$> l) <= Qsum (g <$> l))%Q
    by (apply IH; intros y Hy; apply Hfg; by right).
  lra.
Qed.

Section Averages.

Variables (regions : list string) (pop : gmap string num).
Hypothesis Hpop : ∀ r p, pop !! r = Some p → nonneg p.

Let popTotal := js_or (sumPop regions pop) (Fin 1).
Let popQ (r : string) : Q := qval (js_or_undef (pop !! r) (Fin 0)).

(** The weighted sum of non-negative values, and its quotient by the total
    population. *)
Lemma weighted_sum (value : string → num) :
  (∀ r, nonneg (value r)) →
  ∃ X, fold_left
         (λ s r, js_add s (js_mul (value r) (js_or_undef (pop !! r) (Fin 0))))
         regions (Fin 0) = Fin X
       ∧ (X == Qsum ((λ r, qval (value r) * popQ r) <$> regions))%Q.
Proof.
  intros Hv.
  destruct (fold_js_add_fin
              (λ r, js_mul (value r) (js_or_undef (pop !! r) (Fin 0)))
              (λ r, qval (value r) * popQ r)%Q regions 0)
    as (X & HX & Hsum & _).
  { intros r _. destruct (Hv r) as (q & -> & _).
    destruct (pop_value pop Hpop r) as [-> _]. cbn [js_mul qval].
    eexists. split; [done|]. apply Qred_correct. }
  exists X. split; [done|]. rewrite Hsum. lra.
Qed.

Lemma popTotal_positive :
  ∃ T P, sumPop regions pop = Fin T ∧ popTotal = Fin P ∧ (0 <= T)%Q
         ∧ (0 < P)%Q ∧ (T <= P)%Q.
Proof.
  destruct (sumPop_value regions pop Hpop) as (T & HT & HTsum).
  assert (HT0 : (0 <= T)%Q).
  { rewrite HTsum. apply Qsum_nonneg. intros r _.
    apply (pop_value pop Hpop). }
  unfold popTotal. rewrite HT. unfold js_or, truthy.
  destruct (Qeq_bool T 0) eqn:Hz; cbn [negb].
  - apply Qeq_bool_iff in Hz. exists T, 1%Q. split_and!; [done..|lra|lra].
  - exists T, T. split_and!; [done..| |lra].
    assert (¬ (T == 0)%Q) by (intros He%Qeq_bool_iff; congruence). lra.
Qed.

Lemma average_nonneg (value : string → num) :
  (∀ r, nonneg (value r)) →
  nonneg
    (js_div
       (fold_left
          (λ s r, js_add s (js_mul (value r)
                              (js_or_undef (pop !! r) (Fin 0))))
          regions (Fin 0))
       popTotal).
Proof.
  intros Hv. destruct (weighted_sum value Hv) as (X & -> & HX).
  destruct popTotal_positive as (T & P & _ & -> & _ & HP & _).
  assert (HX0 : (0 <= X)%Q).
  { rewrite HX. apply Qsum_nonneg. intros r _.
    destruct (Hv r) as (q & -> & Hq).
    apply Qmult_le_0_compat; [done|apply (pop_value pop Hpop)]. }
  rewrite js_div_Fin by lra. eexists. split; [done|].
  rewrite Qred_correct. apply Qle_shift_div_l; lra.
Qed.

Lemma average_in01 (value : string → num) :
  (∀ r, in01 (value r)) →
  in01
    (js_div
       (fold_left
          (λ s r, js_add s (js_mul (value r)
                              (js_or_undef (pop !! r) (Fin 0))))
          regions (Fin 0))
       popTotal).
Proof.
  intros Hv.
  destruct (weighted_sum value (λ r, in01_nonneg _ (Hv r))) as (X & HXe & HX).
  destruct (average_nonneg value (λ r, in01_nonneg _ (Hv r)))
    as (q & Hq & Hq0).
  exists q. split; [done|]. split; [done|].
  rewrite HXe in Hq.
  destruct popTotal_positive as (T & P & HT & HP & HT0 & HP0 & HTP).
  rewrite HP in Hq. rewrite js_div_Fin in Hq by lra. injection Hq as <-.
  rewrite Qred_correct.
  assert (HXT : (X <= T)%Q).
  { destruct (sumPop_value regions pop Hpop) as (T' & HT' & HTsum).
    rewrite HT in HT'. injection HT' as <-.
    rewrite HX, HTsum. apply Qsum_le. intros r _.
    destruct (Hv r) as (a & -> & Ha0 & Ha1). cbn [qval].
    destruct (pop_value pop Hpop r) as [_ Hp]. fold (popQ r) in Hp |- *.
    nra. }
  apply Qle_shift_div_r; lra.
Qed.

End Averages.

(** X15.  In a run on finite inputs whose initial fear is not negative, the
    peaks of the metrics lie where the state does: [globalPeakAdoption] and
    every region's [peakAdoption] in [[0, 1]], [globalPeakFear] and every
    region's [peakFear] at or above [0]. *)
Theorem peaks_of_a_finite_run_are_bounded
    Math_pow Math_random theta dp graph cfg res :
  FiniteRun Math_pow Math_random theta dp graph cfg →
  InitialFearNonneg cfg →
  runCascadeSimulation Math_pow Math_random theta dp graph cfg = Some res →
  in01 (globalPeakAdoption (metrics res))
  ∧ nonneg (globalPeakFear (metrics res))
  ∧ ∀ r, r ∈ listRegions dp →
         ∃ p, perRegion (metrics res) !! r = Some p
              ∧ in01 (r_peakAdoption p) ∧ nonneg (r_peakFear p).
Proof.
  intros Hfin Hfear0 Hrun.
  destruct (run_snapshots_ok Math_pow Math_random theta dp graph cfg Hfin
              res Hfear0 Hrun) as [Hall _].
  rewrite Forall_forall in Hall.
  rewrite (run_metrics _ _ _ _ _ _ _ Hrun).
  pose proof (fr_population _ _ _ _ _ _ Hfin) as Hpop.
  unfold computeSimulationMetrics. cbv zeta.
  cbn [globalPeakAdoption globalPeakFear perRegion].
  match goal with |- context [peakLoop ?snaps ?regions ?pop ?T ?s0] =>
    destruct (peakLoop_spec regions pop T snaps s0) as (HA & HF & Hpr)
  end.
  cbn [ps_peakAdoptionTime ps_globalPeakAdoption ps_peakFearTime
       ps_globalPeakFear ps_perRegion] in HA, HF, Hpr.
  assert (Hzero01 : in01 (Fin 0)) by (exists 0%Q; split; [done|lra]).
  assert (Hzero : nonneg (Fin 0)) by (apply nonneg_Fin; lra).
  split_and!.
  - apply peak_scan in HA as [_ [[-> _]|(i & snap & Hi & -> & _)]]; [done|].
    apply average_in01; [done|]. intros r.
    apply (adoption_or_zero_in01 dp (values snap.1, values snap.2)).
    apply Hall. by eapply list_elem_of_lookup_2.
  - apply peak_scan in HF as [_ [[-> _]|(i & snap & Hi & -> & _)]]; [done|].
    apply average_nonneg; [done|]. intros r.
    apply (fear_or_zero_nonneg dp (values snap.1, values snap.2)).
    apply Hall. by eapply list_elem_of_lookup_2.
  - intros r Hr. rewrite Hpr, decide_True by done. clear Hpr.
    unfold initPerRegion.
    rewrite fold_insert_const_lookup, decide_True by done.
    cbn [fmap option_fmap option_map]. eexists. split; [done|].
    match goal with |- context [fold_left ?f ?snaps ?p0] =>
      destruct (bump_fold_scan snaps r p0) as [HrA HrF]
    end.
    cbn [r_peakAdoptionTime r_peakAdoption r_peakFearTime r_peakFear]
      in HrA, HrF.
    split.
    + apply peak_scan in HrA as [_ [[-> _]|(i & snap & Hi & -> & _)]];
        [done|].
      apply (adoption_or_zero_in01 dp (values snap.1, values snap.2)).
      apply Hall. by eapply list_elem_of_lookup_2.
    + apply peak_scan in HrF as [_ [[-> _]|(i & snap & Hi & -> & _)]];
        [done|].
      apply (fear_or_zero_nonneg dp (values snap.1, values snap.2)).
      apply Hall. by eapply list_elem_of_lookup_2.
Qed.
(** ** The harmful-cascade flag at a share of zero *)

Lemma popAtRisk_nonneg (regions : list string)
    (Avals Fvals pop : gmap string num) (materialAdoption criticalFear : num) :
  (∀ r p, pop !! r = Some p → nonneg p) →
  nonneg (popAtRisk regions Avals Fvals pop materialAdoption criticalFear).
Proof.
  intros Hpop. unfold popAtRisk.
  assert (Hgen : ∀ acc, nonneg acc →
    nonneg
      (fold_left
         (λ acc r,
            if js_ge (js_or_undef (Avals !! r) (Fin 0)) materialAdoption
               && js_ge (js_or_undef (Fvals !! r) (Fin 0)) criticalFear
            then js_add acc (js_or_undef (pop !! r) (Fin 0)) else acc)
         regions acc)).
  { induction regions as [|r rs IH]; intros acc Hacc; [done|].
    cbn [fold_left]. apply IH. destruct (_ && _); [|done].
    apply nonneg_add; [done|].
    apply js_or_undef_pred; [apply Hpop|apply nonneg_Fin; lra]. }
  apply Hgen, nonneg_Fin. lra.
Qed.


(** ** [aggregateMetrics] *)

Lemma js_div_nat (c n : nat) :
  0 < n → c ≤ n → in01 (js_div (num_of_nat c) (num_of_nat n)).
Proof.
  intros Hn Hc. unfold num_of_nat.
  assert (Hnq : (0 < inject_Z (Z.of_nat n))%Q).
  { change 0%Q with (inject_Z 0). rewrite <- Zlt_Qlt. lia. }
  assert (Hcq : (0 <= inject_Z (Z.of_nat c))%Q).
  { change 0%Q with (inject_Z 0). rewrite <- Zle_Qle. lia. }
  assert (Hle : (inject_Z (Z.of_nat c) <= inject_Z (Z.of_nat n))%Q).
  { rewrite <- Zle_Qle. lia. }
  rewrite js_div_Fin by lra. eexists. split; [done|].
  rewrite Qred_correct. split.
  - apply Qle_shift_div_l; lra.
  - apply Qle_shift_div_r; lra.
Qed.

(** X16.  Whatever the runs of a cell, [probabilityHarmful] is a number of
    [[0, 1]]; and for no run at all every statistic is [0]. *)
Theorem probabilityHarmful_in_unit_interval (metricsArray : list Metrics) :
  in01 (probabilityHarmful (aggregateMetrics metricsArray))
  ∧ (metricsArray = [] →
     probabilityHarmful (aggregateMetrics metricsArray) = Fin 0
     ∧ meanGlobalPeakAdoption (aggregateMetrics metricsArray) = Fin 0
     ∧ meanGlobalPeakFear (aggregateMetrics metricsArray) = Fin 0).
Proof.
  split; [|by intros ->].
  unfold aggregateMetrics. cbn [probabilityHarmful].
  destruct metricsArray as [|m ms].
  - exists 0%Q. split; [done|lra].
  - rewrite js_or_num_of_nat_pos by (simpl; lia).
    apply js_div_nat; [simpl; lia|]. apply length_filter.
Qed.

(** ** The means of a cell *)

Lemma mean_bounds (metricsArray : list Metrics) (key : Metrics → num) :
  let n := js_or (num_of_nat (length metricsArray)) (Fin 1) in
  ((∀ m, m ∈ metricsArray → nonneg (key m)) →
   nonneg (mean n metricsArray key))
  ∧ ((∀ m, m ∈ metricsArray → in01 (key m)) →
     in01 (mean n metricsArray key)).
Proof.
  intros n.
  assert (Hsum : (∀ m, m ∈ metricsArray → nonneg (key m)) →
    ∃ X, fold_left (λ s m, js_add s (js_or (key m) (Fin 0))) metricsArray
           (Fin 0) = Fin X
         ∧ (X == Qsum ((λ m, qval (key m)) <$> metricsArray))%Q).
  { intros Hk.
    destruct (fold_js_add_fin (λ m, js_or (key m) (Fin 0))
                (λ m, qval (key m)) metricsArray 0) as (X & HX & HXs & _).
    - intros m Hm. destruct (Hk m Hm) as (q & Hq & _).
      exists (qval (js_or (key m) (Fin 0))). split.
      + rewrite Hq. unfold js_or. by destruct (truthy _).
      + apply qval_js_or_zero.
    - exists X. split; [done|]. rewrite HXs. lra. }
  set (N := inject_Z (Z.of_nat (length metricsArray))).
  assert (Hn : ∃ P, n = Fin P ∧ (0 < P)%Q ∧ (N <= P)%Q).
  { subst n N. destruct metricsArray as [|m ms].
    - exists 1%Q. split_and!; [done|lra|]. change (0 <= 1)%Q. lra.
    - rewrite js_or_num_of_nat_pos by (simpl; lia). eexists.
      split_and!; [done| |lra].
      change 0%Q with (inject_Z 0). rewrite <- Zlt_Qlt. simpl. lia. }
  destruct Hn as (P & HP & HP0 & HNP).
  assert (Hnn : (∀ m, m ∈ metricsArray → nonneg (key m)) →
            nonneg (mean n metricsArray key)).
  { intros Hk. destruct (Hsum Hk) as (X & HX & HXs). unfold mean.
    rewrite HX, HP, js_div_Fin by lra. eexists. split; [done|].
    rewrite Qred_correct. apply Qle_shift_div_l; [done|].
    rewrite HXs. assert (0 <= Qsum ((λ m, qval (key m)) <$> metricsArray))%Q.
    { apply Qsum_nonneg. intros m Hm. by destruct (Hk m Hm) as (q & -> & ?). }
    lra. }
  split; [done|]. intros Hk.
  destruct (Hnn (λ m Hm, in01_nonneg _ (Hk m Hm))) as (q & Hq & Hq0).
  exists q. split; [done|]. split; [done|].
  destruct (Hsum (λ m Hm, in01_nonneg _ (Hk m Hm))) as (X & HX & HXs).
  unfold mean in Hq. rewrite HX, HP, js_div_Fin in Hq by lra.
  injection Hq as <-. rewrite Qred_correct.
  apply Qle_shift_div_r; [done|].
  assert (HXN : (X <= N)%Q).
  { rewrite HXs. subst N.
    rewrite <- (Qmult_1_r (inject_Z _)), <- (Qsum_const 1 metricsArray).
    apply Qsum_le. intros m Hm. by destruct (Hk m Hm) as (a & -> & ? & ?). }
  lra.
Qed.

(** X17.  The means of a cell stay in the range of what is averaged: when every
    run has its global peak adoption in [[0, 1]] and its global peak fear at
    or above [0], so has the cell, for any number of runs (none
    included). *)
Theorem cell_means_stay_in_range (metricsArray : list Metrics) :
  (∀ m, m ∈ metricsArray →
        in01 (globalPeakAdoption m) ∧ nonneg (globalPeakFear m)) →
  in01 (meanGlobalPeakAdoption (aggregateMetrics metricsArray))
  ∧ nonneg (meanGlobalPeakFear (aggregateMetrics metricsArray)).
Proof.
  intros Hm. unfold aggregateMetrics.
  cbn [meanGlobalPeakAdoption meanGlobalPeakFear]. split.
  - apply mean_bounds. intros m Hin. by apply Hm.
  - apply mean_bounds. intros m Hin. by apply Hm.
Qed.
(** ** [maxBy] *)

Lemma maxBy_scan {X} (arr : list X) (fn : X → num) (st : option X * num) :
  fold_left
    (λ '(best, bestVal) x,
       let v := fn x in
       if js_gt v bestVal then (Some x, v) else (best, bestVal))
    arr st
  = fold_left
      (λ (st : option X * num) (it : X * num),
         if js_gt it.2 st.2 then (Some it.1, it.2) else st)
      ((λ x, (x, fn x)) <$> arr) st.
Proof.
  revert st. induction arr as [|x arr IH]; intros [best bestVal]; [done|].
  rewrite fmap_cons. cbn [fold_left]. by rewrite IH.
Qed.

(** The result of [maxBy], by cases. *)
Lemma maxBy_cases {X} (arr : list X) (fn : X → num) :
  match maxBy arr fn with
  | None => ∀ x, x ∈ arr → js_gt (fn x) NInf = false
  | Some x =>
    js_gt (fn x) NInf = true
    ∧ (∀ y, y ∈ arr → js_gt (fn y) (fn x) = false)
    ∧ ∃ i, arr !! i = Some x
           ∧ ∀ j y, j < i → arr !! j = Some y → js_ge (fn y) (fn x) = false
  end.
Proof.
  unfold maxBy. rewrite maxBy_scan.
  destruct (scan_spec ((λ x, (x, fn x)) <$> arr) None NInf)
    as (_ & Hdom & Hcase); [done|].
  assert (Hdom' : ∀ y, y ∈ arr →
            js_gt (fn y)
              (fold_left
                 (λ (st : option X * num) (it : X * num),
                    if js_gt it.2 st.2 then (Some it.1, it.2) else st)
                 ((λ x, (x, fn x)) <$> arr) (None, NInf)).2 = false).
  { intros y Hy. apply (Hdom (y, fn y)). apply list_elem_of_fmap. by exists y. }
  clear Hdom.
  destruct Hcase as [He|(i & it & Hi & He & Hgt & Hbefore)];
    rewrite He in *; cbn [fst snd] in *; [done|].
  apply list_lookup_fmap_Some in Hi as (x & -> & Hi). cbn [fst snd] in *.
  split_and!; [done..|]. exists i. split; [done|].
  intros j y Hj Hy. apply (Hbefore j (y, fn y) Hj).
  by rewrite list_lookup_fmap, Hy.
Qed.

(** X18.  [maxBy] returns [null] exactly when no element has a value above
    [-Infinity] (the array is empty, or every value is [NaN] or
    [-Infinity]).  Otherwise it returns the first element whose value is
    the greatest: no element has a greater value, and no earlier element
    has a value as great. *)
Theorem maxBy_first_greatest {X} (arr : list X) (fn : X → num) :
  (maxBy arr fn = None ↔ ∀ x, x ∈ arr → js_gt (fn x) NInf = false)
  ∧ (∀ x, maxBy arr fn = Some x →
       js_gt (fn x) NInf = true
       ∧ (∀ y, y ∈ arr → js_gt (fn y) (fn x) = false)
       ∧ ∃ i, arr !! i = Some x
              ∧ ∀ j y, j < i → arr !! j = Some y →
                       js_ge (fn y) (fn x) = false).
Proof.
  pose proof (maxBy_cases arr fn) as Hcases.
  destruct (maxBy arr fn) as [best|].
  - destruct Hcases as (Hgt & Hdom & Hfirst). split.
    + split; [done|]. intros Hall. destruct Hfirst as (i & Hi & _).
      rewrite Hall in Hgt; [done|]. by eapply list_elem_of_lookup_2.
    + by intros x [= <-].
  - split; [done|]. intros x [=].
Qed.

(** ** Thresholds: what a record holds, and calling again *)

Lemma obj_get_NoDup {V} (g : list (string * V)) (k : string) (v : V) :
  NoDup g.*1 → (k, v) ∈ g → obj_get g k = Some v.
Proof.
  induction g as [|[k0 v0] g IH]; intros Hnd Hin; [by apply elem_of_nil in Hin|].
  rewrite fmap_cons in Hnd. apply NoDup_cons in Hnd as [Hk0 Hnd]. simpl.
  apply elem_of_cons in Hin as [[= -> ->]|Hin].
  - by rewrite String.eqb_refl.
  - destruct (String.eqb_spec k0 k) as [->|Hne]; [|by apply IH].
    exfalso. apply Hk0. apply list_elem_of_fmap. by exists (k, v).
Qed.

Lemma canonicalKey_groupLoop (σ : store) (cells : list Cell) g sf :
  canonicalKey (groupLoop σ cells g).1 sf = canonicalKey σ sf.
Proof.
  revert σ g. induction cells as [|c cells IH]; intros σ g; [done|].
  simpl. destruct (spatialFocusKey σ (c_spatialFocus c)) as [σ' key] eqn:Hk.
  rewrite IH. replace σ' with (spatialFocusKey σ (c_spatialFocus c)).1
    by (by rewrite Hk).
  apply canonicalKey_step.
Qed.

Section ThresholdRecords.

Variables (σ : store) (surface : list Cell) (rc : RiskConstraints).

Let safeCells := filter (λ cell, isSafe rc cell = true) surface.
Let keyOf (c : Cell) := canonicalKey σ (c_spatialFocus c).

(** The group a threshold record was computed from. *)
Lemma threshold_group (ts : list Threshold) (th : Threshold) :
  thresholds (deriveRegulatoryThresholds σ surface rc).2 = Some ts →
  th ∈ ts →
  ∃ cells,
    th = thresholdOf rc (th_spatialFocusKey th, cells)
    ∧ cells = filter (λ c, keyOf c = th_spatialFocusKey th) safeCells
    ∧ cells ≠ [].
Proof.
  rewrite thresholds_keys. case_decide; [done|]. intros [= <-].
  intros ([k cells] & -> & Hin)%list_elem_of_fmap.
  destruct (groupsOf_spec σ surface rc) as [Hnd Hget].
  apply (obj_get_NoDup _ _ _ Hnd) in Hin. rewrite Hget in Hin.
  exists cells. split; [done|]. cbn [thresholdOf th_spatialFocusKey fst].
  fold safeCells keyOf in Hin.
  destruct (filter _ safeCells); by simplify_eq.
Qed.

(** X19.  Every threshold record echoes the constraints and bounds its group: no
    safe cell with the record's key has a seed fraction above
    [maxSafeSeedFraction], nor a signal strength above
    [maxSafeSignalStrength]; each of the two is the value of a safe cell
    with that key, or [0] when no such cell has a value above [-Infinity].
    The two maxima are taken separately. *)
Theorem thresholds_are_group_maxima (ts : list Threshold) (th : Threshold) :
  thresholds (deriveRegulatoryThresholds σ surface rc).2 = Some ts →
  th ∈ ts →
  let inGroup c :=
    c ∈ surface ∧ isSafe rc c = true
    ∧ canonicalKey σ (c_spatialFocus c) = th_spatialFocusKey th in
  riskConstraints th = rc
  ∧ (∃ c, inGroup c)
  ∧ (∀ c, inGroup c →
       js_gt (c_seedFraction c) (maxSafeSeedFraction th) = false
       ∧ js_gt (c_signalStrength c) (maxSafeSignalStrength th) = false)
  ∧ ((∃ c, inGroup c ∧ maxSafeSeedFraction th = c_seedFraction c)
     ∨ maxSafeSeedFraction th = Fin 0
       ∧ ∀ c, inGroup c → js_gt (c_seedFraction c) NInf = false)
  ∧ ((∃ c, inGroup c ∧ maxSafeSignalStrength th = c_signalStrength c)
     ∨ maxSafeSignalStrength th = Fin 0
       ∧ ∀ c, inGroup c → js_gt (c_signalStrength c) NInf = false).
Proof.
  intros Hts Hth inGroup.
  destruct (threshold_group ts th Hts Hth) as (cells & Hthe & Hcells & Hnil).
  assert (Hin : ∀ c, inGroup c ↔ c ∈ cells).
  { intros c. subst cells inGroup. rewrite list_elem_of_filter. subst safeCells.
    rewrite list_elem_of_filter. unfold keyOf. tauto. }
  assert (Hne : ∃ c, inGroup c).
  { destruct cells as [|c0 cs0]; [done|]. exists c0. apply Hin. left. }
  assert (Hmax : ∀ fn : Cell → num,
    let v := default (Fin 0) (fn <$> maxBy cells fn) in
    (∀ c, inGroup c → js_gt (fn c) v = false)
    ∧ ((∃ c, inGroup c ∧ v = fn c)
       ∨ v = Fin 0 ∧ ∀ c, inGroup c → js_gt (fn c) NInf = false)).
  { intros fn. pose proof (maxBy_cases cells fn) as Hcases.
    destruct (maxBy cells fn) as [best|]; cbn.
    - destruct Hcases as (_ & Hdom & i & Hi & _).
      split; [intros c Hc; by apply Hdom, Hin|].
      left. exists best. split; [|done]. apply Hin.
      by eapply list_elem_of_lookup_2.
    - assert (Hall' : ∀ c, inGroup c → js_gt (fn c) NInf = false)
        by (intros c Hc; by apply Hcases, Hin).
      split; [|by right]. intros c Hc. specialize (Hall' c Hc).
      destruct (fn c); try done. }
  rewrite Hthe. cbn [riskConstraints thresholdOf maxSafeSeedFraction
                     maxSafeSignalStrength snd].
  destruct (Hmax c_seedFraction) as [Hs1 Hs2].
  destruct (Hmax c_signalStrength) as [Hg1 Hg2].
  split_and!; [done|done| |done|done].
  intros c Hc. split; [by apply Hs1|by apply Hg1].
Qed.

(** X20.  A second call on the surface the first call left behind returns the
    same result and changes nothing more. *)
Theorem deriveRegulatoryThresholds_again :
  let first := deriveRegulatoryThresholds σ surface rc in
  deriveRegulatoryThresholds first.1 surface rc = first.
Proof.
  unfold deriveRegulatoryThresholds. fold safeCells.
  case_bool_decide as Hlen; [done|].
  destruct (groupLoop σ safeCells []) as [σ1 g1] eqn:H1. cbn [fst].
  destruct (groupLoop σ1 safeCells []) as [σ2 g2] eqn:H2.
  assert (Hσ1 : σ1 = (groupLoop σ safeCells []).1) by (by rewrite H1).
  assert (Hg : g2 = g1).
  { replace g2 with (groupLoop σ1 safeCells []).2 by (by rewrite H2).
    replace g1 with (groupLoop σ safeCells []).2 by (by rewrite H1).
    rewrite (groupLoop_groups_gen σ σ1), (groupLoop_groups_gen σ σ); [done..|].
    intros sf. rewrite Hσ1. apply canonicalKey_groupLoop. }
  assert (Hσ : σ2 = σ1).
  { apply map_eq. intros l.
    replace σ2 with (groupLoop σ1 safeCells []).1 by (by rewrite H2).
    rewrite groupLoop_store, Hσ1, groupLoop_store.
    case_decide; [|done]. destruct (σ !! l); simpl; [|done].
    by rewrite js_sort_idemp. }
  by rewrite Hg, Hσ.
Qed.

End ThresholdRecords.



(** X23.  A limit that is [NaN] (a [maxHarmProbability] that is missing, as
    [undefined] compares) accepts no cell: whatever the surface, the result
    is the unsafe one and nothing is sorted. *)
Theorem a_missing_limit_rejects_every_cell
    (σ : store) (surface : list Cell) (rc : RiskConstraints) :
  maxHarmProbability rc = NaN ∨ maxMeanGlobalFear rc = Some NaN →
  deriveRegulatoryThresholds σ surface rc
  = (σ, {| safe := false;
           message := Some "No parameter region satisfies risk constraints.";
           thresholds := None |}).
Proof.
  intros Hnan. unfold deriveRegulatoryThresholds.
  rewrite bool_decide_true; [done|].
  apply safeCells_empty_iff. intros cell _. unfold isSafe.
  destruct Hnan as [->| ->]; cbn [default].
  - by destruct (probabilityHarmful (stats cell)).
  - rewrite andb_false_iff. right.
    by destruct (meanGlobalPeakFear (stats cell)).
Qed.


(** ** [evaluatePolicyPlan] *)

Lemma gridPoints_nil (paramGrid : ParamGrid) :
  seedFractions paramGrid = [] ∨ signalStrengths paramGrid = []
  ∨ spatialFocusOptions paramGrid = [] →
  gridPoints paramGrid = [].
Proof.
  intros Hempty. apply length_zero_iff_nil. rewrite gridPoints_length.
  destruct Hempty as [He|[He|He]]; rewrite He; simpl; lia.
Qed.

Lemma sweep_without_runs Math_pow (σ : store) Math_random (simConfig : Config)
    (points : list (num * num * option FocusRef)) (c : nat) :
  runsPerPoint simConfig = 0 →
  sweep Math_pow σ Math_random simConfig points c
  = Some ((λ point : num * num * option FocusRef,
             {| c_seedFraction := point.1.1;
                c_signalStrength := point.1.2;
                c_spatialFocus := point.2;
                stats := aggregateMetrics [] |}) <$> points).
Proof.
  intros Hruns. revert c. induction points as [|point points IH]; intros c;
    [done|].
  cbn [sweep]. rewrite IH. unfold cellOf. rewrite Hruns. done.
Qed.

(** X24.  An empty axis of the grid leaves nothing to evaluate: the surface is
    empty, no simulation is run, and the thresholds are the unsafe
    result. *)
Theorem empty_grid_is_reported_unsafe
    Math_pow (σ : store) Math_random provider graph (planSpec : PlanSpec) :
  ps_seedFractions planSpec = [] ∨ ps_signalStrengths planSpec = []
  ∨ ps_spatialFocusOptions planSpec = [] →
  evaluatePolicyPlan Math_pow σ Math_random provider graph planSpec
  = Some (σ,
          {| ev_surface := [];
             ev_thresholds :=
               {| safe := false;
                  message :=
                    Some "No parameter region satisfies risk constraints.";
                  thresholds := None |} |}).
Proof.
  intros Hempty. unfold evaluatePolicyPlan, buildResponseSurface.
  rewrite gridPoints_nil by done. done.
Qed.


(** ** The properties at sample inputs *)

Lemma samples_finite Math_random (seed signal : Q) fear0 (u : Q) :
  (∀ m r f, fear0 = Some m → m !! r = Some f → finite f) →
  FiniteRun scenario.pow_nat Math_random (samples.theta seed signal)
    scenario.provider scenario.graph
    (scenario.config fear0 (Some (λ _, scenario.constant_rng (Fin u)))).
Proof.
  intros Hfear. split.
  - apply finite_Fin.
  - apply finite_Fin.
  - intros r p Hp. cbn [scenario.config popByRegion] in Hp.
    apply lookup_singleton_Some in Hp as [_ <-]. apply nonneg_Fin. lra.
  - intros sf raw k v Hsf. discriminate.
  - intros k. apply finite_Fin.
  - intros ap [= <-]. repeat apply Forall_cons_2; try apply Forall_nil_2;
      intros x Hx; try discriminate. injection Hx as <-. apply finite_Fin.
  - apply nonneg_Fin. lra.
  - intros fp Hfp. discriminate.
  - intros hw Hhw. discriminate.
  - intros from edges e Hg He. unfold scenario.graph in Hg.
    apply list_elem_of_singleton in Hg. injection Hg as -> ->.
    by apply elem_of_nil in He.
  - intros i Hi. eexists. vm_compute. reflexivity.
Qed.

Lemma maxBy_first_greatest_witness :
  maxBy [Fin 0.1; NaN; Fin 0.3; Fin 0.3] id = Some (Fin 0.3)
  ∧ js_gt (Fin 0.3) NInf = true.
Proof.
  split; [reflexivity|].
  apply (proj2 (maxBy_first_greatest [Fin 0.1; NaN; Fin 0.3; Fin 0.3] id)
           (Fin 0.3) eq_refl).
Defined.

Lemma cell_means_stay_in_range_witness :
  in01 (meanGlobalPeakAdoption
          (aggregateMetrics [samples.peaks 0.2 1.5; samples.peaks 0.4 0.5]))
  ∧ nonneg (meanGlobalPeakFear
              (aggregateMetrics [samples.peaks 0.2 1.5; samples.peaks 0.4 0.5])).
Proof.
  apply (cell_means_stay_in_range
           [samples.peaks 0.2 1.5; samples.peaks 0.4 0.5]).
  intros m Hm. rewrite !elem_of_cons, elem_of_nil in Hm.
  destruct Hm as [->|[->|[]]]; cbn;
    (split; [eexists; split; [reflexivity|lra]
            |eexists; split; [reflexivity|lra]]).
Defined.

Lemma thresholds_are_group_maxima_witness :
  let surface := [samples.cell 0.1 0.9 None; samples.cell 0.2 0.5 None] in
  let th :=
    {| th_spatialFocusKey := "uniform"; maxSafeSeedFraction := Fin 0.2;
       maxSafeSignalStrength := Fin 0.9;
       riskConstraints := scenario.limits |} in
  thresholds (deriveRegulatoryThresholds ∅ surface scenario.limits).2
  = Some [th]
  ∧ ∀ c, c ∈ surface ∧ isSafe scenario.limits c = true
         ∧ canonicalKey ∅ (c_spatialFocus c) = "uniform" →
         js_gt (c_seedFraction c) (Fin 0.2) = false
         ∧ js_gt (c_signalStrength c) (Fin 0.9) = false.
Proof.
  intros surface th.
  assert (Hts : thresholds
                  (deriveRegulatoryThresholds ∅ surface scenario.limits).2
                = Some [th]) by (vm_compute; reflexivity).
  split; [exact Hts|].
  destruct (thresholds_are_group_maxima ∅ surface scenario.limits [th] th Hts)
    as (_ & _ & Hdom & _); [left|exact Hdom].
Defined.



Lemma no_snapshot_unless_step_count_reaches_zero_witness :
  ∃ res,
    runCascadeSimulation scenario.pow_nat (scenario.constant_rng (Fin 0.5))
      {| seedFraction := Fin 0.5; spatialFocus := None;
         signalStrength := Fin 1; timeHorizon := Fin 0; dt := Fin 0;
         randomSeed := None |}
      scenario.provider scenario.graph scenario.seeded = Some res
    ∧ histA (history res) = [].
Proof.
  destruct (no_snapshot_unless_step_count_reaches_zero
              scenario.pow_nat (scenario.constant_rng (Fin 0.5))
              {| seedFraction := Fin 0.5; spatialFocus := None;
                 signalStrength := Fin 1; timeHorizon := Fin 0; dt := Fin 0;
                 randomSeed := None |}
              scenario.provider scenario.graph scenario.seeded eq_refl)
    as (res & Hrun & HA & _).
  exists res. split; [exact Hrun|exact HA].
Defined.

Lemma run_reads_density_at_time_zero_only_witness :
  runCascadeSimulation scenario.pow_nat (scenario.constant_rng (Fin 0.5))
    (scenario.theta 2) (samples.gis 5) scenario.graph scenario.seeded
  = runCascadeSimulation scenario.pow_nat (scenario.constant_rng (Fin 0.5))
      (scenario.theta 2) (samples.gis 7) scenario.graph scenario.seeded.
Proof.
  apply (run_reads_density_at_time_zero_only scenario.pow_nat
           (scenario.constant_rng (Fin 0.5)) (scenario.theta 2)
           (samples.gis 5) (samples.gis 7) scenario.graph scenario.seeded
           eq_refl).
  intros r Hr. reflexivity.
Defined.







Lemma global_peaks_are_first_maxima_witness :
  ∃ res,
    runCascadeSimulation scenario.pow_nat (scenario.constant_rng (Fin 0.5))
      (scenario.theta 2) scenario.provider scenario.graph scenario.seeded
    = Some res
    ∧ (globalPeakAdoption (metrics res) = Fin 0
       ∧ peakAdoptionTime (metrics res) = None
       ∨ ∃ i snap,
           snapshots (history res) !! i = Some snap
           ∧ peakAdoptionTime (metrics res) = Some (t snap.1)).
Proof.
  destruct (runCascadeSimulation scenario.pow_nat
              (scenario.constant_rng (Fin 0.5)) (scenario.theta 2)
              scenario.provider scenario.graph scenario.seeded)
    as [res|] eqn:Hrun; [|vm_compute in Hrun; discriminate].
  exists res. split; [reflexivity|].
  destruct (global_peaks_are_first_maxima
              scenario.pow_nat (scenario.constant_rng (Fin 0.5))
              (scenario.theta 2) scenario.provider scenario.graph
              scenario.seeded res Hrun)
    as [[_ [Hzero|(i & snap & Hi & _ & Ht & _)]] _].
  - left. exact Hzero.
  - right. exists i, snap. split; [exact Hi|exact Ht].
Defined.

Lemma per_region_peaks_are_first_maxima_witness :
  ∃ res p,
    runCascadeSimulation scenario.pow_nat (scenario.constant_rng (Fin 0.5))
      (scenario.theta 2) scenario.provider scenario.graph scenario.seeded
    = Some res
    ∧ perRegion (metrics res) !! "A" = Some p
    ∧ ∀ snap, snap ∈ snapshots (history res) →
              js_gt (js_or_undef (values snap.1 !! "A") (Fin 0))
                    (r_peakAdoption p) = false.
Proof.
  destruct (runCascadeSimulation scenario.pow_nat
              (scenario.constant_rng (Fin 0.5)) (scenario.theta 2)
              scenario.provider scenario.graph scenario.seeded)
    as [res|] eqn:Hrun; [|vm_compute in Hrun; discriminate].
  destruct (per_region_peaks_are_first_maxima
              scenario.pow_nat (scenario.constant_rng (Fin 0.5))
              (scenario.theta 2) scenario.provider scenario.graph
              scenario.seeded res "A" Hrun ltac:(left))
    as (p & Hp & [Hdom _] & _).
  exists res, p. split; [reflexivity|]. split; [exact Hp|exact Hdom].
Defined.

Lemma peaks_of_a_finite_run_are_bounded_witness :
  ∃ res,
    runCascadeSimulation scenario.pow_nat (scenario.constant_rng (Fin 0.5))
      (scenario.theta 2) scenario.provider scenario.graph scenario.seeded
    = Some res
    ∧ in01 (globalPeakAdoption (metrics res))
    ∧ nonneg (globalPeakFear (metrics res)).
Proof.
  destruct (runCascadeSimulation scenario.pow_nat
              (scenario.constant_rng (Fin 0.5)) (scenario.theta 2)
              scenario.provider scenario.graph scenario.seeded)
    as [res|] eqn:Hrun; [|vm_compute in Hrun; discriminate].
  exists res. split; [reflexivity|].
  destruct (peaks_of_a_finite_run_are_bounded
              scenario.pow_nat (scenario.constant_rng (Fin 0.5))
              (scenario.theta 2) scenario.provider scenario.graph
              scenario.seeded res) as (HA & HF & _).
  - apply scenario_finite.
  - intros m r f Hm. discriminate.
  - exact Hrun.
  - split; [exact HA|exact HF].
Defined.

Lemma snapshots_hold_the_listed_regions_witness :
  ∃ res,
    runCascadeSimulation scenario.pow_nat (scenario.constant_rng (Fin 0.5))
      (scenario.theta 2) scenario.provider scenario.graph scenario.seeded
    = Some res
    ∧ length (histA (history res)) = length (histF (history res)).
Proof.
  destruct (runCascadeSimulation scenario.pow_nat
              (scenario.constant_rng (Fin 0.5)) (scenario.theta 2)
              scenario.provider scenario.graph scenario.seeded)
    as [res|] eqn:Hrun; [|vm_compute in Hrun; discriminate].
  exists res. split; [reflexivity|].
  apply (proj1 (snapshots_hold_the_listed_regions
                  scenario.pow_nat (scenario.constant_rng (Fin 0.5))
                  (scenario.theta 2) scenario.provider scenario.graph
                  scenario.seeded res Hrun)).
Defined.

Lemma empty_grid_is_reported_unsafe_witness :
  evaluatePolicyPlan scenario.pow_nat ∅ (scenario.constant_rng (Fin 0.5))
    scenario.provider scenario.graph (samples.plan [] 1)
  = Some (∅,
          {| ev_surface := [];
             ev_thresholds :=
               {| safe := false;
                  message :=
                    Some "No parameter region satisfies risk constraints.";
                  thresholds := None |} |}).
Proof.
  apply (empty_grid_is_reported_unsafe scenario.pow_nat ∅
           (scenario.constant_rng (Fin 0.5)) scenario.provider scenario.graph
           (samples.plan [] 1)).
  left. reflexivity.
Defined.


Lemma randomSeed_is_read_by_the_factory_only_witness :
  runCascadeSimulation scenario.pow_nat (scenario.constant_rng (Fin 0.5))
    {| seedFraction := Fin 0.5; spatialFocus := None;
       signalStrength := Fin 1; timeHorizon := Fin 2; dt := Fin 1;
       randomSeed := Some (Fin 7) |}
    scenario.provider scenario.graph scenario.unseeded
  = runCascadeSimulation scenario.pow_nat (scenario.constant_rng (Fin 0.5))
      (scenario.theta 2) scenario.provider scenario.graph scenario.unseeded.
Proof.
  apply (randomSeed_is_read_by_the_factory_only scenario.pow_nat
           (scenario.constant_rng (Fin 0.5)) (scenario.theta 2)
           (Some (Fin 7)) scenario.provider scenario.graph scenario.unseeded).
  left. reflexivity.
Defined.


Lemma a_missing_limit_rejects_every_cell_witness :
  safe (deriveRegulatoryThresholds ∅ [samples.cell 0.1 0.5 None]
          {| maxHarmProbability := NaN; maxMeanGlobalFear := None |}).2
  = false.
Proof.
  rewrite (a_missing_limit_rejects_every_cell ∅ [samples.cell 0.1 0.5 None]
             {| maxHarmProbability := NaN; maxMeanGlobalFear := None |});
    [reflexivity|]. left. reflexivity.
Defined.


Lemma region_without_population_starts_adopted_witness :
  let dp := SyntheticDensityProvider ["A"; "B"] (λ _ _, Fin 0) in
  ∃ res,
    runCascadeSimulation scenario.pow_nat (scenario.constant_rng (Fin 0.5))
      (scenario.theta 2) dp scenario.graph scenario.seeded = Some res
    ∧ adoptionAt res 0 "B" = Some (Fin 1)
    ∧ ∀ a, adoptionAt res 0 "B" = Some a → js_le (Fin 0.95) a = true.
Proof.
  intros dp.
  destruct (runCascadeSimulation scenario.pow_nat
              (scenario.constant_rng (Fin 0.5)) (scenario.theta 2)
              dp scenario.graph scenario.seeded)
    as [res|] eqn:Hrun; [|vm_compute in Hrun; discriminate].
  exists res. split; [reflexivity|]. split.
  - vm_compute in Hrun. injection Hrun as <-. vm_compute. reflexivity.
  - apply (region_without_population_starts_adopted
             scenario.pow_nat (scenario.constant_rng (Fin 0.5))
             (scenario.theta 2) dp scenario.graph scenario.seeded res "B"
             Hrun).
    + intros k. exists 0.9%Q. split; [reflexivity|lra].
    + reflexivity.
    + vm_compute. reflexivity.
Defined.
